(** * First-boot seeding: the seed-to-task-graph compiler and its assertion importer

    A shallow embedding of [overlord/devicestate/firstboot.go]:
    [installSeedSnap], [populateStateFromSeedImpl], [readAsserts] and
    [importAssertionsFromSeed].

    Go functions that return [(value, error)] and may panic are computations in
    a state-and-outcome monad [GoM] over the overlord [State].  The packages
    the file imports ([state], [auth], [asserts], [assertstate], [snapstate],
    [snap], [osutil], [release], [dirs]) are collaborators: their data is
    modelled by small records and their answers are read from an environment
    [Env] (file system and oracles) or from the [State].

    A second, smaller part embeds [cmd/snap-confine/context-support.c], the
    reading of the snap context cookie. *)

From stdpp Require Import base option list strings gmap.

Local Open Scope string_scope.
Local Open Scope list_scope.

(** ** Data model *)

(** A file path, kept as the components handed to [filepath.Join]. *)
Definition path := list string.

(** Modelled from the spec: [asserts.AssertionType]; only the model kind is
    told apart from the others by the importer. *)
Inductive AssertionType := ModelType | OtherType (name : string).

#[global] Instance AssertionType_eq_dec : EqDecision AssertionType.
Proof. solve_decision. Defined.

(** Modelled from the spec: [asserts.Ref], "an opaque identifier plus type
    tag"; [Unique] is the identity that references are compared by. *)
Record Ref := { Type_ : AssertionType; Unique : string }.

#[global] Instance Ref_eq_dec : EqDecision Ref.
Proof. solve_decision. Defined.

(** Modelled from the spec: [asserts.Model], the model descriptor. *)
Record Model := {
  BrandID : string;
  ModelName : string;
  Classic : bool;
  Kernel : string;
  Gadget : string;
  RequiredSnaps : list string
}.

(** Modelled from the spec: [auth.DeviceState], the device identity record. *)
Record DeviceState := { Brand : string; DModel : string; Serial : string }.

Definition emptyDevice : DeviceState := {| Brand := ""; DModel := ""; Serial := "" |}.

(** Modelled from the spec: [snap.SeedSnap], one entry of the seed manifest. *)
Record SeedSnap := {
  sn_Name : string;
  sn_File : string;
  sn_Channel : string;
  sn_Classic : bool;
  sn_DevMode : bool;
  sn_Unasserted : bool;
  sn_Private : bool;
  sn_Contact : string
}.

(** Modelled from the spec: [snap.SideInfo], the install provenance. *)
Record SideInfo := {
  RealName : string;
  SnapID : string;
  Private : bool;
  Contact : string
}.

Definition zeroSideInfo : SideInfo :=
  {| RealName := ""; SnapID := ""; Private := false; Contact := "" |}.

(** [snapstate.Flags], the fields this file sets. *)
Record Flags := {
  fl_Classic : bool;
  fl_DevMode : bool;
  fl_Required : bool;
  fl_SkipConfigure : bool
}.

Definition zeroFlags : Flags :=
  {| fl_Classic := false; fl_DevMode := false; fl_Required := false; fl_SkipConfigure := false |}.

(** [snapstate.Flags{SkipConfigure: true}] *)
Definition skipConfigureFlags : Flags :=
  {| fl_Classic := false; fl_DevMode := false; fl_Required := false; fl_SkipConfigure := true |}.

(** The flag [snapstate.ConfigureSnap] is called with. *)
Inductive ConfigureFlags := UseConfigDefaults.

(** *** Errors and outcomes *)

(** Go error values.  [errNothingToDo] and [ErrNoState] are sentinels that the
    code compares by identity; [Errorf] is an error built in this file by
    [fmt.Errorf] from a format and its arguments; [External] is an error value
    handed back by a collaborator, carrying its text. *)
Inductive error :=
| errNothingToDo
| ErrNoState
| Errorf (format : string) (args : list fmtarg)
| External (msg : string)
with fmtarg :=
| AStr (s : string)
| APath (p : path)
| ARef (r : Ref)
| AErr (e : error).

Inductive panic := IndexOutOfRange (index len : nat).

Inductive Outcome (A : Type) :=
| Ok (a : A)
| Err (e : error)
| Panic (p : panic).
Arguments Ok {A} a.
Arguments Err {A} e.
Arguments Panic {A} p.

(** *** The overlord state *)

(** A task is one unit of work of the graph; a task set is what the compiler
    returns a list of (a graph fragment). *)
Inductive TaskKind :=
| KMarkSeeded
| KInstall (si : SideInfo) (p : path) (channel : string) (flags : Flags)
| KConfigure (name : string) (flags : ConfigureFlags).

Record Task := { t_kind : TaskKind; t_waits : list nat }.

(** [*state.TaskSet]: the ids of its tasks. *)
Definition TaskSet := list nat.

(** A persisted entry of the key-value state: absent, present, or present but
    not readable into the requested type. *)
Inductive Stored (A : Type) :=
| NoEntry
| Entry (a : A)
| Unreadable (msg : string).
Arguments NoEntry {A}.
Arguments Entry {A} a.
Arguments Unreadable {A} msg.

(** The calls made to collaborators, in order. *)
Inductive Call :=
| CallStateGet (key : string)
| CallNewTask (kind : string)
| CallAuthDevice
| CallReadDir (dir : path)
| CallReadAsserts (fn : path)
| CallCommit (batch : list Ref)
| CallResolve (r : Ref)
| CallSetDevice (d : DeviceState)
| CallFileExists (p : path)
| CallReadSeedYaml (p : path)
| CallDeriveSideInfo (p : path)
| CallInstallPath (si : SideInfo) (p : path) (channel : string) (flags : Flags)
| CallConfigureSnap (name : string) (flags : ConfigureFlags)
| CallNewTaskSet (t : nat).

Record State := {
  st_seeded : Stored bool;
  st_device : Stored DeviceState;
  st_db : list Ref;
  st_tasks : list Task;
  st_calls : list Call
}.

(** *** The environment *)

(** The answer of [ioutil.ReadDir]; [notExist] is what [os.IsNotExist] says
    of the error. *)
Inductive DirListing :=
| DirError (notExist : bool) (msg : string)
| DirEntries (names : list string).

Inductive DeriveResult :=
| DeriveNotFound
| DeriveError (msg : string)
| Derived (si : SideInfo).

Record Env := {
  OnClassic : bool;                                  (* release.OnClassic *)
  SnapSeedDir : string;                              (* dirs.SnapSeedDir *)
  assertions_dir : DirListing;                       (* ioutil.ReadDir *)
  assert_file : path → string + list Ref;            (* os.Open + batch.AddStream *)
  commit_error : list Ref → option string;           (* batch.Commit *)
  db_find : list Ref → Ref → string + Model;         (* modelRef.Resolve(DB.Find),
                                                        of a model reference *)
  set_device_error : option string;                  (* auth.SetDevice *)
  seed_yaml_exists : bool;                           (* osutil.FileExists *)
  seed_yaml : string + list SeedSnap;                (* snap.ReadSeedYaml *)
  derive_side_info : path → DeriveResult;            (* snapasserts.DeriveSideInfo *)
  install_path_error : SideInfo → path → string → Flags → option string
                                                     (* snapstate.InstallPath *)
}.

(** ** The monad *)

Definition GoM (A : Type) : Type := State → State * Outcome A.

#[global] Instance GoM_ret : MRet GoM := λ A a s, (s, Ok a).

#[global] Instance GoM_bind : MBind GoM := λ A B f m s,
  match m s with
  | (s', Ok a) => f a s'
  | (s', Err e) => (s', Err e)
  | (s', Panic p) => (s', Panic p)
  end.

(** [return nil, err] *)
Definition fail {A} (e : error) : GoM A := λ s, (s, Err e).

Definition throw {A} (p : panic) : GoM A := λ s, (s, Panic p).

(** Runs [m] and rewrites the error it returns, as [fmt.Errorf("...%s", err)]
    does. *)
Definition wrap_error {A} (f : error → error) (m : GoM A) : GoM A := λ s,
  match m s with
  | (s', Err e) => (s', Err (f e))
  | other => other
  end.

(** Runs [m] and hands its error to the caller as a value, for the callers
    that inspect [err] before returning it. *)
Definition try {A} (m : GoM A) : GoM (A + error) := λ s,
  match m s with
  | (s', Ok a) => (s', Ok (inl a))
  | (s', Err e) => (s', Ok (inr e))
  | (s', Panic p) => (s', Panic p)
  end.

Definition get_state : GoM State := λ s, (s, Ok s).

Definition logged (cs : list Call) (s : State) : State :=
  {| st_seeded := st_seeded s; st_device := st_device s; st_db := st_db s;
     st_tasks := st_tasks s; st_calls := st_calls s ++ cs |}.

Definition call (c : Call) : GoM unit := λ s, (logged [c] s, Ok tt).

(** [l[i]], which panics out of range. *)
Definition index {A} (l : list A) (i : nat) : GoM A :=
  match l !! i with
  | Some a => mret a
  | None => throw (IndexOutOfRange i (length l))
  end.

(** ** Collaborators *)

Definition set_tasks (ts : list Task) (s : State) : State :=
  {| st_seeded := st_seeded s; st_device := st_device s; st_db := st_db s;
     st_tasks := ts; st_calls := st_calls s |}.

Definition set_db (db : list Ref) (s : State) : State :=
  {| st_seeded := st_seeded s; st_device := st_device s; st_db := db;
     st_tasks := st_tasks s; st_calls := st_calls s |}.

Definition set_device (d : DeviceState) (s : State) : State :=
  {| st_seeded := st_seeded s; st_device := Entry d; st_db := st_db s;
     st_tasks := st_tasks s; st_calls := st_calls s |}.

(** Modelled from the spec: [state.State.Get] of a key; returns the value (the
    zero value when it fails) and the error. *)
Definition state_Get {A} (key : string) (entry : State → Stored A) (zero : A)
  : GoM (A * option error) :=
  _ ← call (CallStateGet key);
  s ← get_state;
  mret match entry s with
       | NoEntry => (zero, Some ErrNoState)
       | Entry a => (a, None)
       | Unreadable msg => (zero, Some (External msg))
       end.

(** Allocates a task of the state and returns its id. *)
Definition alloc (k : TaskKind) : GoM nat := λ s,
  (set_tasks (st_tasks s ++ [{| t_kind := k; t_waits := [] |}]) s, Ok (length (st_tasks s))).

(** Modelled from the spec: [state.State.NewTask]. *)
Definition NewTask (kind : string) (k : TaskKind) : GoM nat :=
  _ ← call (CallNewTask kind);
  alloc k.

(** Modelled from the spec: [state.NewTaskSet] of one task. *)
Definition NewTaskSet (t : nat) : GoM TaskSet :=
  _ ← call (CallNewTaskSet t);
  mret [t].

(** Modelled from the spec: [Task.WaitFor], the task [t] gets the predecessor
    [other]. *)
Definition Task_WaitFor (t other : nat) : GoM unit := λ s,
  (set_tasks (alter (λ tk, {| t_kind := t_kind tk; t_waits := t_waits tk ++ [other] |}) t (st_tasks s)) s,
   Ok tt).

(** Modelled from the spec: [Task.WaitAll], the task waits for every task of
    the set. *)
Fixpoint Task_WaitAll (t : nat) (ts : TaskSet) : GoM unit :=
  match ts with
  | [] => mret tt
  | other :: rest => _ ← Task_WaitFor t other; Task_WaitAll t rest
  end.

(** Modelled from the spec: [TaskSet.WaitAll], every task of [ts] waits for
    every task of [another]. *)
Fixpoint TaskSet_WaitAll (ts another : TaskSet) : GoM unit :=
  match ts with
  | [] => mret tt
  | t :: rest => _ ← Task_WaitAll t another; TaskSet_WaitAll rest another
  end.

(** Modelled from the spec: [auth.Device]; "any failure other than no such
    record is fatal". *)
Definition auth_Device : GoM DeviceState :=
  _ ← call CallAuthDevice;
  s ← get_state;
  match st_device s with
  | NoEntry => mret emptyDevice
  | Entry d => mret d
  | Unreadable msg => fail (External msg)
  end.

Section WithEnv.

Variable env : Env.

(** Modelled from the spec: [auth.SetDevice]; a failed call persists nothing. *)
Definition auth_SetDevice (d : DeviceState) : GoM unit :=
  _ ← call (CallSetDevice d);
  match set_device_error env with
  | Some msg => fail (External msg)
  | None => λ s, (set_device d s, Ok tt)
  end.

(** Modelled from the spec: [Batch.Commit], all or nothing. *)
Definition batch_Commit (batch : list Ref) : GoM unit :=
  _ ← call (CallCommit batch);
  match commit_error env batch with
  | Some msg => fail (External msg)
  | None => λ s, (set_db (st_db s ++ batch) s, Ok tt)
  end.

(** Modelled from the spec: [snapstate.InstallPath], an opaque call that
    yields one fragment of install work or an error. *)
Definition InstallPath (si : SideInfo) (p : path) (channel : string) (flags : Flags)
  : GoM TaskSet :=
  _ ← call (CallInstallPath si p channel flags);
  match install_path_error env si p channel flags with
  | Some msg => fail (External msg)
  | None => t ← alloc (KInstall si p channel flags); mret [t]
  end.

(** Modelled from the spec: [snapstate.ConfigureSnap], an opaque call that
    yields one fragment of configure work. *)
Definition ConfigureSnap (name : string) (flags : ConfigureFlags) : GoM TaskSet :=
  _ ← call (CallConfigureSnap name flags);
  t ← alloc (KConfigure name flags);
  mret [t].

(** ** [installSeedSnap] *)

Definition seedFlags (sn : SeedSnap) (flags : Flags) : Flags :=
  let flags :=
    if sn_Classic sn
    then {| fl_Classic := true; fl_DevMode := fl_DevMode flags;
            fl_Required := fl_Required flags; fl_SkipConfigure := fl_SkipConfigure flags |}
    else flags in
  if sn_DevMode sn
  then {| fl_Classic := fl_Classic flags; fl_DevMode := true;
          fl_Required := fl_Required flags; fl_SkipConfigure := fl_SkipConfigure flags |}
  else flags.

Definition seedPath (sn : SeedSnap) : path := [SnapSeedDir env; "snaps"; sn_File sn].

Definition installSeedSnap (sn : SeedSnap) (flags : Flags) : GoM TaskSet :=
  let flags := seedFlags sn flags in
  let path := seedPath sn in
  sideInfo ←
    (if sn_Unasserted sn
     then mret {| RealName := sn_Name sn; SnapID := SnapID zeroSideInfo;
                  Private := Private zeroSideInfo; Contact := Contact zeroSideInfo |}
     else
       _ ← call (CallDeriveSideInfo path);
       match derive_side_info env path with
       | DeriveNotFound =>
           fail (Errorf "cannot find signatures with metadata for snap %q (%q)"
                        [AStr (sn_Name sn); APath path])
       | DeriveError msg => fail (External msg)
       | Derived si =>
           mret {| RealName := RealName si; SnapID := SnapID si;
                   Private := sn_Private sn; Contact := sn_Contact sn |}
       end);
  InstallPath sideInfo path (sn_Channel sn) flags.

(** ** [readAsserts] and [importAssertionsFromSeed] *)

(** [readAsserts]: opens the file and streams it into the batch; yields the
    references read and the grown batch. *)
Definition readAsserts (fn : path) (batch : list Ref) : GoM (list Ref * list Ref) :=
  _ ← call (CallReadAsserts fn);
  match assert_file env fn with
  | inl msg => fail (External msg)
  | inr refs => mret (refs, batch ++ refs)
  end.

(** The inner loop over the references of one file. *)
Fixpoint scanRefs (refs : list Ref) (modelRef : option Ref) : GoM (option Ref) :=
  match refs with
  | [] => mret modelRef
  | ref :: rest =>
      if decide (Type_ ref = ModelType) then
        match modelRef with
        | Some m =>
            if decide (Unique m ≠ Unique ref)
            then fail (Errorf "cannot add more than one model assertion" [])
            else scanRefs rest (Some ref)
        | None => scanRefs rest (Some ref)
        end
      else scanRefs rest modelRef
  end.

Definition assertSeedDir : path := [SnapSeedDir env; "assertions"].

(** The loop over the directory entries. *)
Fixpoint scanFiles (dc : list string) (modelRef : option Ref) (batch : list Ref)
  : GoM (option Ref * list Ref) :=
  match dc with
  | [] => mret (modelRef, batch)
  | fi :: rest =>
      let fn := assertSeedDir ++ [fi] in
      r ← wrap_error (λ err, Errorf "cannot read assertions: %s" [AErr err])
                     (readAsserts fn batch);
      modelRef ← scanRefs r.1 modelRef;
      scanFiles rest modelRef r.2
  end.

(** Lines 223-260: the device record is read, the directory listed and the
    assertions collected; yields the device, the model reference and the
    batch, still uncommitted. *)
Definition collectAssertions : GoM (DeviceState * Ref * list Ref) :=
  device ← auth_Device;
  _ ← call (CallReadDir assertSeedDir);
  match assertions_dir env with
  | DirError notExist msg =>
      if OnClassic env && notExist then fail errNothingToDo
      else fail (Errorf "cannot read assert seed dir: %s" [AErr (External msg)])
  | DirEntries dc =>
      r ← scanFiles dc None [];
      match r.1 with
      | None => fail (Errorf "need a model assertion" [])
      | Some modelRef => mret (device, modelRef, r.2)
      end
  end.

(** Lines 262-290: the batch is committed, the model resolved and checked
    against the build mode, and the device record set from it. *)
Definition commitModel (device : DeviceState) (modelRef : Ref) (batch : list Ref)
  : GoM Model :=
  _ ← batch_Commit batch;
  _ ← call (CallResolve modelRef);
  s ← get_state;
  match db_find env (st_db s) modelRef with
  | inl msg =>
      fail (Errorf "internal error: cannot find just added assertion %v: %v"
                   [ARef modelRef; AErr (External msg)])
  | inr modelAssertion =>
      let classicModel := Classic modelAssertion in
      if decide (OnClassic env ≠ classicModel) then
        let msg := if classicModel
                   then "cannot seed an all-snaps system with a classic model"
                   else "cannot seed a classic system with an all-snaps model" in
        fail (Errorf msg [])
      else
        let device := {| Brand := BrandID modelAssertion;
                         DModel := ModelName modelAssertion;
                         Serial := Serial device |} in
        _ ← auth_SetDevice device;
        mret modelAssertion
  end.

Definition importAssertionsFromSeed : GoM Model :=
  '(device, modelRef, batch) ← collectAssertions;
  commitModel device modelRef batch.

(** ** [populateStateFromSeedImpl] *)

(** A Go map read: a missing key reads as the zero value. *)
Definition mapGet (m : gmap string bool) (k : string) : bool := default false (m !! k).

(** [required], built from [model.RequiredSnaps()]. *)
Definition requiredOf (reqSnaps : list string) : gmap string bool :=
  foldl (λ required snap, <[snap := true]> required) ∅ reqSnaps.

(** [seeding], the manifest keyed by name. *)
Definition seedingOf (snaps : list SeedSnap) : gmap string SeedSnap :=
  foldl (λ seeding sn, <[sn_Name sn := sn]> seeding) ∅ snaps.

(** The local variables of the ordering algorithm. *)
Record Locals := {
  tsAll : list TaskSet;
  configTss : list TaskSet;
  alreadySeeded : gmap string bool;
  last_ : nat
}.

Definition initLocals : Locals :=
  {| tsAll := []; configTss := []; alreadySeeded := ∅; last_ := 0 |}.

(** Lines 124-137: if there are snaps to seed, core is seeded first. *)
Definition seedCore (snaps : list SeedSnap) (seeding : gmap string SeedSnap) (L : Locals)
  : GoM Locals :=
  if decide (length snaps ≠ 0) then
    match seeding !! "core" with
    | None => fail (Errorf "cannot proceed without seeding core" [])
    | Some coreSeed =>
        ts ← installSeedSnap coreSeed skipConfigureFlags;
        configTs ← ConfigureSnap "core" UseConfigDefaults;
        mret {| tsAll := tsAll L ++ [ts];
                configTss := configTss L ++ [configTs];
                alreadySeeded := <["core" := true]> (alreadySeeded L);
                last_ := last_ L |}
    end
  else mret L.

(** Lines 140-156 (kernel) and 158-174 (gadget): the two blocks differ only in
    the name taken from the model and in the format of the error. *)
Definition seedNamed (format name : string) (seeding : gmap string SeedSnap) (L : Locals)
  : GoM Locals :=
  if decide (name ≠ "") then
    match seeding !! name with
    | None => fail (Errorf format [AStr name])
    | Some namedSeed =>
        ts ← installSeedSnap namedSeed skipConfigureFlags;
        prev ← index (tsAll L) (last_ L);
        _ ← TaskSet_WaitAll ts prev;
        configTs ← ConfigureSnap name UseConfigDefaults;
        configPrev ← index (configTss L) (last_ L);
        _ ← TaskSet_WaitAll configTs configPrev;
        mret {| tsAll := tsAll L ++ [ts];
                configTss := configTss L ++ [configTs];
                alreadySeeded := <[name := true]> (alreadySeeded L);
                last_ := last_ L + 1 |}
    end
  else mret L.

Definition seedKernel (model : Model) :=
  seedNamed "cannot find seed information for kernel snap %q" (Kernel model).

Definition seedGadget (model : Model) :=
  seedNamed "cannot find seed information for gadget snap %q" (Gadget model).

(** Lines 176-180: the configure chain is chained after the installs. *)
Definition spliceConfigure (L : Locals) : GoM Locals :=
  config0 ← index (configTss L) 0;
  prev ← index (tsAll L) (last_ L);
  _ ← TaskSet_WaitAll config0 prev;
  mret {| tsAll := tsAll L ++ configTss L;
          configTss := configTss L;
          alreadySeeded := alreadySeeded L;
          last_ := last_ L + length (configTss L) |}.

Definition requiredFlags (required : gmap string bool) (sn : SeedSnap) : Flags :=
  if mapGet required (sn_Name sn)
  then {| fl_Classic := false; fl_DevMode := false; fl_Required := true; fl_SkipConfigure := false |}
  else zeroFlags.

(** Lines 182-200: the remaining entries, in manifest order. *)
Fixpoint seedRest (required : gmap string bool) (snaps : list SeedSnap) (L : Locals)
  : GoM Locals :=
  match snaps with
  | [] => mret L
  | sn :: rest =>
      if mapGet (alreadySeeded L) (sn_Name sn) then seedRest required rest L
      else
        ts ← installSeedSnap sn (requiredFlags required sn);
        prev ← index (tsAll L) (last_ L);
        _ ← TaskSet_WaitAll ts prev;
        seedRest required rest
          {| tsAll := tsAll L ++ [ts];
             configTss := configTss L;
             alreadySeeded := alreadySeeded L;
             last_ := last_ L + 1 |}
  end.

(** Lines 202-210: the mark-seeded task closes the chain. *)
Definition finishSeeding (markSeeded : nat) (L : Locals) : GoM (list TaskSet) :=
  if decide (length (tsAll L) = 0) then
    fail (Errorf "cannot proceed, no snaps to seed" [])
  else
    ts ← index (tsAll L) (length (tsAll L) - 1);
    _ ← Task_WaitAll markSeeded ts;
    markTs ← NewTaskSet markSeeded;
    mret (tsAll L ++ [markTs]).

(** Lines 115-180: core, kernel and gadget, then their configure chain. *)
Definition seedFoundation (model : Model) (snaps : list SeedSnap) : GoM Locals :=
  let seeding := seedingOf snaps in
  L ← seedCore snaps seeding initLocals;
  L ← seedKernel model seeding L;
  L ← seedGadget model seeding L;
  spliceConfigure L.

(** Lines 106-210: what follows the reading of the manifest. *)
Definition orderSeed (markSeeded : nat) (model : Model) (snaps : list SeedSnap)
  : GoM (list TaskSet) :=
  let required := requiredOf (RequiredSnaps model) in
  L ← seedFoundation model snaps;
  L ← seedRest required snaps L;
  finishSeeding markSeeded L.

Definition seedYamlFile : path := [SnapSeedDir env; "seed.yaml"].

(** [osutil.FileExists(seedYamlFile)] *)
Definition FileExists_seedYaml : GoM bool :=
  _ ← call (CallFileExists seedYamlFile);
  mret (seed_yaml_exists env).

(** [snap.ReadSeedYaml(seedYamlFile)] *)
Definition ReadSeedYaml : GoM (list SeedSnap) :=
  _ ← call (CallReadSeedYaml seedYamlFile);
  match seed_yaml env with
  | inl msg => fail (External msg)
  | inr snaps => mret snaps
  end.

(** Lines 95-99: [release.OnClassic && !osutil.FileExists(seedYamlFile)]. *)
Definition noSeedYamlOnClassic : GoM bool :=
  if OnClassic env then exists_ ← FileExists_seedYaml; mret (negb exists_)
  else mret false.

(** [err != nil && err != state.ErrNoState]: the error to return, if any. *)
Definition fatalGetError (err : option error) : option error :=
  match err with
  | Some ErrNoState => None
  | other => other
  end.

(** Lines 84-210: what follows the idempotency guard. *)
Definition populateUnseeded : GoM (list TaskSet) :=
  markSeeded ← NewTask "mark-seeded" KMarkSeeded;
  imported ← try importAssertionsFromSeed;
  match imported with
  | inr errNothingToDo =>
      markTs ← NewTaskSet markSeeded;
      mret [markTs]
  | inr err => fail err
  | inl model =>
      skip ← noSeedYamlOnClassic;
      if (skip : bool) then
        markTs ← NewTaskSet markSeeded;
        mret [markTs]
      else
        snaps ← ReadSeedYaml;
        orderSeed markSeeded model snaps
  end.

Definition populateStateFromSeedImpl : GoM (list TaskSet) :=
  '(seeded, err) ← state_Get "seeded" st_seeded false;
  match fatalGetError err with
  | Some err => fail err
  | None =>
      if (seeded : bool) then fail (Errorf "cannot populate state: already seeded" [])
      else populateUnseeded
  end.

End WithEnv.

(** ** Vocabulary of the statements *)

Definition alreadySeededError : error :=
  Errorf "cannot populate state: already seeded" [].

Definition markTask : Task := {| t_kind := KMarkSeeded; t_waits := [] |}.

(** The state once the guard has passed and the mark-seeded task is allocated
    (line 84), where the importer starts. *)
Definition afterGuard (s : State) : State :=
  set_tasks (st_tasks s ++ [markTask])
            (logged [CallNewTask "mark-seeded"] (logged [CallStateGet "seeded"] s)).

(** The manifest is there to be read (on classic it has to exist) and holds
    [snaps]. *)
Definition readsManifest (env : Env) (snaps : list SeedSnap) : Prop :=
  (OnClassic env = false ∨ seed_yaml_exists env = true) ∧ seed_yaml env = inr snaps.

(** The state in which the ordering algorithm starts, [s2] being the state the
    importer has left. *)
Definition atOrdering (env : Env) (s2 : State) : State :=
  logged [CallReadSeedYaml (seedYamlFile env)]
         (if OnClassic env then logged [CallFileExists (seedYamlFile env)] s2 else s2).

(** The two build-mode mismatch messages. *)
Definition mismatchError (classicModel : bool) : error :=
  Errorf (if classicModel
          then "cannot seed an all-snaps system with a classic model"
          else "cannot seed a classic system with an all-snaps model") [].

(** The persisted flag does not read as true. *)
Definition notSeeded (s : State) : Prop :=
  st_seeded s = NoEntry ∨ st_seeded s = Entry false.

(** A call that builds a graph fragment (a task set). *)
Definition fragmentCall (c : Call) : bool :=
  match c with
  | CallInstallPath _ _ _ _ | CallConfigureSnap _ _ | CallNewTaskSet _ => true
  | _ => false
  end.

(** A call that only reads: the device record, the directory, a file. *)
Definition readCall (c : Call) : bool :=
  match c with
  | CallAuthDevice | CallReadDir _ | CallReadAsserts _ => true
  | _ => false
  end.

(** All that changed from the first state to the second is that calls were
    logged, every one a read. *)
Definition onlyReads : relation State := λ s s',
  ∃ cs, s' = logged cs s ∧ Forall (λ c, readCall c = true) cs.

(** The tasks, the device record and the trust store are the same. *)
Definition sameTasks : relation State := λ s s', st_tasks s' = st_tasks s.

(** The task [tk] once it waits for the tasks of [ts] too. *)
Definition waitOn (ts : TaskSet) (tk : Task) : Task :=
  {| t_kind := t_kind tk; t_waits := t_waits tk ++ ts |}.

Definition installTask (si : SideInfo) (env : Env) (sn : SeedSnap) (flags : Flags)
    (waits : list nat) : Task :=
  {| t_kind := KInstall si (seedPath env sn) (sn_Channel sn) (seedFlags sn flags);
     t_waits := waits |}.

Definition configureTask (name : string) (waits : list nat) : Task :=
  {| t_kind := KConfigure name UseConfigDefaults; t_waits := waits |}.

(** The install of the entry [sn] with the flags [flags] goes through: its
    provenance is found and [snapstate.InstallPath] accepts it. *)
Definition installable (env : Env) (sn : SeedSnap) (flags : Flags) : Prop :=
  ∀ s, ∃ s' ts, installSeedSnap env sn flags s = (s', Ok ts).

(** The manifest has an entry of that name. *)
Definition listed (snaps : list SeedSnap) (name : string) : Prop :=
  ∃ sn, sn ∈ snaps ∧ sn_Name sn = name.

(** The kinds of the tasks of a state, and the relation "the second state has
    the tasks of the first, maybe waiting for more, followed by new tasks
    whose kinds all satisfy [P]". *)
Definition kinds (s : State) : list TaskKind := t_kind <$> st_tasks s.

Definition allocates (P : TaskKind → Prop) : relation State := λ s s',
  ∃ new, kinds s' = kinds s ++ new ∧ Forall P new.

(** What the importer sees: the references of one file of the trust directory,
    those of the whole listing, and the ones of model kind among them. *)
Definition readable (env : Env) (fi : string) : Prop :=
  ∃ refs, assert_file env (assertSeedDir env ++ [fi]) = inr refs.

Definition fileRefs (env : Env) (fi : string) : list Ref :=
  match assert_file env (assertSeedDir env ++ [fi]) with
  | inr refs => refs
  | inl _ => []
  end.

Definition seenRefs (env : Env) (dc : list string) : list Ref :=
  concat (map (fileRefs env) dc).

Definition modelRefs (refs : list Ref) : list Ref :=
  filter (λ r, Type_ r = ModelType) refs.

Definition multipleModelsError : error :=
  Errorf "cannot add more than one model assertion" [].

Definition missingModelError : error := Errorf "need a model assertion" [].

(** What [auth.Device] reads from a state. *)
Definition deviceOf (s : State) : DeviceState :=
  match st_device s with
  | Entry d => d
  | _ => emptyDevice
  end.

Definition deviceReadable (s : State) : Prop := ∀ msg, st_device s ≠ Unreadable msg.

(** [m] relates the state it starts in to the one it ends in by [R], whatever
    its outcome. *)
Definition preserves {A} (R : relation State) (m : GoM A) : Prop :=
  ∀ s s' r, m s = (s', r) → R s s'.

(** The persisted Seeded flag is the same in both states. *)
Definition sameSeeded : relation State := λ s s', st_seeded s' = st_seeded s.

(** Why the foundation can fail: an entry that the model or the compiler asks
    for is not listed, or a foundational install is refused. *)
Definition foundationFailure (env : Env) (model : Model) (snaps : list SeedSnap)
    (e : error) : Prop :=
  ¬ listed snaps "core" ∨
  ¬ listed snaps (Kernel model) ∨
  (Gadget model ≠ "" ∧ ¬ listed snaps (Gadget model)) ∨
  (∃ sn s0 s1, sn ∈ snaps ∧ installSeedSnap env sn skipConfigureFlags s0 = (s1, Err e)).

(** Why the trailing loop can fail: the install of one of the entries is
    refused. *)
Definition trailingFailure (env : Env) (model : Model) (snaps : list SeedSnap)
    (e : error) : Prop :=
  ∃ sn s0 s1, sn ∈ snaps ∧
    installSeedSnap env sn (requiredFlags (requiredOf (RequiredSnaps model)) sn) s0
    = (s1, Err e).

(** The install tasks that the foundation may allocate: those of listed
    entries, suppressing auto-configuration, not marked required, and classic
    or devmode exactly when the entry says so. *)
Definition foundationKind (env : Env) (snaps : list SeedSnap) (k : TaskKind) : Prop :=
  match k with
  | KInstall si p channel f =>
      ∃ sn, sn ∈ snaps ∧ p = seedPath env sn ∧ channel = sn_Channel sn ∧
            fl_Required f = false ∧ fl_SkipConfigure f = true ∧
            fl_Classic f = sn_Classic sn ∧ fl_DevMode f = sn_DevMode sn
  | KConfigure _ _ => True
  | KMarkSeeded => False
  end.

(** The tasks that the trailing loop may allocate: installs of listed entries
    that the foundation has not seeded, marked required exactly when the model
    requires their name, not suppressing auto-configuration. *)
Definition trailingKind (env : Env) (required already : gmap string bool)
    (snaps : list SeedSnap) (k : TaskKind) : Prop :=
  match k with
  | KInstall si p channel f =>
      ∃ sn, sn ∈ snaps ∧ mapGet already (sn_Name sn) = false ∧
            p = seedPath env sn ∧ channel = sn_Channel sn ∧
            fl_Required f = mapGet required (sn_Name sn) ∧ fl_SkipConfigure f = false ∧
            fl_Classic f = sn_Classic sn ∧ fl_DevMode f = sn_DevMode sn
  | KConfigure _ _ => False
  | KMarkSeeded => False
  end.

(** The fragments holding one task each, in the order of [ids]. *)
Definition singles (ids : list nat) : list TaskSet := (λ i, [i]) <$> ids.

(** In [tasks], the tasks [ids] form a chain that hangs on [prev]: the first
    waits for exactly [prev], and each next one for exactly the one before. *)
Fixpoint chainFrom (tasks : list Task) (prev : list nat) (ids : list nat) : Prop :=
  match ids with
  | [] => True
  | i :: rest =>
      (∃ tk, tasks !! i = Some tk ∧ t_waits tk = prev) ∧ chainFrom tasks [i] rest
  end.

(** What the next link of a chain hangs on. *)
Definition chainEnd (prev : list nat) (ids : list nat) : list nat :=
  match last ids with
  | Some i => [i]
  | None => prev
  end.

(** The invariant of lines 124-174, once core is queued: the installs and the
    configures are two chains of fresh tasks, as long as each other, that
    start with the core install and the core configure; [last] points at the
    last install. *)
Definition foundationInv (env : Env) (base tasks : list Task) (L : Locals)
    (coreSeed : SeedSnap) (siC : SideInfo) : Prop :=
  ∃ iids cids new,
    tasks = base ++ new ∧ length new = length iids + length cids ∧
    tsAll L = singles iids ∧ configTss L = singles cids ∧
    last_ L + 1 = length iids ∧ length cids = length iids ∧
    chainFrom tasks [] iids ∧ chainFrom tasks [] cids ∧
    NoDup (iids ++ cids) ∧
    (∀ i, i ∈ iids ++ cids → length base ≤ i < length tasks) ∧
    head iids = Some (length base) ∧ head cids = Some (length base + 1) ∧
    t_kind <$> new !! 0
      = Some (t_kind (installTask siC env coreSeed skipConfigureFlags [])) ∧
    t_kind <$> new !! 1 = Some (KConfigure "core" UseConfigDefaults).

(** The device record and the trust store are the same in both states. *)
Definition sameTrust : relation State := λ s s',
  st_device s' = st_device s ∧ st_db s' = st_db s.

(** The read of one file of the trust directory, as logged. *)
Definition readOf (env : Env) (fi : string) : Call :=
  CallReadAsserts (assertSeedDir env ++ [fi]).

(** The side information [installSeedSnap] hands to [snapstate.InstallPath]
    for an unasserted entry: the name alone. *)
Definition unassertedSideInfo (sn : SeedSnap) : SideInfo :=
  {| RealName := sn_Name sn; SnapID := SnapID zeroSideInfo;
     Private := Private zeroSideInfo; Contact := Contact zeroSideInfo |}.

(** And for an entry whose signatures yield [si]: the derived name and id,
    with the privacy and contact of the entry. *)
Definition assertedSideInfo (sn : SeedSnap) (si : SideInfo) : SideInfo :=
  {| RealName := RealName si; SnapID := SnapID si;
     Private := sn_Private sn; Contact := sn_Contact sn |}.

(** The device record [importAssertionsFromSeed] writes for [model] over the
    record [device]: brand and model replaced, the serial kept. *)
Definition deviceFor (model : Model) (device : DeviceState) : DeviceState :=
  {| Brand := BrandID model; DModel := ModelName model; Serial := Serial device |}.

(** The names the foundation seeds, in order: core, then the kernel and the
    gadget where the model names them. *)
Definition optName (name : string) : list string :=
  if decide (name ≠ "") then [name] else [].

Definition foundationNames (model : Model) : list string :=
  "core" :: optName (Kernel model) ++ optName (Gadget model).

(** The entries left to the trailing loop. *)
Definition trailing (model : Model) (snaps : list SeedSnap) : list SeedSnap :=
  filter (λ sn, sn_Name sn ∉ foundationNames model) snaps.

(** The ids of [k] pairs of tasks allocated from [n] on: the first of each
    pair (the install) and the second (the configure). *)
Definition installIds (n k : nat) : list nat := (λ i, n + 2 * i) <$> seq 0 k.
Definition configureIds (n k : nat) : list nat := (λ i, n + 2 * i + 1) <$> seq 0 k.

(** [k] is the kind of the install of [sn] with the flags [flags], for some
    side information. *)
Definition installOf (env : Env) (sn : SeedSnap) (flags : Flags) (k : option TaskKind) : Prop :=
  ∃ si, k = Some (KInstall si (seedPath env sn) (sn_Channel sn) (seedFlags sn flags)).

(** The foundation once [names] have been seeded on top of the tasks [base]:
    an install and a configure per name, allocated in pairs, their fragments
    in [tsAll] and [configTss], their names in [alreadySeeded]. *)
Definition seededAs (env : Env) (snaps : list SeedSnap) (base tasks : list Task)
    (L : Locals) (names : list string) : Prop :=
  let n := length base in
  let f := length names in
  ∃ new,
    tasks = base ++ new ∧ length new = 2 * f ∧
    tsAll L = singles (installIds n f) ∧ configTss L = singles (configureIds n f) ∧
    last_ L + 1 = f ∧
    (∀ k, mapGet (alreadySeeded L) k = true ↔ k ∈ names) ∧
    (∀ i name, names !! i = Some name →
       ∃ seed, seedingOf snaps !! name = Some seed ∧
         installOf env seed skipConfigureFlags (t_kind <$> new !! (2 * i)) ∧
         t_kind <$> new !! (2 * i + 1) = Some (KConfigure name UseConfigDefaults)).

(** The error of line 203. *)
Definition noSnapsError : error := Errorf "cannot proceed, no snaps to seed" [].

(** Every error that [m] returns satisfies [P]. *)
Definition fails {A} (P : error → Prop) (m : GoM A) : Prop :=
  ∀ s s' e, m s = (s', Err e) → P e.

(** ** Sample seeds *)

Module Examples.

Definition mkSnap (name : string) : SeedSnap :=
  {| sn_Name := name; sn_File := name; sn_Channel := "stable";
     sn_Classic := false; sn_DevMode := false; sn_Unasserted := true;
     sn_Private := false; sn_Contact := "" |}.

Definition modelRef : Ref := {| Type_ := ModelType; Unique := "model/16/canonical/pc" |}.
Definition otherModelRef : Ref := {| Type_ := ModelType; Unique := "model/16/canonical/pi" |}.
Definition accountRef : Ref := {| Type_ := OtherType "account"; Unique := "account/canonical" |}.

(** A model of an all-snaps device, as in the example of the specification. *)
Definition pcModel : Model :=
  {| BrandID := "canonical"; ModelName := "pc"; Classic := false;
     Kernel := "pc-kernel"; Gadget := "pc"; RequiredSnaps := ["hello-world"] |}.

(** A model that names neither kernel nor gadget nor required snaps. *)
Definition bareModel (classic : bool) : Model :=
  {| BrandID := "canonical"; ModelName := "generic"; Classic := classic;
     Kernel := ""; Gadget := ""; RequiredSnaps := [] |}.

(** A seed whose trust directory holds the files [files], all of which resolve
    to [model], and whose manifest lists [snaps]. *)
Definition seedEnv (onClassic : bool) (files : list (string * list Ref))
    (model : Model) (snaps : list SeedSnap) : Env :=
  {| OnClassic := onClassic;
     SnapSeedDir := "/var/lib/snapd/seed";
     assertions_dir := DirEntries (files.*1);
     assert_file := λ fn,
       match last fn with
       | Some fi => match list_to_map (M := gmap string (list Ref)) files !! fi with
                    | Some refs => inr refs
                    | None => inl "no such file"
                    end
       | None => inl "no such file"
       end;
     commit_error := λ _, None;
     db_find := λ _ _, inr model;
     set_device_error := None;
     seed_yaml_exists := true;
     seed_yaml := inr snaps;
     derive_side_info := λ _, DeriveNotFound;
     install_path_error := λ _ _ _ _, None |}.

Definition pcEnv : Env :=
  seedEnv false [("model", [accountRef; modelRef])] pcModel
          [mkSnap "core"; mkSnap "pc-kernel"; mkSnap "pc"; mkSnap "hello-world"].

(** A seed whose core entry asks for devmode. *)
Definition devmodeCore : SeedSnap :=
  {| sn_Name := "core"; sn_File := "core_1.snap"; sn_Channel := "edge";
     sn_Classic := false; sn_DevMode := true; sn_Unasserted := true;
     sn_Private := false; sn_Contact := "" |}.

Definition devmodeCoreEnv : Env :=
  seedEnv false [("model", [modelRef])] (bareModel false) [devmodeCore].

(** A classic system with no seed at all. *)
Definition unseededClassicEnv : Env :=
  {| OnClassic := true;
     SnapSeedDir := "/var/lib/snapd/seed";
     assertions_dir := DirError true "no such file or directory";
     assert_file := λ _, inl "no such file or directory";
     commit_error := λ _, None;
     db_find := λ _ _, inl "not found";
     set_device_error := None;
     seed_yaml_exists := false;
     seed_yaml := inl "cannot read seed yaml";
     derive_side_info := λ _, DeriveNotFound;
     install_path_error := λ _ _ _ _, None |}.

Definition freshState : State :=
  {| st_seeded := NoEntry; st_device := NoEntry; st_db := []; st_tasks := []; st_calls := [] |}.

Definition seededState : State :=
  {| st_seeded := Entry true;
     st_device := Entry {| Brand := "canonical"; DModel := "pc"; Serial := "1234" |};
     st_db := [modelRef]; st_tasks := []; st_calls := [] |}.

End Examples.

(** ** Seeds that fail *)

Module Faults.

(** The environment [env] with another listing of the trust directory. *)
Definition withListing (env : Env) (dc : list string) : Env :=
  {| OnClassic := OnClassic env; SnapSeedDir := SnapSeedDir env;
     assertions_dir := DirEntries dc; assert_file := assert_file env;
     commit_error := commit_error env; db_find := db_find env;
     set_device_error := set_device_error env;
     seed_yaml_exists := seed_yaml_exists env; seed_yaml := seed_yaml env;
     derive_side_info := derive_side_info env;
     install_path_error := install_path_error env |}.

(** A trust directory whose second file cannot be read. *)
Definition brokenFileEnv : Env :=
  withListing Examples.pcEnv ["model"; "broken"; "later"].

(** A classic system seeded with the model of an all-snaps device. *)
Definition mismatchEnv : Env :=
  Examples.seedEnv true [("model", [Examples.accountRef; Examples.modelRef])]
                   Examples.pcModel [].

(** An all-snaps seed whose manifest does not list core. *)
Definition noCoreEnv : Env :=
  Examples.seedEnv false [("model", [Examples.modelRef])] Examples.pcModel
                   [Examples.mkSnap "hello-world"].

(** A seed whose core entry is asserted, with signatures that are found. *)
Definition assertedCore : SeedSnap :=
  {| sn_Name := "core"; sn_File := "core_1.snap"; sn_Channel := "stable";
     sn_Classic := false; sn_DevMode := false; sn_Unasserted := false;
     sn_Private := true; sn_Contact := "mailto:someone@example.com" |}.

End Faults.

(** * The snap context cookie

    A shallow embedding of [cmd/snap-confine/context-support.c]:
    [sc_context_get_from_snapd] and [sc_maybe_set_context_environment].

    C strings and buffers are lists of bytes.  What the kernel and the C
    library answer ([open], [calloc], [read], [setenv]) is read from a
    [World].  [sc_must_snprintf], [sc_error_init], [sc_error_forward] and
    [die] belong to libsnap-confine-private: the model keeps the error that is
    handed to [sc_error_forward] as part of the result, and an outcome of its
    own for the runs in which the process ends instead of returning. *)

Module ContextSupport.

Definition SC_CONTEXT_DIR : string := "/var/lib/snapd/context".

(** Effective value of CONTEXT_DIR. *)
Definition sc_context_dir : string := SC_CONTEXT_DIR.

(** [sizeof(sc_context_cookie)], from [typedef char sc_context_cookie[45]]. *)
Definition sizeof_sc_context_cookie : nat := 45.

Inductive sc_error_domain := SC_ERRNO_DOMAIN.

(** The error object [sc_error_init] builds: the domain, the code, and the
    message as its format and arguments. *)
Record sc_error := {
  err_domain : sc_error_domain;
  err_code : Z;
  err_format : string;
  err_args : list string;
}.

Definition sc_error_init (domain : sc_error_domain) (code : Z) (format : string)
    (args : list string) : sc_error :=
  {| err_domain := domain; err_code := code; err_format := format; err_args := args |}.

Record World := {
  (** whether [sc_must_snprintf] can fit the path into [PATH_MAX] bytes and
      returns *)
  path_fits : string → bool;
  (** whether [open(path, O_RDONLY | O_NOFOLLOW | O_CLOEXEC)] yields a
      descriptor *)
  open_ok : string → bool;
  (** whether [calloc] yields memory *)
  calloc_ok : bool;
  (** [read(fd, buf, count)] on the file at the path: the bytes it transfers,
      or [None] when it returns -1 *)
  sys_read : string → nat → option (list Byte.byte);
  (** whether [setenv] succeeds *)
  setenv_ok : bool;
}.

Inductive Outcome :=
  | DiedFormatting
  | Died (msg : string)
  | Returned (context_val : option (list Byte.byte)) (err : option sc_error).

(** [calloc(1, n)]: [n] zero bytes. *)
Definition calloc (n : nat) : list Byte.byte := replicate n Byte.x00.

(** The buffer [buf] after [read] has transferred [data] to its start; [read]
    never transfers more than [count] bytes. *)
Definition read_into (buf : list Byte.byte) (count : nat) (data : list Byte.byte) : list Byte.byte :=
  let got := take count data in
  got ++ drop (length got) buf.

(** The C string a buffer holds: the bytes before the first NUL. *)
Fixpoint cstring (buf : list Byte.byte) : list Byte.byte :=
  match buf with
  | [] => []
  | b :: rest => if Byte.eqb b Byte.x00 then [] else b :: cstring rest
  end.

Definition context_path (snap_name : string) : string :=
  String.append sc_context_dir (String.append "/snap." snap_name).

Definition sc_context_get_from_snapd (w : World) (snap_name : string) : Outcome :=
  let context_path := context_path snap_name in
  if negb (path_fits w context_path) then DiedFormatting
  else if negb (open_ok w context_path) then
    Returned None
      (Some (sc_error_init SC_ERRNO_DOMAIN 0
               "cannot open context file %s, SNAP_CONTEXT will not be set"
               [context_path]))
  else if negb (calloc_ok w) then Died "failed to allocate memory for snap context"
  else
    let context_val := calloc sizeof_sc_context_cookie in
    match sys_read w context_path (sizeof_sc_context_cookie - 1) with
    | None =>
        Returned None
          (Some (sc_error_init SC_ERRNO_DOMAIN 0 "failed to read context file %s"
                   [context_path]))
    | Some data =>
        Returned (Some (read_into context_val (sizeof_sc_context_cookie - 1) data)) None
    end.

(** [setenv(name, value, 1)] on the environment of the process. *)
Definition setenv (w : World) (name : string) (value : list Byte.byte)
    (environ : gmap string (list Byte.byte)) : gmap string (list Byte.byte) :=
  if setenv_ok w then <[name := cstring value]> environ else environ.

Definition sc_maybe_set_context_environment (w : World) (context : option (list Byte.byte))
    (environ : gmap string (list Byte.byte)) : gmap string (list Byte.byte) :=
  match context with
  | Some context => setenv w "SNAP_CONTEXT" context environ
  | None => environ
  end.

(** A world in which the cookie file of every snap holds [data]. *)
Definition cookieWorld (data : list Byte.byte) : World :=
  {| path_fits := λ _, true; open_ok := λ _, true; calloc_ok := true;
     sys_read := λ _ count, Some (take count data); setenv_ok := true |}.

End ContextSupport.


(** ** Reasoning about [GoM] *)

Lemma bind_run {A B} (m : GoM A) (f : A → GoM B) s :
  (m ≫= f) s =
  match m s with
  | (s', Ok a) => f a s'
  | (s', Err e) => (s', Err e)
  | (s', Panic p) => (s', Panic p)
  end.
Proof. reflexivity. Qed.

Lemma logged_logged cs1 cs2 s : logged cs2 (logged cs1 s) = logged (cs1 ++ cs2) s.
Proof. unfold logged; simpl. by rewrite <- app_assoc. Qed.

Section Preserves.

Context (R : relation State) `{!PreOrder R}.

Lemma preserves_ret {A} (a : A) : preserves R (mret a : GoM A).
Proof. intros s s' r [= <- <-]. reflexivity. Qed.

Lemma preserves_fail {A} e : preserves R (fail e : GoM A).
Proof. intros s s' r [= <- <-]. reflexivity. Qed.

Lemma preserves_throw {A} p : preserves R (throw p : GoM A).
Proof. intros s s' r [= <- <-]. reflexivity. Qed.

Lemma preserves_get_state : preserves R get_state.
Proof. intros s s' r [= <- <-]. reflexivity. Qed.

Lemma preserves_bind {A B} (m : GoM A) (f : A → GoM B) :
  preserves R m → (∀ a, preserves R (f a)) → preserves R (m ≫= f).
Proof.
  intros Hm Hf s s' r. rewrite bind_run.
  destruct (m s) as [s1 [a|e|p]] eqn:E; intros H.
  - transitivity s1; [by eapply Hm | by eapply Hf].
  - injection H as <- <-. by eapply Hm.
  - injection H as <- <-. by eapply Hm.
Qed.

Lemma preserves_wrap_error {A} f (m : GoM A) : preserves R m → preserves R (wrap_error f m).
Proof.
  intros Hm s s' r. unfold wrap_error.
  destruct (m s) as [s1 [a|e|p]] eqn:E; intros [= <- <-]; by eapply Hm.
Qed.

Lemma preserves_try {A} (m : GoM A) : preserves R m → preserves R (try m).
Proof.
  intros Hm s s' r. unfold try.
  destruct (m s) as [s1 [a|e|p]] eqn:E; intros [= <- <-]; by eapply Hm.
Qed.

Lemma preserves_index {A} (l : list A) i : preserves R (index l i).
Proof. unfold index. destruct (l !! i); [apply preserves_ret | apply preserves_throw]. Qed.

End Preserves.

Create HintDb frames.

Ltac go_simpl :=
  cbv [mbind GoM_bind mret GoM_ret get_state call fail throw try wrap_error index alloc
       state_Get NewTask NewTaskSet auth_Device];
  cbn [fst snd st_seeded st_device st_db st_tasks st_calls logged set_tasks set_db set_device].

Ltac pres_step :=
  match goal with
  | |- preserves _ (mret _) => apply preserves_ret; typeclasses eauto
  | |- preserves _ (fail _) => apply preserves_fail; typeclasses eauto
  | |- preserves _ (throw _) => apply preserves_throw; typeclasses eauto
  | |- preserves _ get_state => apply preserves_get_state; typeclasses eauto
  | |- preserves _ (index _ _) => apply preserves_index; typeclasses eauto
  | |- preserves _ (wrap_error _ _) => apply preserves_wrap_error
  | |- preserves _ (try _) => apply preserves_try
  | |- preserves _ (_ ≫= _) => apply preserves_bind; [typeclasses eauto | | intros ?]
  | |- preserves _ (match ?x with _ => _ end) => destruct x
  | |- preserves _ (λ s, (_, Ok _)) => intros ? ? ? [= <- <-]
  end.

Ltac pres := repeat (first [ assumption | pres_step ]).

(** *** Frame properties: what each function leaves alone *)

Section FramesCollect.

Context (env : Env) (R : relation State) `{!PreOrder R}.
Hypothesis R_read : ∀ c s, readCall c = true → R s (logged [c] s).

Lemma read_call_preserves c : readCall c = true → preserves R (call c).
Proof. intros Hc s s' r [= <- <-]. by apply R_read. Qed.

Lemma auth_Device_preserves : preserves R auth_Device.
Proof. unfold auth_Device. pres. by apply read_call_preserves. Qed.

Lemma readAsserts_preserves fn batch : preserves R (readAsserts env fn batch).
Proof. unfold readAsserts. pres. by apply read_call_preserves. Qed.

Lemma scanRefs_preserves refs modelRef : preserves R (scanRefs refs modelRef).
Proof. revert modelRef. induction refs as [|ref rest IH]; intros modelRef; simpl; pres; apply IH. Qed.

Lemma scanFiles_preserves dc modelRef batch : preserves R (scanFiles env dc modelRef batch).
Proof.
  revert modelRef batch. induction dc as [|fi rest IH]; intros modelRef batch; simpl; pres.
  - apply readAsserts_preserves.
  - apply scanRefs_preserves.
  - apply IH.
Qed.

Lemma collectAssertions_preserves : preserves R (collectAssertions env).
Proof.
  unfold collectAssertions. pres.
  - apply auth_Device_preserves.
  - by apply read_call_preserves.
  - apply scanFiles_preserves.
Qed.

End FramesCollect.

Section Frames.

Context (env : Env) (R : relation State) `{!PreOrder R}.
Hypothesis R_logged : ∀ cs s, R s (logged cs s).
Hypothesis R_db : ∀ db s, R s (set_db db s).
Hypothesis R_device : ∀ d s, R s (set_device d s).

Lemma call_preserves c : preserves R (call c).
Proof. intros s s' r [= <- <-]. apply R_logged. Qed.

Lemma state_Get_preserves {A} key (entry : State → Stored A) zero :
  preserves R (state_Get key entry zero).
Proof. unfold state_Get. pres. apply call_preserves. Qed.

Lemma auth_SetDevice_preserves d : preserves R (auth_SetDevice env d).
Proof. unfold auth_SetDevice. pres; [apply call_preserves | apply R_device]. Qed.

Lemma batch_Commit_preserves batch : preserves R (batch_Commit env batch).
Proof. unfold batch_Commit. pres; [apply call_preserves | apply R_db]. Qed.

Lemma commitModel_preserves device modelRef batch :
  preserves R (commitModel env device modelRef batch).
Proof.
  unfold commitModel. pres.
  - apply batch_Commit_preserves.
  - apply call_preserves.
  - apply auth_SetDevice_preserves.
Qed.

Lemma importAssertionsFromSeed_preserves : preserves R (importAssertionsFromSeed env).
Proof.
  unfold importAssertionsFromSeed. pres.
  - apply collectAssertions_preserves; [done | auto].
  - apply commitModel_preserves.
Qed.

End Frames.

Section FramesOrdering.

Context (env : Env) (R : relation State) `{!PreOrder R}.
Hypothesis R_logged : ∀ cs s, R s (logged cs s).
Hypothesis R_db : ∀ db s, R s (set_db db s).
Hypothesis R_device : ∀ d s, R s (set_device d s).
Hypothesis R_tasks : ∀ ts s, R s (set_tasks ts s).

Local Hint Resolve call_preserves : frames.

Lemma alloc_preserves k : preserves R (alloc k).
Proof. intros s s' r [= <- <-]. apply R_tasks. Qed.

Lemma NewTask_preserves kind k : preserves R (NewTask kind k).
Proof. unfold NewTask. pres; auto using alloc_preserves with frames. Qed.

Lemma NewTaskSet_preserves t : preserves R (NewTaskSet t).
Proof. unfold NewTaskSet. pres; auto with frames. Qed.

Lemma Task_WaitFor_preserves t other : preserves R (Task_WaitFor t other).
Proof. intros s s' r [= <- <-]. apply R_tasks. Qed.

Lemma Task_WaitAll_preserves t ts : preserves R (Task_WaitAll t ts).
Proof. induction ts as [|o rest IH]; simpl; pres. apply Task_WaitFor_preserves. Qed.

Lemma TaskSet_WaitAll_preserves ts another : preserves R (TaskSet_WaitAll ts another).
Proof. induction ts as [|t rest IH]; simpl; pres. apply Task_WaitAll_preserves. Qed.

Lemma InstallPath_preserves si p channel flags : preserves R (InstallPath env si p channel flags).
Proof. unfold InstallPath. pres; auto using alloc_preserves with frames. Qed.

Lemma ConfigureSnap_preserves name flags : preserves R (ConfigureSnap name flags).
Proof. unfold ConfigureSnap. pres; auto using alloc_preserves with frames. Qed.

Lemma installSeedSnap_preserves sn flags : preserves R (installSeedSnap env sn flags).
Proof. unfold installSeedSnap. pres; auto using InstallPath_preserves with frames. Qed.

Local Hint Resolve installSeedSnap_preserves ConfigureSnap_preserves
  TaskSet_WaitAll_preserves Task_WaitAll_preserves NewTaskSet_preserves : frames.

Lemma seedCore_preserves snaps seeding L : preserves R (seedCore env snaps seeding L).
Proof. unfold seedCore. pres; auto with frames. Qed.

Lemma seedNamed_preserves format name seeding L :
  preserves R (seedNamed env format name seeding L).
Proof. unfold seedNamed. pres; auto with frames. Qed.

Lemma spliceConfigure_preserves L : preserves R (spliceConfigure L).
Proof. unfold spliceConfigure. pres; auto with frames. Qed.

Lemma seedRest_preserves required snaps L : preserves R (seedRest env required snaps L).
Proof.
  revert L. induction snaps as [|sn rest IH]; intros L; simpl; pres; auto with frames.
Qed.

Lemma finishSeeding_preserves markSeeded L : preserves R (finishSeeding markSeeded L).
Proof. unfold finishSeeding. pres; auto with frames. Qed.

Lemma orderSeed_preserves markSeeded model snaps :
  preserves R (orderSeed env markSeeded model snaps).
Proof.
  unfold orderSeed, seedFoundation, seedKernel, seedGadget.
  pres; auto using seedCore_preserves, seedNamed_preserves, spliceConfigure_preserves,
    seedRest_preserves, finishSeeding_preserves.
Qed.

Lemma populateUnseeded_preserves : preserves R (populateUnseeded env).
Proof.
  unfold populateUnseeded, noSeedYamlOnClassic, FileExists_seedYaml, ReadSeedYaml.
  pres; auto using NewTask_preserves, importAssertionsFromSeed_preserves,
    orderSeed_preserves with frames.
Qed.

Lemma populateStateFromSeedImpl_preserves : preserves R (populateStateFromSeedImpl env).
Proof.
  unfold populateStateFromSeedImpl.
  pres; auto using state_Get_preserves, populateUnseeded_preserves.
Qed.

End FramesOrdering.

#[global] Instance sameSeeded_preorder : PreOrder sameSeeded.
Proof. split; [by intros s | intros s1 s2 s3 H1 H2; unfold sameSeeded in *; congruence]. Qed.

#[global] Instance sameTasks_preorder : PreOrder sameTasks.
Proof. split; [by intros s | intros s1 s2 s3 H1 H2; unfold sameTasks in *; congruence]. Qed.

Lemma logged_nil s : logged [] s = s.
Proof. destruct s. unfold logged; simpl. by rewrite app_nil_r. Qed.

#[global] Instance onlyReads_preorder : PreOrder onlyReads.
Proof.
  split.
  - intros s. exists []. by rewrite logged_nil.
  - intros s1 s2 s3 (cs1 & -> & H1) (cs2 & -> & H2).
    exists (cs1 ++ cs2). rewrite logged_logged. split; [done | by apply Forall_app].
Qed.

Lemma onlyReads_call c s : readCall c = true → onlyReads s (logged [c] s).
Proof. intros Hc. exists [c]. split; [done | by constructor]. Qed.

(** *** The scan of the references *)

Lemma scanRefs_pure refs modelRef :
  ∃ r, (∀ s, scanRefs refs modelRef s = (s, r)) ∧
       (r = Err multipleModelsError ∨ ∃ modelRef', r = Ok modelRef').
Proof.
  revert modelRef. induction refs as [|ref rest IH]; intros modelRef; simpl.
  - eexists; split; [reflexivity | right; eauto].
  - destruct (decide (Type_ ref = ModelType)); [| apply IH].
    destruct modelRef as [m|]; [| apply IH].
    destruct (decide (Unique m ≠ Unique ref)); [| apply IH].
    eexists; split; [reflexivity | by left].
Qed.

Lemma scanRefs_app refs1 refs2 modelRef s :
  scanRefs (refs1 ++ refs2) modelRef s =
  (scanRefs refs1 modelRef ≫= scanRefs refs2) s.
Proof.
  revert modelRef. induction refs1 as [|ref rest IH]; intros modelRef; simpl; [done |].
  destruct (decide (Type_ ref = ModelType)); [| apply IH].
  destruct modelRef as [m|]; [| apply IH].
  destruct (decide (Unique m ≠ Unique ref)); [done | apply IH].
Qed.

Lemma modelRefs_cons_model ref rest :
  Type_ ref = ModelType → modelRefs (ref :: rest) = ref :: modelRefs rest.
Proof. intros H. unfold modelRefs. by rewrite filter_cons_True. Qed.

Lemma modelRefs_cons_other ref rest :
  Type_ ref ≠ ModelType → modelRefs (ref :: rest) = modelRefs rest.
Proof. intros H. unfold modelRefs. by rewrite filter_cons_False. Qed.

(** A reference that differs from the candidate is rejected. *)
Lemma scanRefs_conflict_candidate refs m s :
  (∃ r, r ∈ modelRefs refs ∧ Unique r ≠ Unique m) →
  scanRefs refs (Some m) s = (s, Err multipleModelsError).
Proof.
  revert m. induction refs as [|ref rest IH]; intros m (r & Hr & Hne); simpl.
  - by apply elem_of_nil in Hr.
  - destruct (decide (Type_ ref = ModelType)) as [Hm|Hm].
    + destruct (decide (Unique m ≠ Unique ref)) as [|Heq]; [done |].
      apply dec_stable in Heq.
      rewrite modelRefs_cons_model in Hr by done.
      apply elem_of_cons in Hr as [->|Hr]; [by rewrite Heq in Hne |].
      apply IH. exists r. split; [done | by rewrite <- Heq].
    + rewrite modelRefs_cons_other in Hr by done. apply IH; eauto.
Qed.

(** Two model references that differ are rejected, whichever comes first. *)
Lemma scanRefs_conflict refs s :
  (∃ r1 r2, r1 ∈ modelRefs refs ∧ r2 ∈ modelRefs refs ∧ Unique r1 ≠ Unique r2) →
  scanRefs refs None s = (s, Err multipleModelsError).
Proof.
  induction refs as [|ref rest IH]; intros (r1 & r2 & H1 & H2 & Hne); simpl.
  - by apply elem_of_nil in H1.
  - destruct (decide (Type_ ref = ModelType)) as [Hm|Hm].
    + rewrite modelRefs_cons_model in H1, H2 by done.
      apply scanRefs_conflict_candidate.
      destruct (decide (Unique r1 = Unique ref)) as [E1|E1].
      * exists r2. split; [| congruence].
        apply elem_of_cons in H2 as [->|H2]; [congruence | done].
      * exists r1. split; [| done].
        apply elem_of_cons in H1 as [->|H1]; [congruence | done].
    + rewrite modelRefs_cons_other in H1, H2 by done. apply IH; eauto.
Qed.

(** References that all carry the candidate's identity are accepted, and the
    candidate that comes out carries it too. *)
Lemma scanRefs_agree refs modelRef u s :
  (∀ m, modelRef = Some m → Unique m = u ∧ Type_ m = ModelType) →
  (∀ r, r ∈ modelRefs refs → Unique r = u) →
  ∃ modelRef',
    scanRefs refs modelRef s = (s, Ok modelRef') ∧
    (∀ m, modelRef' = Some m → Unique m = u ∧ Type_ m = ModelType) ∧
    (modelRef' = None ↔ modelRef = None ∧ modelRefs refs = []).
Proof.
  revert modelRef. induction refs as [|ref rest IH]; intros modelRef Hmr Hall; simpl.
  - exists modelRef. split; [done |]. split; [done |].
    split; [by intros -> | by intros [-> _]].
  - destruct (decide (Type_ ref = ModelType)) as [Hm|Hm].
    + rewrite modelRefs_cons_model in Hall by done.
      assert (Unique ref = u) as Hu by (apply Hall; left).
      destruct (IH (Some ref)) as (mr' & Hrun & Hid & Hnone).
      { intros m [= <-]. done. }
      { intros r Hr. apply Hall. by right. }
      assert (scanRefs rest (Some ref) s = (s, Ok mr') →
              ∃ modelRef', scanRefs rest (Some ref) s = (s, Ok modelRef') ∧
                (∀ m, modelRef' = Some m → Unique m = u ∧ Type_ m = ModelType) ∧
                (modelRef' = None ↔ modelRef = None ∧ modelRefs (ref :: rest) = [])) as Hfin.
      { intros _. exists mr'. split; [done |]. split; [done |].
        rewrite modelRefs_cons_model by done.
        split; [intros E; by apply Hnone in E as [? _] | by intros [_ ?]]. }
      destruct modelRef as [m|]; [| by apply Hfin].
      destruct (decide (Unique m ≠ Unique ref)) as [Hne|]; [| by apply Hfin].
      destruct (Hmr m eq_refl) as [Hmu _]. congruence.
    + rewrite modelRefs_cons_other in Hall |- * by done. by apply IH.
Qed.

(** *** The scan of the files *)

Lemma seenRefs_cons env fi rest refs :
  assert_file env (assertSeedDir env ++ [fi]) = inr refs →
  seenRefs env (fi :: rest) = refs ++ seenRefs env rest.
Proof. intros H. unfold seenRefs. cbn [map concat]. unfold fileRefs at 1. by rewrite H. Qed.

(** When every file can be read, the files are scanned as one stream. *)
Lemma scanFiles_readable env dc modelRef batch s :
  Forall (readable env) dc →
  ∃ s', onlyReads s s' ∧
    scanFiles env dc modelRef batch s =
    (s', match (scanRefs (seenRefs env dc) modelRef s).2 with
         | Ok modelRef' => Ok (modelRef', batch ++ seenRefs env dc)
         | Err e => Err e
         | Panic p => Panic p
         end).
Proof.
  intros Hdc. revert modelRef batch s.
  induction Hdc as [|fi rest [refs Hfi] _ IH]; intros modelRef batch s.
  - exists s. split; [reflexivity |]. simpl. unfold seenRefs; simpl. by rewrite app_nil_r.
  - rewrite (seenRefs_cons _ _ _ _ Hfi), scanRefs_app, bind_run.
    destruct (scanRefs_pure refs modelRef) as (r & Hr & Hcases).
    pose proof Hfi as Hfi'. unfold assertSeedDir in Hfi'. simpl in Hfi'.
    simpl scanFiles. unfold readAsserts. rewrite Hfi'. go_simpl. rewrite !Hr.
    destruct Hcases as [-> | [modelRef' ->]].
    + exists (logged [CallReadAsserts (assertSeedDir env ++ [fi])] s).
      split; [apply onlyReads_call; reflexivity | reflexivity].
    + destruct (IH modelRef' (batch ++ refs)
                  (logged [CallReadAsserts (assertSeedDir env ++ [fi])] s))
        as (s' & Hs' & Hrun).
      exists s'. split.
      { etransitivity; [| exact Hs']. apply onlyReads_call; reflexivity. }
      simpl in Hrun |- *. rewrite Hrun.
      destruct (scanRefs_pure (seenRefs env rest) modelRef') as (r' & Hr' & _).
      rewrite !Hr'. simpl. by rewrite <- app_assoc.
Qed.

Lemma scanFiles_no_panic env dc modelRef batch s s' p :
  scanFiles env dc modelRef batch s ≠ (s', Panic p).
Proof.
  revert modelRef batch s. induction dc as [|fi rest IH]; intros modelRef batch s; [done |].
  simpl. unfold readAsserts. go_simpl.
  destruct (assert_file env _) as [msg|refs]; [done |].
  destruct (scanRefs_pure refs modelRef) as (r & Hr & [-> | [modelRef' ->]]);
    rewrite Hr; [done | apply IH].
Qed.

(** *** The importer *)

Lemma collectAssertions_inv env s s' r :
  collectAssertions env s = (s', r) →
  onlyReads s s' ∧
  match r with
  | Ok (device, _, _) => device = deviceOf s ∧ deviceReadable s
  | Err _ => True
  | Panic _ => False
  end.
Proof.
  intros H. split.
  { eapply (collectAssertions_preserves env onlyReads); [| exact H].
    intros c s0 Hc. by apply onlyReads_call. }
  revert H. unfold collectAssertions, deviceOf, deviceReadable. go_simpl.
  destruct (st_device s) as [|d|msg] eqn:Hd; [| | by intros [= <- <-]].
  all: destruct (assertions_dir env) as [notExist msg|dc];
    [destruct (OnClassic env && notExist); by intros [= <- <-] |].
  all: destruct (scanFiles env dc None [] _) as [s1 [[[m|] batch]|e|p]] eqn:Hscan;
    [intros [= <- <-]; by rewrite ?Hd | by intros [= <- <-] | by intros [= <- <-] |
     by apply scanFiles_no_panic in Hscan].
Qed.

Lemma collectAssertions_readable env s dc :
  deviceReadable s →
  assertions_dir env = DirEntries dc →
  Forall (readable env) dc →
  ∃ s', onlyReads s s' ∧
    collectAssertions env s =
    (s', match (scanRefs (seenRefs env dc) None s).2 with
         | Ok (Some modelRef) => Ok (deviceOf s, modelRef, seenRefs env dc)
         | Ok None => Err missingModelError
         | Err e => Err e
         | Panic p => Panic p
         end).
Proof.
  intros Hdev Hdir Hdc.
  destruct (scanFiles_readable env dc None []
              (logged [CallReadDir (assertSeedDir env)] (logged [CallAuthDevice] s)) Hdc)
    as (s' & Hs' & Hrun).
  exists s'. split.
  { etransitivity; [| exact Hs'].
    etransitivity; apply onlyReads_call; reflexivity. }
  destruct (scanRefs_pure (seenRefs env dc) None) as (r & Hr & _).
  rewrite Hr in Hrun. rewrite Hr. simpl in Hrun |- *.
  unfold collectAssertions, deviceOf. go_simpl. rewrite Hdir.
  destruct (st_device s) as [|d|msg] eqn:Hd; [| | by destruct (Hdev msg)].
  all: go_simpl; rewrite Hrun; by destruct r as [[m|]|e|p].
Qed.

Lemma commitModel_run env device modelRef batch s :
  commitModel env device modelRef batch s =
  let s1 := logged [CallCommit batch] s in
  match commit_error env batch with
  | Some msg => (s1, Err (External msg))
  | None =>
      let s2 := logged [CallResolve modelRef] (set_db (st_db s ++ batch) s1) in
      match db_find env (st_db s ++ batch) modelRef with
      | inl msg =>
          (s2, Err (Errorf "internal error: cannot find just added assertion %v: %v"
                           [ARef modelRef; AErr (External msg)]))
      | inr model =>
          if decide (OnClassic env ≠ Classic model)
          then (s2, Err (mismatchError (Classic model)))
          else
            let d := {| Brand := BrandID model; DModel := ModelName model;
                        Serial := Serial device |} in
            let s3 := logged [CallSetDevice d] s2 in
            match set_device_error env with
            | Some msg => (s3, Err (External msg))
            | None => (set_device d s3, Ok model)
            end
      end
  end.
Proof.
  unfold commitModel, batch_Commit, auth_SetDevice. go_simpl.
  destruct (commit_error env batch); [done |]. go_simpl.
  destruct (db_find env _ modelRef); [done |].
  destruct (decide _); [done |]. go_simpl.
  by destruct (set_device_error env).
Qed.

Lemma importAssertionsFromSeed_run env s :
  importAssertionsFromSeed env s =
  match collectAssertions env s with
  | (s1, Ok (device, modelRef, batch)) => commitModel env device modelRef batch s1
  | (s1, Err e) => (s1, Err e)
  | (s1, Panic p) => (s1, Panic p)
  end.
Proof.
  unfold importAssertionsFromSeed. rewrite bind_run.
  by destruct (collectAssertions env s) as [s1 [[[device modelRef] batch]|e|p]].
Qed.

(** *** The compiler up to the ordering algorithm *)

Lemma guard_passes env s :
  notSeeded s →
  populateStateFromSeedImpl env s = populateUnseeded env (logged [CallStateGet "seeded"] s).
Proof.
  intros [H|H]; unfold populateStateFromSeedImpl; go_simpl; by rewrite H.
Qed.

Lemma populate_after_import env s :
  notSeeded s →
  populateStateFromSeedImpl env s =
  let markSeeded := length (st_tasks s) in
  match importAssertionsFromSeed env (afterGuard s) with
  | (s2, Ok model) =>
      (skip ← noSeedYamlOnClassic env;
       if (skip : bool) then markTs ← NewTaskSet markSeeded; mret [markTs]
       else snaps ← ReadSeedYaml env; orderSeed env markSeeded model snaps) s2
  | (s2, Err errNothingToDo) => (logged [CallNewTaskSet markSeeded] s2, Ok [[markSeeded]])
  | (s2, Err e) => (s2, Err e)
  | (s2, Panic p) => (s2, Panic p)
  end.
Proof.
  intros H. rewrite guard_passes by done. unfold populateUnseeded. go_simpl.
  unfold afterGuard, markTask.
  destruct (importAssertionsFromSeed env _) as [s2 [model|e|p]]; [done | | done].
  by destruct e.
Qed.

Lemma populate_reaches_ordering env s s2 model snaps :
  notSeeded s →
  importAssertionsFromSeed env (afterGuard s) = (s2, Ok model) →
  readsManifest env snaps →
  populateStateFromSeedImpl env s
  = orderSeed env (length (st_tasks s)) model snaps (atOrdering env s2).
Proof.
  intros Hs Himp [Hyaml Hsnaps]. rewrite populate_after_import by done. rewrite Himp.
  unfold noSeedYamlOnClassic, FileExists_seedYaml, ReadSeedYaml, atOrdering. go_simpl.
  rewrite Hsnaps.
  destruct (OnClassic env); [| done].
  destruct Hyaml as [|Hyaml]; [done |]. by rewrite Hyaml.
Qed.

(** * Properties of the compiler and the importer *)

(** ** The idempotency guard *)

(** C3. When the persisted Seeded flag is true, the compiler fails with the
    "already seeded" error in every environment, having done nothing but read
    the flag: the only call made is that read, so no task is allocated and the
    importer is not entered.  While the flag does not read as true (absent or
    false) the guard lets the call through to the rest of the function; and no
    run of the compiler changes the flag, so a repeated call meets the guard
    with the same flag. *)
Theorem already_seeded_guard (env : Env) (s : State) :
  (st_seeded s = Entry true →
     populateStateFromSeedImpl env s
     = (logged [CallStateGet "seeded"] s, Err alreadySeededError)) ∧
  (notSeeded s →
     populateStateFromSeedImpl env s
     = populateUnseeded env (logged [CallStateGet "seeded"] s)) ∧
  (∀ s' r, populateStateFromSeedImpl env s = (s', r) → st_seeded s' = st_seeded s).
Proof.
  split; [| split].
  - intros H. unfold populateStateFromSeedImpl. go_simpl. by rewrite H.
  - apply guard_passes.
  - intros s' r H.
    by eapply (populateStateFromSeedImpl_preserves env sameSeeded) in H.
Qed.

Lemma already_seeded_guard_witness :
  populateStateFromSeedImpl Examples.pcEnv Examples.seededState
  = (logged [CallStateGet "seeded"] Examples.seededState, Err alreadySeededError)
  ∧ populateStateFromSeedImpl Examples.pcEnv Examples.freshState
    = populateUnseeded Examples.pcEnv (logged [CallStateGet "seeded"] Examples.freshState).
Proof.
  split.
  - apply (already_seeded_guard Examples.pcEnv Examples.seededState). reflexivity.
  - apply (already_seeded_guard Examples.pcEnv Examples.freshState). left. reflexivity.
Defined.

(** ** The importer *)

Lemma importAssertionsFromSeed_sameTasks env s s' r :
  importAssertionsFromSeed env s = (s', r) → st_tasks s' = st_tasks s.
Proof. intros H. by eapply (importAssertionsFromSeed_preserves env sameTasks) in H. Qed.

(** C9. In every run of the importer: if it succeeds with a model, the device
    record was set exactly once, by the last call of the run, from the record
    read at the start with brand and model taken from the descriptor; before it
    come only reads, then the commit of the batch (which succeeded), then the
    resolution of the model (which succeeded), and the model agrees with the
    build mode.  If it fails, the device record is the one it started with.
    It never panics. *)
Theorem device_identity_written_once (env : Env) (s s' : State) (r : Outcome Model) :
  importAssertionsFromSeed env s = (s', r) →
  match r with
  | Ok model =>
      let written := {| Brand := BrandID model; DModel := ModelName model;
                        Serial := Serial (deviceOf s) |} in
      ∃ reads batch modelRef,
        st_device s' = Entry written ∧
        st_calls s' = st_calls s ++ reads
                      ++ [CallCommit batch; CallResolve modelRef; CallSetDevice written] ∧
        Forall (λ c, readCall c = true) reads ∧
        commit_error env batch = None ∧
        st_db s' = st_db s ++ batch ∧
        db_find env (st_db s') modelRef = inr model ∧
        Classic model = OnClassic env
  | Err _ => st_device s' = st_device s
  | Panic _ => False
  end.
Proof.
  rewrite importAssertionsFromSeed_run.
  destruct (collectAssertions env s) as [s1 r1] eqn:Hcol.
  apply collectAssertions_inv in Hcol as [(reads & -> & Hreads) Hr1].
  destruct r1 as [[[device modelRef] batch]|e|p]; [| by intros [= <- <-] | done].
  destruct Hr1 as [-> _]. rewrite commitModel_run. cbn zeta.
  destruct (commit_error env batch) eqn:Hcommit; [by intros [= <- <-] |].
  cbn [st_db logged].
  destruct (db_find env (st_db s ++ batch) modelRef) as [msg|model] eqn:Hfind;
    [by intros [= <- <-] |].
  destruct (decide (OnClassic env ≠ Classic model)) as [|Hmode]; [by intros [= <- <-] |].
  apply dec_stable in Hmode.
  destruct (set_device_error env); intros [= <- <-]; [done |].
  exists reads, batch, modelRef. cbn. rewrite <- !app_assoc. done.
Qed.

Lemma device_identity_written_once_witness :
  st_device (importAssertionsFromSeed Examples.pcEnv Examples.seededState).1
  = Entry {| Brand := "canonical"; DModel := "pc"; Serial := "1234" |}.
Proof.
  pose proof (device_identity_written_once Examples.pcEnv Examples.seededState _ _ eq_refl)
    as H.
  cbv zeta in H. destruct H as (reads & batch & modelRef & H & _). exact H.
Defined.

(** C2. When the model that the importer resolves has a classic flag other
    than the build mode of the system, the compiler fails with the message of
    that direction (the two messages differ), and returns no graph.  At that
    point no graph fragment exists: no call has built a task set, and the
    only task allocated is the mark-seeded task of line 84, which nothing
    waits for and which waits for nothing.  The device record is untouched. *)
Theorem build_mode_mismatch (env : Env) (s s1 : State)
    (device : DeviceState) (modelRef : Ref) (batch : list Ref) (model : Model) :
  notSeeded s →
  collectAssertions env (afterGuard s) = (s1, Ok (device, modelRef, batch)) →
  commit_error env batch = None →
  db_find env (st_db s ++ batch) modelRef = inr model →
  Classic model ≠ OnClassic env →
  ∃ s',
    importAssertionsFromSeed env (afterGuard s) = (s', Err (mismatchError (Classic model))) ∧
    populateStateFromSeedImpl env s = (s', Err (mismatchError (Classic model))) ∧
    mismatchError true ≠ mismatchError false ∧
    st_tasks s' = st_tasks s ++ [markTask] ∧
    st_device s' = st_device s ∧
    ∃ cs, st_calls s' = st_calls s ++ cs ∧ Forall (λ c, fragmentCall c = false) cs.
Proof.
  intros Hs Hcol Hcommit Hfind Hmode.
  pose proof Hcol as Hinv. apply collectAssertions_inv in Hinv as [(reads & -> & Hreads) _].
  assert (importAssertionsFromSeed env (afterGuard s)
          = (logged [CallResolve modelRef]
               (set_db (st_db s ++ batch)
                  (logged [CallCommit batch] (logged reads (afterGuard s)))),
             Err (mismatchError (Classic model)))) as Himp.
  { rewrite importAssertionsFromSeed_run, Hcol, commitModel_run. cbn zeta.
    rewrite Hcommit. cbn [st_db logged afterGuard set_tasks]. rewrite Hfind.
    destruct (decide (OnClassic env ≠ Classic model)) as [|Hn]; [done |].
    exfalso. apply Hn. intros E. by apply Hmode. }
  eexists. split; [exact Himp |]. split.
  { rewrite populate_after_import by done. cbn zeta. rewrite Himp.
    unfold mismatchError. reflexivity. }
  split; [done |]. split; [done |]. split; [done |].
  cbn. eexists. rewrite <- !app_assoc. split; [reflexivity |].
  repeat (apply Forall_cons; split; [reflexivity |]).
  apply Forall_app. split; [| by repeat constructor].
  eapply Forall_impl; [exact Hreads |]. by intros [].
Qed.

Lemma build_mode_mismatch_witness :
  ∃ s', populateStateFromSeedImpl
          (Examples.seedEnv true [("model", [Examples.modelRef])] Examples.pcModel [])
          Examples.freshState
        = (s', Err (mismatchError false)).
Proof.
  destruct (build_mode_mismatch
              (Examples.seedEnv true [("model", [Examples.modelRef])] Examples.pcModel [])
              Examples.freshState _ _ _ _ Examples.pcModel
              (or_introl eq_refl) eq_refl eq_refl eq_refl)
    as (s' & _ & H & _).
  - discriminate.
  - exists s'. exact H.
Defined.

(** C8. On a classic system (optional seed) that is not yet seeded and whose
    device record can be read: if the trust directory does not exist, or the
    importer succeeds and there is no seed manifest, the compiler succeeds and
    the graph is one fragment, holding the mark-seeded task alone, which waits
    for nothing. *)
Theorem optional_seed_short_circuit (env : Env) (s : State) :
  notSeeded s →
  deviceReadable s →
  OnClassic env = true →
  (∃ msg, assertions_dir env = DirError true msg) ∨
  (∃ s2 model, importAssertionsFromSeed env (afterGuard s) = (s2, Ok model)
               ∧ seed_yaml_exists env = false) →
  ∃ s',
    populateStateFromSeedImpl env s = (s', Ok [[length (st_tasks s)]]) ∧
    st_tasks s' = st_tasks s ++ [markTask] ∧
    st_tasks s' !! length (st_tasks s) = Some {| t_kind := KMarkSeeded; t_waits := [] |}.
Proof.
  intros Hs Hdev Hclassic Hcase.
  assert (∀ s' : State, st_tasks s' = st_tasks s ++ [markTask] →
          st_tasks s' !! length (st_tasks s) = Some {| t_kind := KMarkSeeded; t_waits := [] |})
    as Hmark.
  { intros s' ->. rewrite lookup_app_r by lia. by rewrite Nat.sub_diag. }
  rewrite populate_after_import by done. cbn zeta.
  destruct Hcase as [[msg Hdir] | (s2 & model & Himp & Hyaml)].
  - rewrite importAssertionsFromSeed_run.
    unfold collectAssertions. go_simpl. rewrite Hdir, Hclassic. cbn.
    destruct (st_device s) as [|d|msg'] eqn:Hd; [| | by destruct (Hdev msg')].
    all: eexists; split; [reflexivity |]; split; [done |]; by apply Hmark.
  - rewrite Himp. apply importAssertionsFromSeed_sameTasks in Himp.
    unfold noSeedYamlOnClassic, FileExists_seedYaml. go_simpl.
    rewrite Hclassic, Hyaml. go_simpl.
    eexists; split; [reflexivity |]. cbn. split; [done |]. by apply Hmark.
Qed.

Lemma optional_seed_short_circuit_witness :
  ∃ s', populateStateFromSeedImpl Examples.unseededClassicEnv Examples.freshState
        = (s', Ok [[0]]).
Proof.
  destruct (optional_seed_short_circuit Examples.unseededClassicEnv Examples.freshState)
    as (s' & H & _).
  - left. reflexivity.
  - intros msg. discriminate.
  - reflexivity.
  - left. eexists. reflexivity.
  - exists s'. exact H.
Defined.

(** C4. Let the device record be readable and every file of the trust
    directory be read, so that the importer sees all their references.
    - If two references of model kind with different identities are among
      them, the importer fails with the "more than one model assertion" error
      at once: all it has done is read (nothing committed, nothing written).
    - If the references of model kind all share the identity of the first one
      seen, the scan accepts them: the candidate it hands over carries that
      identity, the whole batch goes to the commit, and the importer yields
      the one model that the candidate resolves to whenever the commit, the
      resolution, the build-mode check and the device write go through.
    - If no reference of model kind is among them, the importer fails with
      the "need a model assertion" error, again having only read. *)
Theorem model_reference_scan (env : Env) (s : State) (dc : list string) :
  deviceReadable s →
  assertions_dir env = DirEntries dc →
  Forall (readable env) dc →
  let refs := seenRefs env dc in
  ((∃ r1 r2, r1 ∈ modelRefs refs ∧ r2 ∈ modelRefs refs ∧ Unique r1 ≠ Unique r2) →
     ∃ s', importAssertionsFromSeed env s = (s', Err multipleModelsError) ∧ onlyReads s s') ∧
  (∀ first rest,
     modelRefs refs = first :: rest →
     (∀ r, r ∈ rest → Unique r = Unique first) →
     ∃ s1 modelRef,
       onlyReads s s1 ∧
       collectAssertions env s = (s1, Ok (deviceOf s, modelRef, refs)) ∧
       Unique modelRef = Unique first ∧ Type_ modelRef = ModelType ∧
       importAssertionsFromSeed env s = commitModel env (deviceOf s) modelRef refs s1 ∧
       (∀ model,
          commit_error env refs = None →
          db_find env (st_db s ++ refs) modelRef = inr model →
          Classic model = OnClassic env →
          set_device_error env = None →
          ∃ s', importAssertionsFromSeed env s = (s', Ok model))) ∧
  (modelRefs refs = [] →
     ∃ s', importAssertionsFromSeed env s = (s', Err missingModelError) ∧ onlyReads s s').
Proof.
  intros Hdev Hdir Hdc refs.
  destruct (collectAssertions_readable env s dc Hdev Hdir Hdc) as (s1 & Hs1 & Hcol).
  fold refs in Hcol. split; [| split].
  - intros Hconflict. apply (scanRefs_conflict refs s) in Hconflict.
    rewrite Hconflict in Hcol. exists s1. split; [| done].
    by rewrite importAssertionsFromSeed_run, Hcol.
  - intros first rest Hmodels Hsame.
    destruct (scanRefs_agree refs None (Unique first) s) as (modelRef' & Hscan & Hid & Hnone).
    { by intros m [=]. }
    { intros r. rewrite Hmodels. intros [->|Hr]%elem_of_cons; [done | by apply Hsame]. }
    destruct modelRef' as [modelRef|].
    2:{ destruct Hnone as [Hnone _]. destruct (Hnone eq_refl) as [_ Hnil].
        by rewrite Hmodels in Hnil. }
    destruct (Hid modelRef eq_refl) as [Hu Ht].
    rewrite Hscan in Hcol. cbn in Hcol.
    assert (importAssertionsFromSeed env s = commitModel env (deviceOf s) modelRef refs s1)
      as Himp by (by rewrite importAssertionsFromSeed_run, Hcol).
    exists s1, modelRef. repeat (split; [done |]).
    intros model Hcommit Hfind Hmode Hset.
    destruct Hs1 as (reads & -> & _).
    rewrite Himp, commitModel_run. cbn zeta. rewrite Hcommit. cbn [st_db logged].
    rewrite Hfind, Hset.
    destruct (decide (OnClassic env ≠ Classic model)); [congruence | eauto].
  - intros Hnil.
    destruct (scanRefs_agree refs None "" s) as (modelRef' & Hscan & _ & Hnone).
    { by intros m [=]. }
    { intros r. rewrite Hnil. by intros ?%elem_of_nil. }
    destruct Hnone as [_ Hnone]. rewrite (Hnone (conj eq_refl Hnil)) in Hscan.
    rewrite Hscan in Hcol. exists s1. split; [| done].
    by rewrite importAssertionsFromSeed_run, Hcol.
Qed.

Lemma model_reference_scan_witness :
  (∃ s', importAssertionsFromSeed
           (Examples.seedEnv false
              [("a", [Examples.modelRef]); ("b", [Examples.otherModelRef])]
              Examples.pcModel [])
           Examples.freshState
         = (s', Err multipleModelsError))
  ∧ (∃ s', importAssertionsFromSeed
             (Examples.seedEnv false
                [("a", [Examples.modelRef]); ("b", [Examples.accountRef; Examples.modelRef])]
                Examples.pcModel [])
             Examples.freshState
           = (s', Ok Examples.pcModel)).
Proof.
  split.
  - destruct (model_reference_scan
                (Examples.seedEnv false
                   [("a", [Examples.modelRef]); ("b", [Examples.otherModelRef])]
                   Examples.pcModel [])
                Examples.freshState ["a"; "b"]) as [H _].
    + intros msg. discriminate.
    + reflexivity.
    + repeat constructor; eexists; reflexivity.
    + destruct H as (s' & H & _); [| by exists s'].
      exists Examples.modelRef, Examples.otherModelRef.
      split; [by left |]. split; [right; by left | discriminate].
  - destruct (model_reference_scan
                (Examples.seedEnv false
                   [("a", [Examples.modelRef]); ("b", [Examples.accountRef; Examples.modelRef])]
                   Examples.pcModel [])
                Examples.freshState ["a"; "b"]) as (_ & H & _).
    + intros msg. discriminate.
    + reflexivity.
    + repeat constructor; eexists; reflexivity.
    + destruct (H Examples.modelRef [Examples.modelRef] eq_refl)
        as (s1 & modelRef & _ & _ & _ & _ & _ & Hok).
      { intros r ->%list_elem_of_singleton. reflexivity. }
      apply Hok; reflexivity.
Defined.

(** ** The ordering algorithm *)

(** *** The manifest as a map *)

Lemma seeding_fold_absent (snaps : list SeedSnap) (m : gmap string SeedSnap) k :
  (∀ sn, sn ∈ snaps → sn_Name sn ≠ k) →
  foldl (λ seeding sn, <[sn_Name sn := sn]> seeding) m snaps !! k = m !! k.
Proof.
  revert m. induction snaps as [|sn rest IH]; intros m Hk; simpl; [done |].
  rewrite IH by (intros sn' Hsn'; apply Hk; by right).
  apply lookup_insert_ne, Hk. by left.
Qed.

Lemma seeding_fold_lookup (snaps : list SeedSnap) (m : gmap string SeedSnap) k sd :
  foldl (λ seeding sn, <[sn_Name sn := sn]> seeding) m snaps !! k = Some sd →
  (sd ∈ snaps ∧ sn_Name sd = k) ∨ m !! k = Some sd.
Proof.
  revert m. induction snaps as [|sn rest IH]; intros m; simpl; [by right |].
  intros [[Hin Hname] | Hm]%IH.
  - left. split; [by right | done].
  - destruct (decide (sn_Name sn = k)) as [<-|Hne].
    + rewrite lookup_insert_eq in Hm. injection Hm as <-. left. split; [by left | done].
    + rewrite lookup_insert_ne in Hm by done. by right.
Qed.

Lemma seeding_fold_listed (snaps : list SeedSnap) (m : gmap string SeedSnap) k :
  listed snaps k →
  is_Some (foldl (λ seeding sn, <[sn_Name sn := sn]> seeding) m snaps !! k).
Proof.
  revert m. induction snaps as [|sn rest IH]; intros m (sd & Hin & Hname).
  - by apply elem_of_nil in Hin.
  - simpl. destruct (decide (Exists (λ sn', sn_Name sn' = k) rest)) as [Hex|Hno].
    + apply IH. apply Exists_exists in Hex as (sd' & ? & ?). by exists sd'.
    + rewrite seeding_fold_absent.
      * apply elem_of_cons in Hin as [->|Hin].
        -- rewrite Hname, lookup_insert_eq. eauto.
        -- destruct Hno. apply Exists_exists. eauto.
      * intros sn' Hsn' Heq. apply Hno, Exists_exists. eauto.
Qed.

Lemma seedingOf_absent snaps k :
  (∀ sn, sn ∈ snaps → sn_Name sn ≠ k) → seedingOf snaps !! k = None.
Proof. intros H. unfold seedingOf. by rewrite seeding_fold_absent. Qed.

Lemma seedingOf_lookup snaps k sd :
  seedingOf snaps !! k = Some sd → sd ∈ snaps ∧ sn_Name sd = k.
Proof. intros [H|H]%seeding_fold_lookup; [done | by rewrite lookup_empty in H]. Qed.

Lemma seedingOf_listed snaps k : listed snaps k → is_Some (seedingOf snaps !! k).
Proof. apply seeding_fold_listed. Qed.

(** *** The collaborators that build tasks *)

Lemma set_tasks_same s : set_tasks (st_tasks s) s = s.
Proof. by destruct s. Qed.

Lemma waitOn_nil tk : waitOn [] tk = tk.
Proof. destruct tk. unfold waitOn; simpl. by rewrite app_nil_r. Qed.

Lemma alter_last {A} (f : A → A) (l : list A) (x : A) :
  alter f (length l) (l ++ [x]) = l ++ [f x].
Proof. by rewrite alter_app_r_alt, Nat.sub_diag by lia. Qed.

Lemma Task_WaitAll_run t ts s :
  Task_WaitAll t ts s = (set_tasks (alter (waitOn ts) t (st_tasks s)) s, Ok tt).
Proof.
  revert s. induction ts as [|other rest IH]; intros s.
  - simpl. rewrite list_alter_id by apply waitOn_nil. by rewrite set_tasks_same.
  - simpl. rewrite bind_run. unfold Task_WaitFor. rewrite IH. cbn.
    rewrite list_alter_alter_eq. unfold set_tasks; simpl. do 2 f_equal.
    apply list_alter_ext; [| done]. intros [k w] _. unfold waitOn; simpl.
    by rewrite <- app_assoc.
Qed.

Lemma TaskSet_WaitAll_single t another s :
  TaskSet_WaitAll [t] another s
  = (set_tasks (alter (waitOn another) t (st_tasks s)) s, Ok tt).
Proof. simpl. rewrite bind_run, Task_WaitAll_run. reflexivity. Qed.

Lemma ConfigureSnap_run name s :
  ConfigureSnap name UseConfigDefaults s
  = (set_tasks (st_tasks s ++ [configureTask name []])
       (logged [CallConfigureSnap name UseConfigDefaults] s),
     Ok [length (st_tasks s)]).
Proof. reflexivity. Qed.

Lemma installSeedSnap_inv env sn flags s s' r :
  installSeedSnap env sn flags s = (s', r) →
  match r with
  | Ok ts =>
      ∃ si, ts = [length (st_tasks s)] ∧
            st_tasks s' = st_tasks s ++ [installTask si env sn flags []]
  | Err e => st_tasks s' = st_tasks s
  | Panic p => False
  end.
Proof.
  unfold installSeedSnap, InstallPath. go_simpl.
  destruct (sn_Unasserted sn).
  - destruct (install_path_error env _ _ _ _); intros [= <- <-]; [done |].
    eexists. split; reflexivity.
  - destruct (derive_side_info env _); try by intros [= <- <-].
    go_simpl.
    destruct (install_path_error env _ _ _ _); intros [= <- <-]; [done |].
    eexists. split; reflexivity.
Qed.

Lemma installable_run env sn flags s :
  installable env sn flags →
  ∃ s' si, installSeedSnap env sn flags s = (s', Ok [length (st_tasks s)]) ∧
           st_tasks s' = st_tasks s ++ [installTask si env sn flags []].
Proof.
  intros H. destruct (H s) as (s' & ts & Hrun).
  pose proof Hrun as Hinv. apply installSeedSnap_inv in Hinv as (si & -> & Htasks).
  by exists s', si.
Qed.

(** *** The blocks of the ordering algorithm, case by case *)

Lemma bind_inv {A B} (m : GoM A) (f : A → GoM B) s s' r :
  (m ≫= f) s = (s', r) →
  (∃ s1 a, m s = (s1, Ok a) ∧ f a s1 = (s', r)) ∨
  (∃ e, m s = (s', Err e) ∧ r = Err e) ∨
  (∃ p, m s = (s', Panic p) ∧ r = Panic p).
Proof.
  rewrite bind_run. destruct (m s) as [s1 [a|e|p]]; intros H.
  - left. eauto.
  - injection H as <- <-. right; left. eauto.
  - injection H as <- <-. right; right. eauto.
Qed.

Lemma seedCore_inv env snaps seeding L s s' r :
  seedCore env snaps seeding L s = (s', r) →
  match r with
  | Ok L' =>
      (snaps = [] ∧ L' = L ∧ s' = s) ∨
      (snaps ≠ [] ∧ ∃ coreSeed si,
         seeding !! "core" = Some coreSeed ∧
         L' = {| tsAll := tsAll L ++ [[length (st_tasks s)]];
                 configTss := configTss L ++ [[length (st_tasks s) + 1]];
                 alreadySeeded := <["core" := true]> (alreadySeeded L);
                 last_ := last_ L |} ∧
         st_tasks s' = st_tasks s
                       ++ [installTask si env coreSeed skipConfigureFlags [];
                           configureTask "core" []])
  | Err e =>
      snaps ≠ [] ∧
      ((seeding !! "core" = None ∧ s' = s
        ∧ e = Errorf "cannot proceed without seeding core" []) ∨
       (∃ coreSeed, seeding !! "core" = Some coreSeed
                    ∧ installSeedSnap env coreSeed skipConfigureFlags s = (s', Err e)))
  | Panic _ => False
  end.
Proof.
  unfold seedCore. destruct (decide (length snaps ≠ 0)) as [Hlen|Hlen].
  2:{ intros [= <- <-]. left. apply dec_stable in Hlen.
      by apply length_zero_iff_nil in Hlen. }
  assert (snaps ≠ []) as Hsnaps by (by intros ->).
  destruct (seeding !! "core") as [coreSeed|]; [| intros [= <- <-]; by eauto].
  rewrite bind_run.
  destruct (installSeedSnap env coreSeed skipConfigureFlags s) as [s1 [ts|e|p]] eqn:Hinst.
  - apply installSeedSnap_inv in Hinst as (si & -> & Htasks).
    rewrite bind_run, ConfigureSnap_run. go_simpl. intros [= <- <-].
    right. split; [done |]. exists coreSeed, si. split; [done |]. cbn.
    rewrite Htasks, length_app, <- app_assoc. done.
  - intros [= <- <-]. eauto.
  - by apply installSeedSnap_inv in Hinst.
Qed.

Lemma seedNamed_skip env format seeding L s :
  seedNamed env format "" seeding L s = (s, Ok L).
Proof. unfold seedNamed. by destruct (decide ("" ≠ "")). Qed.

Lemma seedNamed_inv env format name seeding L s s' r :
  name ≠ "" →
  seedNamed env format name seeding L s = (s', r) →
  match r with
  | Ok L' =>
      ∃ namedSeed si prev configPrev,
        seeding !! name = Some namedSeed ∧
        tsAll L !! last_ L = Some prev ∧
        configTss L !! last_ L = Some configPrev ∧
        L' = {| tsAll := tsAll L ++ [[length (st_tasks s)]];
                configTss := configTss L ++ [[length (st_tasks s) + 1]];
                alreadySeeded := <[name := true]> (alreadySeeded L);
                last_ := last_ L + 1 |} ∧
        st_tasks s' = st_tasks s
                      ++ [installTask si env namedSeed skipConfigureFlags prev;
                          configureTask name configPrev]
  | Err e =>
      (seeding !! name = None ∧ s' = s ∧ e = Errorf format [AStr name]) ∨
      (∃ namedSeed, seeding !! name = Some namedSeed
                    ∧ installSeedSnap env namedSeed skipConfigureFlags s = (s', Err e))
  | Panic _ =>
      is_Some (seeding !! name) ∧
      (tsAll L !! last_ L = None ∨ configTss L !! last_ L = None)
  end.
Proof.
  intros Hname. unfold seedNamed. destruct (decide (name ≠ "")); [| done].
  destruct (seeding !! name) as [namedSeed|] eqn:Hseed; [| intros [= <- <-]; by eauto].
  rewrite bind_run.
  destruct (installSeedSnap env namedSeed skipConfigureFlags s) as [s1 [ts|e|p]] eqn:Hinst.
  - apply installSeedSnap_inv in Hinst as (si & -> & Htasks).
    rewrite bind_run. unfold index at 1.
    destruct (tsAll L !! last_ L) as [prev|]; [| intros [= <- <-]; by eauto].
    go_simpl. rewrite TaskSet_WaitAll_single, ConfigureSnap_run. go_simpl.
    destruct (configTss L !! last_ L) as [configPrev|]; [| intros [= <- <-]; by eauto].
    rewrite TaskSet_WaitAll_single. go_simpl. intros [= <- <-].
    exists namedSeed, si, prev, configPrev. repeat (split; [done |]). cbn.
    rewrite Htasks, alter_last, length_app. cbn [length].
    rewrite <- app_assoc. cbn [app]. rewrite alter_app_r. done.
  - intros [= <- <-]. eauto.
  - by apply installSeedSnap_inv in Hinst.
Qed.

Lemma TaskSet_WaitAll_ok ts another s :
  ∃ s', TaskSet_WaitAll ts another s = (s', Ok tt).
Proof.
  revert s. induction ts as [|t rest IH]; intros s; simpl; [by eexists |].
  rewrite bind_run, Task_WaitAll_run. apply IH.
Qed.

Lemma spliceConfigure_inv L s s' r :
  spliceConfigure L s = (s', r) →
  match r with
  | Ok L' =>
      ∃ config0 prev,
        configTss L !! 0 = Some config0 ∧
        tsAll L !! last_ L = Some prev ∧
        TaskSet_WaitAll config0 prev s = (s', Ok tt) ∧
        L' = {| tsAll := tsAll L ++ configTss L;
                configTss := configTss L;
                alreadySeeded := alreadySeeded L;
                last_ := last_ L + length (configTss L) |}
  | Err _ => False
  | Panic p =>
      s' = s ∧
      ((configTss L = [] ∧ p = IndexOutOfRange 0 0) ∨ tsAll L !! last_ L = None)
  end.
Proof.
  unfold spliceConfigure, index. go_simpl.
  destruct (configTss L) as [|config0 rest] eqn:Hc; simpl; [intros [= <- <-]; by eauto |].
  destruct (tsAll L !! last_ L) as [prev|]; [| intros [= <- <-]; by eauto].
  destruct (TaskSet_WaitAll_ok config0 prev s) as [s1 Hw]. rewrite Hw.
  intros [= <- <-]. by exists config0, prev.
Qed.

Lemma finishSeeding_inv markSeeded L s s' r :
  finishSeeding markSeeded L s = (s', r) →
  match r with
  | Ok graph =>
      ∃ ts, last (tsAll L) = Some ts ∧
            graph = tsAll L ++ [[markSeeded]] ∧
            st_tasks s' = alter (waitOn ts) markSeeded (st_tasks s)
  | Err e => tsAll L = [] ∧ s' = s ∧ e = Errorf "cannot proceed, no snaps to seed" []
  | Panic _ => False
  end.
Proof.
  unfold finishSeeding. destruct (decide (length (tsAll L) = 0)) as [Hlen|Hlen].
  { intros [= <- <-]. by apply length_zero_iff_nil in Hlen. }
  rewrite last_lookup, <- Nat.sub_1_r. unfold index. go_simpl.
  destruct (tsAll L !! (length (tsAll L) - 1)) as [ts|] eqn:Hts.
  - rewrite Task_WaitAll_run. intros [= <- <-]. by exists ts.
  - apply lookup_ge_None in Hts. lia.
Qed.


Lemma seedRest_inv env required snaps L s s' r :
  seedRest env required snaps L s = (s', r) →
  match r with
  | Ok L' =>
      ∃ extra new,
        tsAll L' = tsAll L ++ extra ∧
        st_tasks s' = st_tasks s ++ new
  | Err e =>
      ∃ sn s0 s1, sn ∈ snaps ∧
        installSeedSnap env sn (requiredFlags required sn) s0 = (s1, Err e)
  | Panic _ => (length (tsAll L) ≤ last_ L)%nat
  end.
Proof.
  revert L s. induction snaps as [|sn rest IH]; intros L s; simpl.
  { intros [= <- <-]. exists [], []. by rewrite !app_nil_r. }
  destruct (mapGet (alreadySeeded L) (sn_Name sn)).
  { intros H. apply IH in H. destruct r as [L'|e|p]; [done | | done].
    destruct H as (sn' & s0 & s1 & Hin & H). exists sn', s0, s1. split; [by right | done]. }
  rewrite bind_run.
  destruct (installSeedSnap env sn (requiredFlags required sn) s) as [s1 [ts|e|p]] eqn:Hinst.
  - apply installSeedSnap_inv in Hinst as (si & -> & Htasks).
    unfold index. destruct (tsAll L !! last_ L) as [prev|] eqn:Hprev.
    2:{ intros [= <- <-]. by apply lookup_ge_None in Hprev. }
    go_simpl. rewrite TaskSet_WaitAll_single. intros H. apply IH in H.
    cbn [tsAll last_ st_tasks set_tasks] in H. rewrite Htasks, alter_last in H.
    destruct r as [L'|e|p].
    + destruct H as (extra & new & -> & ->).
      eexists _, _. by rewrite <- !app_assoc.
    + destruct H as (sn' & s0 & s2 & Hin & H). exists sn', s0, s2. split; [by right | done].
    + rewrite length_app in H. simpl in H. lia.
  - intros [= <- <-]. exists sn, s, s1. split; [by left | done].
  - by apply installSeedSnap_inv in Hinst.
Qed.

Lemma atOrdering_tasks env s s2 model :
  importAssertionsFromSeed env (afterGuard s) = (s2, Ok model) →
  st_tasks (atOrdering env s2) = st_tasks s ++ [markTask].
Proof.
  intros H. apply importAssertionsFromSeed_sameTasks in H.
  unfold atOrdering. by destruct (OnClassic env).
Qed.

(** ** The compiler *)

(** C7. Whenever the compiler gets to the manifest (not yet seeded, the
    importer succeeded, the manifest was read) and the manifest has at least
    one entry but none named core, it fails with "cannot proceed without
    seeding core" and returns no graph; no install or configure task has been
    allocated, only the mark-seeded task of line 84. *)
Theorem missing_core (env : Env) (s s2 : State) (model : Model) (snaps : list SeedSnap) :
  notSeeded s →
  importAssertionsFromSeed env (afterGuard s) = (s2, Ok model) →
  readsManifest env snaps →
  snaps ≠ [] →
  (∀ sn, sn ∈ snaps → sn_Name sn ≠ "core") →
  populateStateFromSeedImpl env s
  = (atOrdering env s2, Err (Errorf "cannot proceed without seeding core" []))
  ∧ st_tasks (atOrdering env s2) = st_tasks s ++ [markTask].
Proof.
  intros Hs Himp Hread Hne Hcore. split; [| by eapply atOrdering_tasks].
  rewrite (populate_reaches_ordering env s s2 model snaps) by done.
  unfold orderSeed, seedFoundation, seedCore. rewrite !bind_run.
  rewrite seedingOf_absent by done.
  destruct (decide (length snaps ≠ 0)) as [|Hlen]; [done |].
  apply dec_stable, length_zero_iff_nil in Hlen. done.
Qed.

Lemma missing_core_witness :
  ∃ s', populateStateFromSeedImpl
          (Examples.seedEnv false [("model", [Examples.modelRef])] Examples.pcModel
             [Examples.mkSnap "pc-kernel"; Examples.mkSnap "pc"])
          Examples.freshState
        = (s', Err (Errorf "cannot proceed without seeding core" [])).
Proof.
  eexists.
  refine (proj1 (missing_core
            (Examples.seedEnv false [("model", [Examples.modelRef])] Examples.pcModel
               [Examples.mkSnap "pc-kernel"; Examples.mkSnap "pc"])
            Examples.freshState _ Examples.pcModel _
            (or_introl eq_refl) eq_refl (conj (or_introl eq_refl) eq_refl) _ _)).
  - discriminate.
  - intros sn [->|[->|[]%elem_of_nil]%elem_of_cons]%elem_of_cons; discriminate.
Defined.

Lemma seedCore_empty env seeding L s : seedCore env [] seeding L s = (s, Ok L).
Proof. unfold seedCore. by destruct (decide (length (@nil SeedSnap) ≠ 0)). Qed.

(** C1, as the code has it.  When the compiler gets to a manifest that is
    present but lists no snap, with a model that names neither kernel nor
    gadget, no install or configure fragment is queued, and the read of
    [configTss[0]] at line 178 is out of range: the run panics there.  The
    "no snaps to seed" check of line 202 is never reached. *)
Theorem empty_manifest_panics (env : Env) (s s2 : State) (model : Model) :
  notSeeded s →
  importAssertionsFromSeed env (afterGuard s) = (s2, Ok model) →
  readsManifest env [] →
  Kernel model = "" →
  Gadget model = "" →
  populateStateFromSeedImpl env s = (atOrdering env s2, Panic (IndexOutOfRange 0 0)).
Proof.
  intros Hs Himp Hread Hk Hg.
  rewrite (populate_reaches_ordering env s s2 model []) by done.
  unfold orderSeed, seedFoundation, seedKernel, seedGadget. rewrite Hk, Hg.
  repeat (rewrite ?bind_run, ?seedCore_empty, ?seedNamed_skip; cbn beta iota).
  reflexivity.
Qed.

Lemma empty_manifest_panics_witness :
  (populateStateFromSeedImpl
     (Examples.seedEnv true [("model", [Examples.modelRef])] (Examples.bareModel true) [])
     Examples.freshState).2
  = Panic (IndexOutOfRange 0 0).
Proof.
  rewrite (empty_manifest_panics
             (Examples.seedEnv true [("model", [Examples.modelRef])] (Examples.bareModel true) [])
             Examples.freshState _ (Examples.bareModel true)
             (or_introl eq_refl) eq_refl (conj (or_intror eq_refl) eq_refl) eq_refl eq_refl).
  reflexivity.
Defined.

(** *** The foundation when the model names a kernel *)

Lemma seedingOf_not_listed snaps k : seedingOf snaps !! k = None → ¬ listed snaps k.
Proof.
  intros Hnone Hl. apply seedingOf_listed in Hl as [sd Hsd]. congruence.
Qed.

Lemma seedFoundation_kernel_inv env model snaps s s' r :
  Kernel model ≠ "" →
  seedFoundation env model snaps s = (s', r) →
  let n := length (st_tasks s) in
  match r with
  | Ok L =>
      ∃ coreSeed kernelSeed siC siK,
        seedingOf snaps !! "core" = Some coreSeed ∧
        seedingOf snaps !! Kernel model = Some kernelSeed ∧
        ((Gadget model = "" ∧
          tsAll L = [[n]; [n + 2]; [n + 1]; [n + 3]] ∧
          last_ L = 3 ∧
          st_tasks s' = st_tasks s ++
            [installTask siC env coreSeed skipConfigureFlags [];
             configureTask "core" [n + 2];
             installTask siK env kernelSeed skipConfigureFlags [n];
             configureTask (Kernel model) [n + 1]]) ∨
         (Gadget model ≠ "" ∧ ∃ gadgetSeed siG,
          seedingOf snaps !! Gadget model = Some gadgetSeed ∧
          tsAll L = [[n]; [n + 2]; [n + 4]; [n + 1]; [n + 3]; [n + 5]] ∧
          last_ L = 5 ∧
          st_tasks s' = st_tasks s ++
            [installTask siC env coreSeed skipConfigureFlags [];
             configureTask "core" [n + 4];
             installTask siK env kernelSeed skipConfigureFlags [n];
             configureTask (Kernel model) [n + 1];
             installTask siG env gadgetSeed skipConfigureFlags [n + 2];
             configureTask (Gadget model) [n + 3]]))
  | Err e => foundationFailure env model snaps e
  | Panic _ => False
  end.
Proof.
  intros Hk H. cbv zeta. unfold seedFoundation, seedKernel, seedGadget in H.
  (* core *)
  apply bind_inv in H as [(sa & L1 & Hcore & H) | [(e & Hcore & ->) | (p & Hcore & ->)]];
    apply seedCore_inv in Hcore.
  2:{ destruct Hcore as [_ [(Hnone & _) | (coreSeed & Hsome & Hinst)]].
      - left. by apply seedingOf_not_listed.
      - right; right; right. apply seedingOf_lookup in Hsome as [Hin _]. eauto. }
  2:{ done. }
  (* kernel *)
  apply bind_inv in H as [(sb & L2 & Hkernel & H) | [(e & Hkernel & ->) | (p & Hkernel & ->)]];
    apply seedNamed_inv in Hkernel; try done.
  2:{ destruct Hkernel as [(Hnone & _) | (kernelSeed & Hsome & Hinst)].
      - right; left. by apply seedingOf_not_listed.
      - right; right; right. apply seedingOf_lookup in Hsome as [Hin _]. eauto. }
  2:{ destruct Hkernel as [[kernelSeed Hsome] Hidx].
      destruct Hcore as [(-> & _ & _) | (_ & coreSeed & siC & _ & -> & _)].
      - unfold seedingOf in Hsome. simpl in Hsome. by rewrite lookup_empty in Hsome.
      - simpl in Hidx. by destruct Hidx. }
  destruct Hkernel as (kernelSeed & siK & prev & configPrev & HsomeK & Hprev & Hcprev & -> & HtasksK).
  destruct Hcore as [(-> & -> & ->) | (_ & coreSeed & siC & HsomeC & -> & HtasksC)];
    [done |].
  simpl in Hprev, Hcprev. injection Hprev as <-. injection Hcprev as <-.
  rewrite HtasksC in HtasksK. rewrite <- app_assoc in HtasksK. cbn [app] in HtasksK.
  rewrite HtasksC, length_app in H. cbn [length tsAll configTss app last_] in H.
  cbn [initLocals tsAll configTss alreadySeeded last_ app Nat.add] in H.
  rewrite <- !Nat.add_assoc in H. cbn [Nat.add] in H.
  destruct (decide (Gadget model = "")) as [Hg|Hg].
  - rewrite Hg, bind_run, seedNamed_skip in H.
    apply spliceConfigure_inv in H. destruct r as [L|e|p]; [| done |].
    + destruct H as (config0 & prev & Hc0 & Hprev & Hwait & ->).
      cbn in Hc0, Hprev. injection Hc0 as <-. injection Hprev as <-.
      rewrite TaskSet_WaitAll_single in Hwait. injection Hwait as <-.
      exists coreSeed, kernelSeed, siC, siK. repeat (split; [done |]). left.
      split; [done |]. split; [done |]. split; [done |].
      cbn [st_tasks set_tasks]. rewrite HtasksK, alter_app_r. reflexivity.
    + destruct H as (_ & [[Hnil _] | Hnone]); cbn in *; discriminate.
  - apply bind_inv in H as [(sc & L3 & Hgadget & H) | [(e & Hgadget & ->) | (p & Hgadget & ->)]];
      apply seedNamed_inv in Hgadget; try done.
    2:{ destruct Hgadget as [(Hnone & _) | (gadgetSeed & Hsome & Hinst)].
        - right; right; left. split; [done |]. by apply seedingOf_not_listed.
        - right; right; right. apply seedingOf_lookup in Hsome as [Hin _]. eauto. }
    2:{ cbn in Hgadget. by destruct Hgadget as (_ & [|]). }
    destruct Hgadget
      as (gadgetSeed & siG & prev & configPrev & HsomeG & Hprev & Hcprev & -> & HtasksG).
    cbn in Hprev, Hcprev. injection Hprev as <-. injection Hcprev as <-.
    rewrite HtasksK in HtasksG. rewrite <- app_assoc in HtasksG. cbn [app] in HtasksG.
    rewrite HtasksK, length_app in H. cbn [length tsAll configTss app last_ Nat.add] in H.
    rewrite <- !Nat.add_assoc in H. cbn [Nat.add] in H.
    apply spliceConfigure_inv in H. destruct r as [L|e|p]; [| done |].
    + destruct H as (config0 & prev & Hc0 & Hprev & Hwait & ->).
      cbn in Hc0, Hprev. injection Hc0 as <-. injection Hprev as <-.
      rewrite TaskSet_WaitAll_single in Hwait. injection Hwait as <-.
      exists coreSeed, kernelSeed, siC, siK. repeat (split; [done |]). right.
      split; [done |]. exists gadgetSeed, siG. split; [done |]. split; [done |].
      split; [done |].
      cbn [st_tasks set_tasks]. rewrite HtasksG, alter_app_r. reflexivity.
    + destruct H as (_ & [[Hnil _] | Hnone]); cbn in *; discriminate.
Qed.

Lemma orderSeed_kernel_inv env markSeeded model snaps s s' r :
  Kernel model ≠ "" →
  orderSeed env markSeeded model snaps s = (s', r) →
  let n := length (st_tasks s) in
  match r with
  | Ok graph =>
      ∃ coreSeed kernelSeed siC siK lastTs rest new,
        seedingOf snaps !! "core" = Some coreSeed ∧
        seedingOf snaps !! Kernel model = Some kernelSeed ∧
        graph = removelast graph ++ [[markSeeded]] ∧
        last (removelast graph) = Some lastTs ∧
        ((Gadget model = "" ∧
          graph = [[n]; [n + 2]; [n + 1]; [n + 3]] ++ rest ++ [[markSeeded]] ∧
          st_tasks s' = alter (waitOn lastTs) markSeeded (st_tasks s ++
            [installTask siC env coreSeed skipConfigureFlags [];
             configureTask "core" [n + 2];
             installTask siK env kernelSeed skipConfigureFlags [n];
             configureTask (Kernel model) [n + 1]] ++ new)) ∨
         (Gadget model ≠ "" ∧ ∃ gadgetSeed siG,
          seedingOf snaps !! Gadget model = Some gadgetSeed ∧
          graph = [[n]; [n + 2]; [n + 4]; [n + 1]; [n + 3]; [n + 5]] ++ rest ++ [[markSeeded]] ∧
          st_tasks s' = alter (waitOn lastTs) markSeeded (st_tasks s ++
            [installTask siC env coreSeed skipConfigureFlags [];
             configureTask "core" [n + 4];
             installTask siK env kernelSeed skipConfigureFlags [n];
             configureTask (Kernel model) [n + 1];
             installTask siG env gadgetSeed skipConfigureFlags [n + 2];
             configureTask (Gadget model) [n + 3]] ++ new)))
  | Err e => foundationFailure env model snaps e ∨ trailingFailure env model snaps e
  | Panic _ => False
  end.
Proof.
  intros Hk H. cbv zeta. unfold orderSeed in H.
  apply bind_inv in H as [(sf & L4 & Hfound & H) | [(e & Hfound & ->) | (p & Hfound & ->)]];
    apply (seedFoundation_kernel_inv env model snaps s _ _ Hk) in Hfound;
    [| by left | done].
  cbv zeta in Hfound.
  destruct Hfound as (coreSeed & kernelSeed & siC & siK & HsomeC & HsomeK & Hshape).
  apply bind_inv in H as [(sr & L5 & Hrest & H) | [(e & Hrest & ->) | (p & Hrest & ->)]];
    apply seedRest_inv in Hrest.
  2:{ by right. }
  2:{ destruct Hshape as [(_ & Hts & Hlast & _) | (_ & gadgetSeed & siG & _ & Hts & Hlast & _)];
        rewrite Hts, Hlast in Hrest; simpl in Hrest; lia. }
  destruct Hrest as (rest & new & Hts5 & Htasks5).
  apply finishSeeding_inv in H. destruct r as [graph|e|p]; [| | done].
  2:{ destruct H as (Hnil & _). rewrite Hts5 in Hnil.
      destruct Hshape as [(_ & Hts & _) | (_ & gadgetSeed & siG & _ & Hts & _)];
        rewrite Hts in Hnil; discriminate. }
  destruct H as (lastTs & Hlast & -> & Htasks).
  exists coreSeed, kernelSeed, siC, siK, lastTs, rest, new.
  split; [done |]. split; [done |].
  rewrite removelast_last. split; [done |]. split; [done |].
  rewrite Htasks, Htasks5, Hts5.
  destruct Hshape as [(Hg & -> & _ & ->) | (Hg & gadgetSeed & siG & HsomeG & -> & _ & ->)].
  - left. split; [done |]. split; [by rewrite <- app_assoc | by rewrite <- app_assoc].
  - right. split; [done |]. exists gadgetSeed, siG. split; [done |].
    split; [by rewrite <- app_assoc | by rewrite <- app_assoc].
Qed.

Lemma alter_head_app {A} (f : A → A) (l : list A) (x : A) (l' : list A) :
  alter f (length l) (l ++ x :: l') = l ++ f x :: l'.
Proof. by rewrite alter_app_r_alt, Nat.sub_diag by lia. Qed.

(** C5. Let the compiler get to the manifest with a model that names a kernel,
    and let [m] be the id of the mark-seeded task.
    - If no entry of the manifest has the kernel's name, the compiler fails.
    - If it returns a graph, the graph is the core, kernel and (if the model
      names one) gadget installs, then the core, kernel and gadget configures
      as one block, then the remaining installs, then mark-seeded.  The kernel
      install waits for the core install; the kernel configure waits for the
      core configure and for nothing else (so not for the kernel install); the
      core configure waits for the last foundational install, the gadget's if
      there is one and the kernel's otherwise; the gadget's fragments wait for
      the kernel's; mark-seeded waits for the last fragment before it.
    - It does return a graph when core, the kernel and the gadget (if named)
      are listed and every install of a listed entry goes through. *)
Theorem kernel_configure_chain (env : Env) (s s2 : State) (model : Model)
    (snaps : list SeedSnap) :
  notSeeded s →
  importAssertionsFromSeed env (afterGuard s) = (s2, Ok model) →
  readsManifest env snaps →
  Kernel model ≠ "" →
  let m := length (st_tasks s) in
  ((∀ sn, sn ∈ snaps → sn_Name sn ≠ Kernel model) →
     ∃ s' e, populateStateFromSeedImpl env s = (s', Err e)) ∧
  (∀ s' graph,
     populateStateFromSeedImpl env s = (s', Ok graph) →
     ∃ coreSeed kernelSeed siC siK lastTs rest new,
       (coreSeed ∈ snaps ∧ sn_Name coreSeed = "core") ∧
       (kernelSeed ∈ snaps ∧ sn_Name kernelSeed = Kernel model) ∧
       ((Gadget model = "" ∧
         graph = [[m + 1]; [m + 3]; [m + 2]; [m + 4]] ++ rest ++ [[m]] ∧
         last ([[m + 1]; [m + 3]; [m + 2]; [m + 4]] ++ rest) = Some lastTs ∧
         st_tasks s' = st_tasks s ++
           [{| t_kind := KMarkSeeded; t_waits := lastTs |};
            installTask siC env coreSeed skipConfigureFlags [];
            configureTask "core" [m + 3];
            installTask siK env kernelSeed skipConfigureFlags [m + 1];
            configureTask (Kernel model) [m + 2]] ++ new) ∨
        (Gadget model ≠ "" ∧ ∃ gadgetSeed siG,
         (gadgetSeed ∈ snaps ∧ sn_Name gadgetSeed = Gadget model) ∧
         graph = [[m + 1]; [m + 3]; [m + 5]; [m + 2]; [m + 4]; [m + 6]] ++ rest ++ [[m]] ∧
         last ([[m + 1]; [m + 3]; [m + 5]; [m + 2]; [m + 4]; [m + 6]] ++ rest) = Some lastTs ∧
         st_tasks s' = st_tasks s ++
           [{| t_kind := KMarkSeeded; t_waits := lastTs |};
            installTask siC env coreSeed skipConfigureFlags [];
            configureTask "core" [m + 5];
            installTask siK env kernelSeed skipConfigureFlags [m + 1];
            configureTask (Kernel model) [m + 2];
            installTask siG env gadgetSeed skipConfigureFlags [m + 3];
            configureTask (Gadget model) [m + 4]] ++ new))) ∧
  (listed snaps "core" →
   listed snaps (Kernel model) →
   Gadget model = "" ∨ listed snaps (Gadget model) →
   (∀ sn flags, sn ∈ snaps → installable env sn flags) →
   ∃ s' graph, populateStateFromSeedImpl env s = (s', Ok graph)).
Proof.
  intros Hs Himp Hread Hk m.
  rewrite (populate_reaches_ordering env s s2 model snaps) by done.
  pose proof (atOrdering_tasks env s s2 model Himp) as Htasks0.
  assert (∀ s' r, orderSeed env m model snaps (atOrdering env s2) = (s', r) →
          _) as Hinv
    by (intros s' r; apply (orderSeed_kernel_inv env m model snaps _ s' r Hk)).
  cbv zeta in Hinv. rewrite Htasks0, length_app in Hinv. cbn [length] in Hinv. fold m in Hinv.
  split; [| split].
  - intros Habsent.
    destruct (orderSeed env m model snaps (atOrdering env s2)) as [s' r] eqn:Hrun.
    pose proof (Hinv s' r eq_refl) as H. destruct r as [graph|e|p]; [| by eauto | done].
    destruct H as (_ & kernelSeed & _ & _ & _ & _ & _ & _ & Hsome & _).
    apply seedingOf_lookup in Hsome as [Hin Hname]. by destruct (Habsent kernelSeed).
  - intros s' graph H. apply Hinv in H.
    destruct H as (coreSeed & kernelSeed & siC & siK & lastTs & rest & new
                   & HsomeC & HsomeK & Hgraph & Hlast & Hshape).
    exists coreSeed, kernelSeed, siC, siK, lastTs, rest, new.
    split; [by apply seedingOf_lookup |]. split; [by apply seedingOf_lookup |].
    rewrite <- !Nat.add_assoc in Hshape. cbn [Nat.add] in Hshape.
    destruct Hshape as [(Hg & -> & ->) | (Hg & gadgetSeed & siG & HsomeG & -> & ->)].
    + left. split; [done |]. split; [done |].
      rewrite app_assoc, removelast_last in Hlast. split; [done |].
      rewrite <- app_assoc. cbn [app]. unfold m. by rewrite alter_head_app.
    + right. split; [done |]. exists gadgetSeed, siG.
      split; [by apply seedingOf_lookup |]. split; [done |].
      rewrite app_assoc, removelast_last in Hlast. split; [done |].
      rewrite <- app_assoc. cbn [app]. unfold m. by rewrite alter_head_app.
  - intros Hcore Hkernel Hgadget Hinst.
    destruct (orderSeed env m model snaps (atOrdering env s2)) as [s' r] eqn:Hrun.
    pose proof (Hinv s' r eq_refl) as H. destruct r as [graph|e|p]; [by eauto | | done].
    exfalso.
    assert (∀ sn flags s0 s1, sn ∈ snaps →
            installSeedSnap env sn flags s0 ≠ (s1, Err e)) as Hno.
    { intros sn flags s0 s1 Hin Herr. destruct (Hinst sn flags Hin s0) as (s3 & ts & Hok).
      congruence. }
    destruct H as [[H | [H | [[Hg H] | (sn & s0 & s1 & Hin & H)]]] | (sn & s0 & s1 & Hin & H)];
      [done | done | | by eapply Hno | by eapply Hno].
    by destruct Hgadget.
Qed.

Lemma kernel_configure_chain_witness :
  ∃ rest,
    (populateStateFromSeedImpl Examples.pcEnv Examples.freshState).2
    = Ok ([[1]; [3]; [5]; [2]; [4]; [6]] ++ rest ++ [[0]]).
Proof.
  destruct (kernel_configure_chain Examples.pcEnv Examples.freshState _ Examples.pcModel
              [Examples.mkSnap "core"; Examples.mkSnap "pc-kernel"; Examples.mkSnap "pc";
               Examples.mkSnap "hello-world"]
              (or_introl eq_refl) eq_refl (conj (or_introl eq_refl) eq_refl))
    as (_ & Hgraph & _).
  - discriminate.
  - assert (∃ s' graph, populateStateFromSeedImpl Examples.pcEnv Examples.freshState
                         = (s', Ok graph)) as (s' & graph & Hrun)
      by (vm_compute; eexists _, _; reflexivity).
    destruct (Hgraph s' graph Hrun)
      as (coreSeed & kernelSeed & siC & siK & lastTs & rest & new & _ & _
          & [(Hg & _) | (_ & gadgetSeed & siG & _ & H & _)]).
    + discriminate Hg.
    + exists rest. rewrite Hrun, H. reflexivity.
Defined.

(** *** The foundation when the model names neither kernel nor gadget *)

Lemma seedFoundation_bare env model snaps coreSeed s s1 :
  Kernel model = "" →
  Gadget model = "" →
  snaps ≠ [] →
  seedingOf snaps !! "core" = Some coreSeed →
  installSeedSnap env coreSeed skipConfigureFlags s = (s1, Ok [length (st_tasks s)]) →
  let n := length (st_tasks s) in
  ∃ s4,
    seedFoundation env model snaps s
    = (s4, Ok {| tsAll := [[n]; [n + 1]]; configTss := [[n + 1]];
                 alreadySeeded := <["core" := true]> ∅; last_ := 1 |}) ∧
    st_tasks s4 = alter (waitOn [n]) (n + 1) (st_tasks s1 ++ [configureTask "core" []]).
Proof.
  intros Hk Hg Hsnaps Hseed Hrun n.
  unfold seedFoundation, seedKernel, seedGadget, seedCore. rewrite Hk, Hg, Hseed.
  destruct (decide (length snaps ≠ 0)) as [_|Hlen].
  2:{ apply dec_stable, length_zero_iff_nil in Hlen. done. }
  rewrite bind_run, bind_run, Hrun, bind_run, ConfigureSnap_run.
  cbv [mret GoM_ret]. cbn beta iota.
  rewrite bind_run, seedNamed_skip, bind_run, seedNamed_skip.
  unfold spliceConfigure, index. cbn [initLocals tsAll configTss alreadySeeded last_ app].
  cbn [lookup list_lookup]. rewrite bind_run. cbv [mret GoM_ret]. cbn beta iota.
  rewrite bind_run. cbn beta iota. rewrite bind_run, TaskSet_WaitAll_single.
  cbn [st_tasks set_tasks logged length Nat.add].
  apply installSeedSnap_inv in Hrun as (si & _ & Htasks).
  assert (length (st_tasks s1) = n + 1) as -> by (by rewrite Htasks, length_app).
  eexists. split; reflexivity.
Qed.

Lemma seedRest_all_seeded env required snaps L s :
  (∀ sn, sn ∈ snaps → mapGet (alreadySeeded L) (sn_Name sn) = true) →
  seedRest env required snaps L s = (s, Ok L).
Proof.
  induction snaps as [|sn rest IH]; intros Hall; simpl; [done |].
  rewrite Hall by (by left). apply IH. intros sn' Hin. apply Hall. by right.
Qed.

Lemma finishSeeding_run markSeeded L body ts s :
  tsAll L = body ++ [ts] →
  finishSeeding markSeeded L s
  = (logged [CallNewTaskSet markSeeded]
       (set_tasks (alter (waitOn ts) markSeeded (st_tasks s)) s),
     Ok (tsAll L ++ [[markSeeded]])).
Proof.
  intros HL. unfold finishSeeding, index.
  destruct (decide (length (tsAll L) = 0)) as [Hlen|_].
  { rewrite HL, length_app in Hlen. simpl in Hlen. lia. }
  assert (tsAll L !! (length (tsAll L) - 1) = Some ts) as ->.
  { rewrite HL, length_app. simpl. rewrite lookup_app_r by lia.
    by replace (length body + 1 - 1 - length body) with 0 by lia. }
  rewrite bind_run. cbv [mret GoM_ret]. cbn beta iota.
  rewrite bind_run, Task_WaitAll_run. reflexivity.
Qed.

(** The example of the specification: core, pc-kernel and pc are installed in
    a chain, configured as a block after the gadget install, then hello-world
    is installed as required, and mark-seeded comes last. *)
Example pc_seed_graph :
  let run := populateStateFromSeedImpl Examples.pcEnv Examples.freshState in
  run.2 = Ok [[1]; [3]; [5]; [2]; [4]; [6]; [7]; [0]] ∧
  t_waits <$> st_tasks run.1 = [[7]; []; [5]; [1]; [2]; [3]; [4]; [6]] ∧
  (λ t, match t_kind t with KInstall _ _ _ f => fl_Required f | _ => false end)
    <$> st_tasks run.1
  = [false; false; false; false; false; false; false; true].
Proof. vm_compute. repeat split. Qed.

(** C6. Let the compiler get to a manifest whose only entry is named core,
    with a model that names neither kernel nor gadget, and let the install of
    that entry go through.  Then the compiler returns exactly three fragments,
    in this order: the core install, which waits for nothing; the core
    configure, which waits for the core install; and mark-seeded, which waits
    for the core configure.  (Whether the model requires packages plays no
    part.) *)
Theorem core_only_graph (env : Env) (s s2 : State) (model : Model) (coreSeed : SeedSnap) :
  notSeeded s →
  importAssertionsFromSeed env (afterGuard s) = (s2, Ok model) →
  readsManifest env [coreSeed] →
  sn_Name coreSeed = "core" →
  Kernel model = "" →
  Gadget model = "" →
  installable env coreSeed skipConfigureFlags →
  let m := length (st_tasks s) in
  ∃ s' si,
    populateStateFromSeedImpl env s = (s', Ok [[m + 1]; [m + 2]; [m]]) ∧
    st_tasks s' = st_tasks s ++
      [{| t_kind := KMarkSeeded; t_waits := [m + 2] |};
       installTask si env coreSeed skipConfigureFlags [];
       configureTask "core" [m + 1]].
Proof.
  intros Hs Himp Hread Hname Hk Hg Hinst m.
  rewrite (populate_reaches_ordering env s s2 model [coreSeed]) by done.
  pose proof (atOrdering_tasks env s s2 model Himp) as Htasks0.
  destruct (installable_run env coreSeed skipConfigureFlags (atOrdering env s2) Hinst)
    as (s3 & si & Hrun & Htasks3).
  rewrite Htasks0, length_app in Hrun. cbn [length] in Hrun. fold m in Hrun.
  rewrite Htasks0, <- app_assoc in Htasks3. cbn [app] in Htasks3.
  assert (seedingOf [coreSeed] !! "core" = Some coreSeed) as Hseed.
  { unfold seedingOf. simpl. by rewrite Hname, lookup_insert_eq. }
  destruct (seedFoundation_bare env model [coreSeed] coreSeed (atOrdering env s2) s3)
    as (s4 & Hfound & Htasks4); try done.
  { by rewrite Htasks0, length_app. }
  rewrite Htasks0, length_app in Hfound, Htasks4. cbn [length] in Hfound, Htasks4.
  fold m in Hfound, Htasks4.
  rewrite <- !Nat.add_assoc in Hfound, Htasks4. cbn [Nat.add] in Hfound, Htasks4.
  unfold orderSeed. rewrite bind_run, Hfound, bind_run, seedRest_all_seeded.
  2:{ intros sn ->%list_elem_of_singleton. cbn [alreadySeeded].
      unfold mapGet. by rewrite Hname, lookup_insert_eq. }
  rewrite (finishSeeding_run m _ [[m + 1]] [m + 2]) by done.
  eexists _, si. split; [reflexivity |].
  cbn [st_tasks set_tasks logged]. rewrite Htasks4, Htasks3.
  replace (st_tasks s ++ [markTask; installTask si env coreSeed skipConfigureFlags []])
    with ((st_tasks s ++ [markTask]) ++ [installTask si env coreSeed skipConfigureFlags []])
    by (by rewrite <- app_assoc).
  rewrite <- (app_assoc _ _ [configureTask "core" []]). cbn [app].
  replace (m + 2) with (length (st_tasks s ++ [markTask]) + 1)
    by (rewrite length_app; simpl; lia).
  rewrite alter_app_r. cbn [alter list_alter]. rewrite <- app_assoc. cbn [app].
  unfold m. rewrite alter_head_app. rewrite length_app. cbn [length].
  rewrite <- !Nat.add_assoc. reflexivity.
Qed.

Lemma core_only_graph_witness :
  ∃ s', populateStateFromSeedImpl
          (Examples.seedEnv false [("model", [Examples.modelRef])] (Examples.bareModel false)
             [Examples.mkSnap "core"])
          Examples.freshState
        = (s', Ok [[1]; [2]; [0]]).
Proof.
  destruct (core_only_graph
              (Examples.seedEnv false [("model", [Examples.modelRef])]
                 (Examples.bareModel false) [Examples.mkSnap "core"])
              Examples.freshState _ (Examples.bareModel false) (Examples.mkSnap "core")
              (or_introl eq_refl) eq_refl (conj (or_introl eq_refl) eq_refl)
              eq_refl eq_refl eq_refl)
    as (s' & si & H & _).
  - intros s0. eexists _, _. reflexivity.
  - exists s'. exact H.
Defined.

(** ** The flags of the installs *)

Section Allocates.

Context (env : Env) (P : TaskKind → Prop).

#[global] Instance allocates_preorder : PreOrder (allocates P).
Proof.
  split.
  - intros s. exists []. by rewrite app_nil_r.
  - intros s1 s2 s3 (new1 & H1 & HP1) (new2 & H2 & HP2). exists (new1 ++ new2).
    rewrite H2, H1, <- app_assoc. split; [done | by apply Forall_app].
Qed.

Lemma allocates_same_kinds s s' : kinds s' = kinds s → allocates P s s'.
Proof. intros H. exists []. by rewrite app_nil_r. Qed.

Lemma call_allocates c : preserves (allocates P) (call c).
Proof. intros s s' r [= <- <-]. by apply allocates_same_kinds. Qed.

Lemma alloc_allocates k : P k → preserves (allocates P) (alloc k).
Proof.
  intros Hk s s' r [= <- <-]. exists [k]. split; [| by constructor].
  unfold kinds; simpl. by rewrite fmap_app.
Qed.

Lemma Task_WaitFor_allocates t other : preserves (allocates P) (Task_WaitFor t other).
Proof.
  intros s s' r [= <- <-]. apply allocates_same_kinds. unfold kinds; simpl.
  apply list_eq. intros i. rewrite !list_lookup_fmap.
  destruct (decide (t = i)) as [->|Hne].
  - rewrite list_lookup_alter_eq. by destruct (st_tasks s !! i).
  - by rewrite list_lookup_alter_ne.
Qed.

Lemma Task_WaitAll_allocates t ts : preserves (allocates P) (Task_WaitAll t ts).
Proof. induction ts as [|o rest IH]; simpl; pres. apply Task_WaitFor_allocates. Qed.

Lemma TaskSet_WaitAll_allocates ts another :
  preserves (allocates P) (TaskSet_WaitAll ts another).
Proof. induction ts as [|t rest IH]; simpl; pres. apply Task_WaitAll_allocates. Qed.

Lemma ConfigureSnap_allocates name flags :
  P (KConfigure name flags) → preserves (allocates P) (ConfigureSnap name flags).
Proof. intros Hk. unfold ConfigureSnap. pres; [apply call_allocates | by apply alloc_allocates]. Qed.

Lemma installSeedSnap_allocates sn flags :
  (∀ si, P (KInstall si (seedPath env sn) (sn_Channel sn) (seedFlags sn flags))) →
  preserves (allocates P) (installSeedSnap env sn flags).
Proof.
  intros Hk. unfold installSeedSnap, InstallPath.
  pres; try apply call_allocates; by apply alloc_allocates.
Qed.

End Allocates.

Lemma seedFlags_spec sn flags :
  let f := seedFlags sn flags in
  fl_Required f = fl_Required flags ∧
  fl_SkipConfigure f = fl_SkipConfigure flags ∧
  fl_Classic f = sn_Classic sn || fl_Classic flags ∧
  fl_DevMode f = sn_DevMode sn || fl_DevMode flags.
Proof. unfold seedFlags. by destruct (sn_Classic sn), (sn_DevMode sn). Qed.

Lemma foundation_install_kind env snaps sn si :
  sn ∈ snaps →
  foundationKind env snaps
    (KInstall si (seedPath env sn) (sn_Channel sn) (seedFlags sn skipConfigureFlags)).
Proof.
  intros Hin. exists sn. repeat (split; [done |]).
  destruct (seedFlags_spec sn skipConfigureFlags) as (-> & -> & -> & ->).
  simpl. by rewrite !orb_false_r.
Qed.

Lemma seedNamed_allocates env format name snaps L :
  preserves (allocates (foundationKind env snaps))
    (seedNamed env format name (seedingOf snaps) L).
Proof.
  unfold seedNamed. destruct (decide (name ≠ "")); [| pres].
  destruct (seedingOf snaps !! name) as [namedSeed|] eqn:Hseed; [| pres].
  apply seedingOf_lookup in Hseed as [Hin _].
  pres.
  - apply installSeedSnap_allocates. intros si. by apply foundation_install_kind.
  - apply TaskSet_WaitAll_allocates.
  - by apply ConfigureSnap_allocates.
  - apply TaskSet_WaitAll_allocates.
Qed.

Lemma seedFoundation_allocates env model snaps :
  preserves (allocates (foundationKind env snaps)) (seedFoundation env model snaps).
Proof.
  unfold seedFoundation, seedKernel, seedGadget.
  apply preserves_bind; [typeclasses eauto | | intros L1].
  { unfold seedCore. destruct (decide (length snaps ≠ 0)); [| pres].
    destruct (seedingOf snaps !! "core") as [coreSeed|] eqn:Hseed; [| pres].
    apply seedingOf_lookup in Hseed as [Hin _].
    pres.
    - apply installSeedSnap_allocates. intros si. by apply foundation_install_kind.
    - by apply ConfigureSnap_allocates. }
  pres; try apply seedNamed_allocates.
  unfold spliceConfigure. pres. apply TaskSet_WaitAll_allocates.
Qed.

Lemma seedRest_allocates env required snaps0 snaps L :
  snaps ⊆ snaps0 →
  preserves (allocates (trailingKind env required (alreadySeeded L) snaps0))
    (seedRest env required snaps L).
Proof.
  revert L. induction snaps as [|sn rest IH]; intros L Hsub; simpl; [pres |].
  assert (sn ∈ snaps0) as Hin by (apply Hsub; by left).
  assert (rest ⊆ snaps0) as Hrest by (intros x Hx; apply Hsub; by right).
  destruct (mapGet (alreadySeeded L) (sn_Name sn)) eqn:Hseeded; [by apply IH |].
  pres.
  - apply installSeedSnap_allocates. intros si. exists sn.
    repeat (split; [done |]).
    destruct (seedFlags_spec sn (requiredFlags required sn)) as (-> & -> & -> & ->).
    unfold requiredFlags. destruct (mapGet required (sn_Name sn)); simpl;
      by rewrite !orb_false_r.
  - apply TaskSet_WaitAll_allocates.
  - by apply (IH {| tsAll := _; configTss := _; alreadySeeded := alreadySeeded L;
                    last_ := _ |}).
Qed.

Lemma preserves_mono {A} (R R' : relation State) (m : GoM A) :
  (∀ s s', R s s' → R' s s') → preserves R m → preserves R' m.
Proof. intros Hsub Hm s s' r H. by eapply Hsub, Hm. Qed.

Lemma allocates_mono (P Q : TaskKind → Prop) s s' :
  (∀ k, P k → Q k) → allocates P s s' → allocates Q s s'.
Proof.
  intros Hsub (new & Hkinds & Hnew). exists new. split; [done |].
  eapply Forall_impl; [exact Hnew | exact Hsub].
Qed.

(** C10, as the code has it.  Whatever the outcome of a run:
    - every install task that the foundation (core, kernel, gadget) allocates
      is not marked required, whatever the model requires, and suppresses
      auto-configuration; its classic and devmode flags are those of its seed
      entry, which [installSeedSnap] copies onto every install;
    - every task that the trailing loop allocates is the install of a listed
      entry not seeded by the foundation, marked required exactly when the
      model requires its name, and not suppressing auto-configuration;
    - the ordering algorithm allocates nothing else. *)
Theorem required_marking (env : Env) (model : Model) (snaps : list SeedSnap) :
  let required := requiredOf (RequiredSnaps model) in
  (∀ s s' r,
     seedFoundation env model snaps s = (s', r) →
     allocates (foundationKind env snaps) s s') ∧
  (∀ L s s' r,
     seedRest env required snaps L s = (s', r) →
     allocates (trailingKind env required (alreadySeeded L) snaps) s s') ∧
  (∀ markSeeded s s' r,
     orderSeed env markSeeded model snaps s = (s', r) →
     allocates (λ k, foundationKind env snaps k
                     ∨ ∃ already, trailingKind env required already snaps k) s s').
Proof.
  intros required. split; [| split].
  - intros s s' r. apply seedFoundation_allocates.
  - intros L s s' r. by apply seedRest_allocates.
  - intros markSeeded s s' r. revert s s' r. unfold orderSeed. fold required.
    apply preserves_bind; [typeclasses eauto | | intros L4].
    { eapply preserves_mono; [| apply seedFoundation_allocates].
      intros s s'. apply allocates_mono. by left. }
    apply preserves_bind; [typeclasses eauto | | intros L5].
    { eapply preserves_mono; [| by apply (seedRest_allocates env required snaps snaps L4)].
      intros s s'. apply allocates_mono. intros k Hk. right. eauto. }
    unfold finishSeeding. pres.
    + apply Task_WaitAll_allocates.
    + unfold NewTaskSet. pres. apply call_allocates.
Qed.

Lemma required_marking_witness :
  allocates (foundationKind Examples.pcEnv
               [Examples.mkSnap "core"; Examples.mkSnap "pc-kernel"; Examples.mkSnap "pc";
                Examples.mkSnap "hello-world"])
    Examples.freshState
    (seedFoundation Examples.pcEnv Examples.pcModel
       [Examples.mkSnap "core"; Examples.mkSnap "pc-kernel"; Examples.mkSnap "pc";
        Examples.mkSnap "hello-world"] Examples.freshState).1.
Proof.
  eapply (proj1 (required_marking Examples.pcEnv Examples.pcModel
                   [Examples.mkSnap "core"; Examples.mkSnap "pc-kernel"; Examples.mkSnap "pc";
                    Examples.mkSnap "hello-world"])).
  apply surjective_pairing.
Defined.

(** C10 as stated does not hold for a core entry seeded in devmode: its
    install carries the devmode flag next to the suppress-auto-configuration
    flag, so its flags are not [snapstate.Flags{SkipConfigure: true}]. *)
Lemma foundational_flags_counterexample :
  ∃ si p channel f,
    t_kind <$> st_tasks (populateStateFromSeedImpl Examples.devmodeCoreEnv
                           Examples.freshState).1 !! 1
    = Some (KInstall si p channel f)
    ∧ fl_DevMode f = true
    ∧ f ≠ skipConfigureFlags.
Proof.
  vm_compute. eexists _, _, _, _. split; [reflexivity |]. split; [reflexivity | discriminate].
Qed.

(** * Further properties *)

(** ** Chains of tasks *)

Lemma lookup_app_plus {A} (l1 l2 : list A) k : (l1 ++ l2) !! (length l1 + k) = l2 !! k.
Proof. rewrite lookup_app_r by lia. f_equal. lia. Qed.

Lemma chainFrom_ext tasks tasks' prev ids :
  (∀ i, i ∈ ids → tasks' !! i = tasks !! i) →
  chainFrom tasks prev ids → chainFrom tasks' prev ids.
Proof.
  revert prev. induction ids as [|i rest IH]; intros prev Hsame; simpl; [done |].
  intros [(tk & Hi & Hw) Hrest]. split.
  - exists tk. split; [| done]. rewrite Hsame; [done | by left].
  - apply IH; [| done]. intros j Hj. apply Hsame. by right.
Qed.

Lemma chainFrom_grow tasks new prev ids :
  (∀ i, i ∈ ids → i < length tasks) →
  chainFrom tasks prev ids → chainFrom (tasks ++ new) prev ids.
Proof.
  intros Hlt. apply chainFrom_ext. intros i Hi. apply lookup_app_l. by apply Hlt.
Qed.

Lemma chainFrom_alter tasks f m prev ids :
  m ∉ ids → chainFrom tasks prev ids → chainFrom (alter f m tasks) prev ids.
Proof.
  intros Hm. apply chainFrom_ext. intros i Hi. apply list_lookup_alter_ne.
  by intros ->.
Qed.


Lemma chainFrom_app tasks prev ids1 ids2 :
  chainFrom tasks prev (ids1 ++ ids2) ↔
  chainFrom tasks prev ids1 ∧ chainFrom tasks (chainEnd prev ids1) ids2.
Proof.
  revert prev. induction ids1 as [|i rest IH]; intros prev; simpl.
  - unfold chainEnd; simpl. tauto.
  - rewrite IH.
    assert (chainEnd [i] rest = chainEnd prev (i :: rest)) as ->; [| tauto].
    unfold chainEnd. destruct rest as [|j rest']; [done |].
    rewrite last_cons_cons. destruct (last (j :: rest')) eqn:E; [done |].
    by apply last_None in E.
Qed.

Lemma singles_app ids1 ids2 : singles (ids1 ++ ids2) = singles ids1 ++ singles ids2.
Proof. apply fmap_app. Qed.

Lemma singles_last ids k : singles ids !! k = (λ i, [i]) <$> ids !! k.
Proof. apply list_lookup_fmap. Qed.

(** ** The shape of the foundation, for every model *)

Lemma singles_lookup_last iids k prev :
  k + 1 = length iids →
  singles iids !! k = Some prev →
  ∃ i, last iids = Some i ∧ prev = [i] ∧ chainEnd [] iids = [i].
Proof.
  intros Hk Hprev. rewrite singles_last in Hprev.
  destruct (iids !! k) as [i|] eqn:Hi; [| done]. injection Hprev as <-.
  assert (last iids = Some i) as Hlast.
  { rewrite last_lookup. by replace (pred (length iids)) with k by lia. }
  exists i. unfold chainEnd. by rewrite Hlast.
Qed.

Lemma seedCore_establishes env snaps s s' r :
  seedCore env snaps (seedingOf snaps) initLocals s = (s', r) →
  match r with
  | Ok L =>
      (snaps = [] ∧ L = initLocals ∧ s' = s) ∨
      (∃ coreSeed siC,
         seedingOf snaps !! "core" = Some coreSeed ∧
         foundationInv env (st_tasks s) (st_tasks s') L coreSeed siC)
  | Err _ => True
  | Panic _ => False
  end.
Proof.
  intros H. apply seedCore_inv in H. destruct r as [L|e|p]; [| done | done].
  destruct H as [H | (_ & coreSeed & siC & Hseed & -> & Htasks)]; [by left | right].
  exists coreSeed, siC. split; [done |].
  exists [length (st_tasks s)], [length (st_tasks s) + 1].
  eexists. split; [exact Htasks |]. split; [done |]. rewrite Htasks.
  repeat split; try done.
  - exists (installTask siC env coreSeed skipConfigureFlags []).
    split; [by apply list_lookup_middle | done].
  - exists (configureTask "core" []).
    split; [by rewrite lookup_app_plus | done].
  - apply NoDup_cons. split; [| apply NoDup_singleton].
    intros Hin%list_elem_of_singleton. lia.
  - apply elem_of_cons in H as [->|Hi%list_elem_of_singleton]; [| subst]; lia.
  - rewrite length_app. simpl.
    apply elem_of_cons in H as [->|Hi%list_elem_of_singleton]; [| subst]; lia.
Qed.

Lemma NoDup_extend (iids cids : list nat) a b :
  NoDup (iids ++ cids) → a ∉ iids ++ cids → b ∉ iids ++ cids → a ≠ b →
  NoDup ((iids ++ [a]) ++ (cids ++ [b])).
Proof.
  intros Hnd Ha Hb Hab.
  assert ((iids ++ [a]) ++ cids ++ [b] ≡ₚ a :: b :: (iids ++ cids)) as ->.
  { rewrite <- !app_assoc. rewrite (Permutation_app_comm cids [b]).
    simpl. rewrite <- Permutation_middle. apply perm_skip.
    by rewrite <- Permutation_middle. }
  apply NoDup_cons. split; [| apply NoDup_cons; by split].
  intros [->|Hin]%elem_of_cons; [done | by apply Ha].
Qed.

Lemma seedNamed_extends env format name snaps L s s' r base coreSeed siC :
  name ≠ "" →
  foundationInv env base (st_tasks s) L coreSeed siC →
  seedNamed env format name (seedingOf snaps) L s = (s', r) →
  match r with
  | Ok L' => foundationInv env base (st_tasks s') L' coreSeed siC
  | Err _ => True
  | Panic _ => False
  end.
Proof.
  intros Hname (iids & cids & new & Htasks & Hnewlen & HtsAll & Hconfig & Hlast & Hlen
                & Hchi & Hchc & Hnd & Hbound & Hhi & Hhc & Hk0 & Hk1) H.
  apply seedNamed_inv in H; [| done]. destruct r as [L'|e|p]; [| done |].
  2:{ destruct H as (_ & [H | H]).
      - rewrite HtsAll in H. apply lookup_ge_None in H.
        unfold singles in H. rewrite length_fmap in H. lia.
      - rewrite Hconfig in H. apply lookup_ge_None in H.
        unfold singles in H. rewrite length_fmap in H. lia. }
  destruct H as (namedSeed & si & prev & configPrev & _ & Hprev & Hcprev & -> & Htasks').
  rewrite HtsAll in Hprev. rewrite Hconfig in Hcprev.
  apply singles_lookup_last in Hprev as (il & Hil & -> & Hendi); [| done].
  apply singles_lookup_last in Hcprev as (cl & Hcl & -> & Hendc); [| lia].
  set (k := length (st_tasks s)) in *.
  assert (∀ i, i ∈ iids ++ cids → i < k) as Hlt by (intros i Hi; by apply Hbound).
  exists (iids ++ [k]), (cids ++ [k + 1]),
    (new ++ [installTask si env namedSeed skipConfigureFlags [il];
             configureTask name [cl]]).
  rewrite Htasks'. cbn [tsAll configTss last_].
  split; [by rewrite Htasks, <- app_assoc |].
  split; [rewrite !length_app; simpl; lia |].
  split; [by rewrite HtsAll, singles_app |].
  split; [by rewrite Hconfig, singles_app |].
  split; [rewrite length_app; simpl; lia |].
  split; [rewrite !length_app; simpl; lia |].
  split.
  { apply chainFrom_app. split.
    - apply chainFrom_grow; [| done]. intros i Hi. apply Hlt, elem_of_app. by left.
    - rewrite Hendi. split; [| done]. eexists. split; [by apply list_lookup_middle | done]. }
  split.
  { apply chainFrom_app. split.
    - apply chainFrom_grow; [| done]. intros i Hi. apply Hlt, elem_of_app. by right.
    - rewrite Hendc. split; [| done]. eexists.
      split; [unfold k; by rewrite lookup_app_plus | done]. }
  split.
  { apply NoDup_extend; [done | | | lia].
    - intros Hin. apply Hlt in Hin. lia.
    - intros Hin. apply Hlt in Hin. lia. }
  split.
  { intros i Hi. rewrite length_app. simpl. fold k.
    assert (i ∈ iids ++ cids ∨ i = k ∨ i = k + 1) as [Hin | [-> | ->]].
    { rewrite !elem_of_app, !list_elem_of_singleton in Hi. rewrite elem_of_app. tauto. }
    - apply Hbound in Hin. lia.
    - assert (length base ≤ k)%nat; [| lia]. unfold k. rewrite Htasks, length_app. lia.
    - assert (length base ≤ k)%nat; [| lia]. unfold k. rewrite Htasks, length_app. lia. }
  split; [by destruct iids |]. split; [by destruct cids |].
  assert (2 ≤ length new)%nat as Hnew.
  { destruct new as [|? [|? ?]]; simpl in *; try done; lia. }
  split; by rewrite lookup_app_l by lia.
Qed.

Lemma alter_waitOn_kind ts j (l : list Task) i :
  t_kind <$> alter (waitOn ts) j l !! i = t_kind <$> l !! i.
Proof.
  destruct (decide (j = i)) as [->|Hne].
  - rewrite list_lookup_alter_eq. by destruct (l !! i).
  - by rewrite list_lookup_alter_ne.
Qed.

Lemma spliceConfigure_chains env base L s s' r coreSeed siC :
  foundationInv env base (st_tasks s) L coreSeed siC →
  spliceConfigure L s = (s', r) →
  match r with
  | Ok L' =>
      ∃ ids new,
        st_tasks s' = base ++ new ∧ length new = length ids ∧
        tsAll L' = singles ids ∧ last_ L' + 1 = length ids ∧
        chainFrom (st_tasks s') [] ids ∧ NoDup ids ∧
        (∀ i, i ∈ ids → length base ≤ i < length (st_tasks s')) ∧
        head ids = Some (length base) ∧ length base + 1 ∈ ids ∧
        t_kind <$> new !! 0
          = Some (t_kind (installTask siC env coreSeed skipConfigureFlags [])) ∧
        t_kind <$> new !! 1 = Some (KConfigure "core" UseConfigDefaults)
  | Err _ => False
  | Panic _ => False
  end.
Proof.
  intros (iids & cids & new & Htasks & Hnewlen & HtsAll & Hconfig & Hlast & Hlen
          & Hchi & Hchc & Hnd & Hbound & Hhi & Hhc & Hk0 & Hk1) H.
  apply spliceConfigure_inv in H. destruct r as [L'|e|p]; [| done |].
  2:{ destruct H as (_ & [[H _] | H]).
      - rewrite Hconfig in H. destruct cids; [simpl in *; lia | done].
      - rewrite HtsAll in H. apply lookup_ge_None in H.
        unfold singles in H. rewrite length_fmap in H. lia. }
  destruct H as (config0 & prev & Hc0 & Hprev & Hwait & ->).
  rewrite HtsAll in Hprev. rewrite Hconfig in Hc0.
  apply singles_lookup_last in Hprev as (il & Hil & -> & Hendi); [| done].
  destruct cids as [|c0 crest]; [done |].
  injection Hhc as ->. simpl in Hc0. injection Hc0 as <-.
  rewrite TaskSet_WaitAll_single in Hwait. injection Hwait as <-.
  cbn [st_tasks set_tasks tsAll last_]. set (c0 := length base + 1) in *.
  apply NoDup_app in Hnd as (Hndi & Hdisj & Hndc).
  apply NoDup_cons in Hndc as [Hc0 Hndc].
  destruct Hchc as [(tk0 & Htk0 & Hw0) Hchc].
  exists (iids ++ c0 :: crest), (alter (waitOn [il]) 1 new).
  split.
  { rewrite Htasks. unfold c0. by rewrite alter_app_r. }
  split; [rewrite length_alter, length_app; lia |].
  split; [by rewrite HtsAll, Hconfig, singles_app |].
  split; [rewrite Hconfig; unfold singles; rewrite length_fmap, length_app; lia |].
  split.
  { apply chainFrom_app. split.
    - apply chainFrom_alter; [| done]. intros Hin. by apply (Hdisj c0 Hin); left.
    - rewrite Hendi. split.
      + exists (waitOn [il] tk0). rewrite list_lookup_alter_eq, Htk0.
        split; [done |]. unfold waitOn; simpl. by rewrite Hw0.
      + by apply chainFrom_alter. }
  split.
  { apply NoDup_app. split; [done |]. split; [done |]. apply NoDup_cons. by split. }
  split; [intros i Hi; rewrite length_alter; by apply Hbound |].
  split; [by destruct iids |].
  split; [apply elem_of_app; right; by left |].
  by rewrite !alter_waitOn_kind.
Qed.

Lemma seedNamed_empty env format name L s :
  name ≠ "" →
  seedNamed env format name (seedingOf []) L s = (s, Err (Errorf format [AStr name])).
Proof.
  intros Hname. unfold seedNamed. destruct (decide (name ≠ "")); [| done].
  unfold seedingOf. simpl. by rewrite lookup_empty.
Qed.

(** The foundation for every model: on success the fragments are single fresh
    tasks in one chain that starts with the core install; it panics only when
    nothing at all is queued. *)
Lemma seedFoundation_inv env model snaps s s' r :
  seedFoundation env model snaps s = (s', r) →
  match r with
  | Ok L =>
      ∃ ids new coreSeed siC,
        seedingOf snaps !! "core" = Some coreSeed ∧
        st_tasks s' = st_tasks s ++ new ∧ length new = length ids ∧
        tsAll L = singles ids ∧ last_ L + 1 = length ids ∧
        chainFrom (st_tasks s') [] ids ∧ NoDup ids ∧
        (∀ i, i ∈ ids → length (st_tasks s) ≤ i < length (st_tasks s')) ∧
        head ids = Some (length (st_tasks s)) ∧ length (st_tasks s) + 1 ∈ ids ∧
        t_kind <$> new !! 0
          = Some (t_kind (installTask siC env coreSeed skipConfigureFlags [])) ∧
        t_kind <$> new !! 1 = Some (KConfigure "core" UseConfigDefaults)
  | Err _ => True
  | Panic p =>
      snaps = [] ∧ Kernel model = "" ∧ Gadget model = "" ∧
      p = IndexOutOfRange 0 0 ∧ s' = s
  end.
Proof.
  unfold seedFoundation, seedKernel, seedGadget. intros H.
  apply bind_inv in H as [(sa & L1 & Hcore & H) | [(e & Hcore & ->) | (p & Hcore & ->)]];
    apply seedCore_establishes in Hcore; [| done | done].
  destruct Hcore as [(-> & -> & ->) | (coreSeed & siC & Hseed & Hinv)].
  - (* nothing to seed *)
    destruct (decide (Kernel model = "")) as [Hk|Hk].
    2:{ rewrite bind_run, seedNamed_empty in H by done. by injection H as <- <-. }
    rewrite Hk, bind_run, seedNamed_skip in H.
    destruct (decide (Gadget model = "")) as [Hg|Hg].
    2:{ rewrite bind_run, seedNamed_empty in H by done. by injection H as <- <-. }
    rewrite Hg, bind_run, seedNamed_skip in H.
    by injection H as <- <-.
  - (* core is queued *)
    assert (∃ sb L2, foundationInv env (st_tasks s) (st_tasks sb) L2 coreSeed siC ∧
              ((seedNamed env "cannot find seed information for gadget snap %q"
                  (Gadget model) (seedingOf snaps) L2 ≫= spliceConfigure) sb = (s', r)
               ∨ ∃ e, r = Err e)) as (sb & L2 & Hinv2 & H2).
    { destruct (decide (Kernel model = "")) as [Hk|Hk].
      - rewrite Hk, bind_run, seedNamed_skip in H. exists sa, L1. split; [done | by left].
      - apply bind_inv in H as [(sb & L2 & Hker & H) | [(e & Hker & ->) | (p & Hker & ->)]];
          apply (seedNamed_extends _ _ _ _ _ _ _ _ _ _ _ Hk Hinv) in Hker; [| | done].
        + exists sb, L2. split; [done | by left].
        + exists sa, L1. split; [done |]. right. eauto. }
    destruct H2 as [H2 | [e ->]]; [| done].
    assert (∃ sc L3, foundationInv env (st_tasks s) (st_tasks sc) L3 coreSeed siC ∧
              (spliceConfigure L3 sc = (s', r) ∨ ∃ e, r = Err e)) as (sc & L3 & Hinv3 & H3).
    { destruct (decide (Gadget model = "")) as [Hg|Hg].
      - rewrite Hg, bind_run, seedNamed_skip in H2. exists sb, L2. split; [done | by left].
      - apply bind_inv in H2 as [(sc & L3 & Hgad & H2) | [(e & Hgad & ->) | (p & Hgad & ->)]];
          apply (seedNamed_extends _ _ _ _ _ _ _ _ _ _ _ Hg Hinv2) in Hgad; [| | done].
        + exists sc, L3. split; [done | by left].
        + exists sb, L2. split; [done |]. right. eauto. }
    destruct H3 as [H3 | [e ->]]; [| done].
    apply (spliceConfigure_chains _ _ _ _ _ _ _ _ Hinv3) in H3.
    destruct r as [L|e|p]; [| done | done].
    destruct H3 as (ids & new & H3). exists ids, new, coreSeed, siC.
    destruct H3 as (? & ? & ? & ? & ? & ? & ? & ? & ? & ? & ?). done.
Qed.

(** ** The trailing loop and the end of the chain *)



(** ** The outcomes of the importer and of the compiler *)

Lemma scanFiles_errors env dc modelRef batch s s' e :
  scanFiles env dc modelRef batch s = (s', Err e) → ∃ format args, e = Errorf format args.
Proof.
  revert modelRef batch s. induction dc as [|fi rest IH]; intros modelRef batch s; [done |].
  simpl. unfold readAsserts. go_simpl.
  destruct (assert_file env _) as [msg|refs]; [intros [= <- <-]; eauto |].
  destruct (scanRefs_pure refs modelRef) as (r & Hr & [-> | [modelRef' ->]]);
    rewrite Hr; [intros [= <- <-]; unfold multipleModelsError; eauto | apply IH].
Qed.

Lemma importAssertionsFromSeed_no_panic env s s' p :
  importAssertionsFromSeed env s ≠ (s', Panic p).
Proof.
  rewrite importAssertionsFromSeed_run.
  destruct (collectAssertions env s) as [s1 [[[device modelRef] batch]|e|p']] eqn:Hcol;
    [| done | by apply collectAssertions_inv in Hcol as [_ ?]].
  rewrite commitModel_run. cbn zeta.
  destruct (commit_error env batch); [done |].
  destruct (db_find env _ modelRef); [done |].
  destruct (decide _); [done |]. by destruct (set_device_error env).
Qed.

Lemma importAssertionsFromSeed_nothing env s s' :
  importAssertionsFromSeed env s = (s', Err errNothingToDo) →
  deviceReadable s ∧ OnClassic env = true ∧ ∃ msg, assertions_dir env = DirError true msg.
Proof.
  rewrite importAssertionsFromSeed_run.
  destruct (collectAssertions env s) as [s1 [[[device modelRef] batch]|e|p']] eqn:Hcol.
  - rewrite commitModel_run. cbn zeta.
    destruct (commit_error env batch); [done |].
    destruct (db_find env _ modelRef); [done |].
    destruct (decide _); [done |]. by destruct (set_device_error env).
  - intros [= <- ->]. revert Hcol. unfold collectAssertions, deviceReadable. go_simpl.
    destruct (st_device s) as [|d|msg] eqn:Hd; [| | done].
    all: destruct (assertions_dir env) as [notExist msg|dc].
    all: try (destruct (OnClassic env), notExist; simpl; intros [= <-]; by eauto).
    all: destruct (scanFiles env dc None [] _) as [s2 [[[m|] batch]|e|p]] eqn:Hscan;
      [by intros [=] | by intros [=] | | by intros [=]].
    all: intros [= <- ->]; by apply scanFiles_errors in Hscan as (? & ? & ?).
  - done.
Qed.

(** How a run of the compiler can end otherwise than by an error; [m] is the
    id of the mark-seeded task. *)
Lemma populate_cases env s s' r :
  populateStateFromSeedImpl env s = (s', r) →
  let m := length (st_tasks s) in
  (∃ e, r = Err e) ∨
  (notSeeded s ∧
   ((∃ s2, importAssertionsFromSeed env (afterGuard s) = (s2, Err errNothingToDo)
           ∧ st_tasks s' = st_tasks s ++ [markTask] ∧ r = Ok [[m]]) ∨
    (∃ s2 model, importAssertionsFromSeed env (afterGuard s) = (s2, Ok model)
                 ∧ OnClassic env = true ∧ seed_yaml_exists env = false
                 ∧ st_tasks s' = st_tasks s ++ [markTask] ∧ r = Ok [[m]]) ∨
    (∃ s2 model snaps,
       importAssertionsFromSeed env (afterGuard s) = (s2, Ok model)
       ∧ readsManifest env snaps
       ∧ orderSeed env m model snaps (atOrdering env s2) = (s', r)))).
Proof.
  intros H m.
  assert (notSeeded s ∨ ∃ e, r = Err e) as [Hs | ?]; [| | by left].
  { revert H. unfold populateStateFromSeedImpl, notSeeded. go_simpl.
    destruct (st_seeded s) as [|[]|msg]; try (intros [= <- <-]; by eauto); tauto. }
  rewrite populate_after_import in H by done. cbn zeta in H. fold m in H.
  destruct (importAssertionsFromSeed env (afterGuard s)) as [s2 [model|e|p]] eqn:Himp.
  - pose proof (importAssertionsFromSeed_sameTasks _ _ _ _ Himp) as Htasks.
    revert H. unfold noSeedYamlOnClassic, FileExists_seedYaml, ReadSeedYaml. go_simpl.
    destruct (OnClassic env) eqn:Hclassic.
    + go_simpl. destruct (seed_yaml_exists env) eqn:Hyaml; go_simpl.
      * destruct (seed_yaml env) as [msg|snaps] eqn:Hsnaps; [intros [= <- <-]; by eauto |].
        intros H. right. split; [done |]. right; right. exists s2, model, snaps.
        split; [done |]. split; [by split; [right |] |].
        unfold atOrdering. by rewrite Hclassic.
      * intros [= <- <-]. right. split; [done |]. right; left. by exists s2, model.
    + destruct (seed_yaml env) as [msg|snaps] eqn:Hsnaps; [intros [= <- <-]; by eauto |].
      intros H. right. split; [done |]. right; right. exists s2, model, snaps.
      split; [done |]. split; [by split; [left |] |].
      unfold atOrdering. by rewrite Hclassic.
  - pose proof (importAssertionsFromSeed_sameTasks _ _ _ _ Himp) as Htasks.
    destruct e; try (injection H as <- <-; by eauto).
    injection H as <- <-. right. split; [done |]. left. by exists s2.
  - by apply importAssertionsFromSeed_no_panic in Himp.
Qed.

(** ** Properties of every run of the compiler *)





(** X3. The importer signals "nothing to do" exactly when the device record
    can be read, the system is classic and the trust directory does not
    exist; on an all-snaps system a missing directory is an error like any
    other. *)
Theorem nothing_to_do_iff (env : Env) (s : State) :
  (∃ s', importAssertionsFromSeed env s = (s', Err errNothingToDo)) ↔
  deviceReadable s ∧ OnClassic env = true ∧ ∃ msg, assertions_dir env = DirError true msg.
Proof.
  split.
  - intros [s' H]. by apply importAssertionsFromSeed_nothing in H.
  - intros (Hdev & Hclassic & msg & Hdir).
    rewrite importAssertionsFromSeed_run. unfold collectAssertions. go_simpl.
    rewrite Hdir, Hclassic. cbn.
    destruct (st_device s) as [|d|msg'] eqn:Hd; [| | by destruct (Hdev msg')];
      eexists; reflexivity.
Qed.

Lemma nothing_to_do_iff_witness :
  ∃ s', importAssertionsFromSeed Examples.unseededClassicEnv Examples.freshState
        = (s', Err errNothingToDo).
Proof.
  apply (nothing_to_do_iff Examples.unseededClassicEnv Examples.freshState).
  split; [intros msg; discriminate |]. split; [reflexivity |]. eexists. reflexivity.
Defined.

(** ** The trailing loop, the maps and the trust store *)

Lemma seedRest_installs env required snaps L L' s s' :
  seedRest env required snaps L s = (s', Ok L') →
  let todo := filter (λ sn, mapGet (alreadySeeded L) (sn_Name sn) = false) snaps in
  ∃ new,
    st_tasks s' = st_tasks s ++ new ∧
    tsAll L' = tsAll L ++ singles (seq (length (st_tasks s)) (length todo)) ∧
    last_ L' = last_ L + length todo ∧
    alreadySeeded L' = alreadySeeded L ∧
    Forall2 (λ t sn, installOf env sn (requiredFlags required sn) (Some (t_kind t))) new todo.
Proof.
  revert L s. induction snaps as [|sn rest IH]; intros L s; simpl.
  { intros [= <- <-]. exists []. cbn. rewrite !app_nil_r, Nat.add_0_r.
    repeat split; constructor. }
  destruct (mapGet (alreadySeeded L) (sn_Name sn)) eqn:Hseeded.
  { rewrite filter_cons_False by (by rewrite Hseeded). apply IH. }
  rewrite filter_cons_True by done.
  intros H.
  apply bind_inv in H as [(s1 & ts & Hinst & H) | [(e & _ & [=]) | (p & _ & [=])]].
  apply installSeedSnap_inv in Hinst as (si & -> & Htasks1).
  unfold index in H. rewrite bind_run in H.
  destruct (tsAll L !! last_ L) as [prev|] eqn:Hprev; [| done].
  cbv [mret GoM_ret] in H. cbn beta iota in H.
  rewrite bind_run, TaskSet_WaitAll_single in H. cbn beta iota in H.
  apply IH in H. cbn [tsAll last_ alreadySeeded st_tasks set_tasks] in H.
  destruct H as (new & Htasks' & HtsAll & Hlast & Halready & Hall).
  rewrite Htasks1, alter_last in Htasks', HtsAll.
  rewrite length_app in HtsAll. cbn [length] in HtsAll.
  exists (waitOn prev (installTask si env sn (requiredFlags required sn) []) :: new).
  split; [by rewrite Htasks', <- app_assoc |].
  split.
  { rewrite HtsAll, <- app_assoc. cbn [length seq]. unfold singles. cbn [fmap list_fmap app].
    by rewrite Nat.add_1_r. }
  split; [rewrite Hlast; cbn [length]; lia |].
  split; [done |].
  constructor; [by exists si | done].
Qed.

Lemma requiredOf_fold (reqSnaps : list string) (m : gmap string bool) k :
  mapGet (foldl (λ required snap, <[snap := true]> required) m reqSnaps) k = true ↔
  k ∈ reqSnaps ∨ mapGet m k = true.
Proof.
  revert m. induction reqSnaps as [|x rest IH]; intros m; simpl.
  - split; [by right | intros [[]%elem_of_nil | ?]; done].
  - rewrite IH, elem_of_cons. unfold mapGet.
    destruct (decide (x = k)) as [->|Hne].
    + rewrite lookup_insert_eq. simpl. tauto.
    + rewrite lookup_insert_ne by done. split; [intros [?|?] | intros [[?|?]|?]]; auto.
Qed.

(** X4. The [required] map answers true exactly for the names that
    [model.RequiredSnaps()] lists, so an install of the trailing loop is
    marked required exactly when the name of its entry is listed there; the
    classic and devmode settings of the entry do not touch that mark. *)
Theorem required_iff_listed (model : Model) (sn : SeedSnap) :
  let required := requiredOf (RequiredSnaps model) in
  (mapGet required (sn_Name sn) = true ↔ sn_Name sn ∈ RequiredSnaps model) ∧
  (fl_Required (seedFlags sn (requiredFlags required sn)) = true
   ↔ sn_Name sn ∈ RequiredSnaps model).
Proof.
  intros required.
  assert (mapGet required (sn_Name sn) = true ↔ sn_Name sn ∈ RequiredSnaps model) as Hmap.
  { unfold required, requiredOf. rewrite requiredOf_fold. unfold mapGet.
    rewrite lookup_empty. simpl. split; [by intros [?|?] | by left]. }
  split; [done |].
  destruct (seedFlags_spec sn (requiredFlags required sn)) as (-> & _).
  rewrite <- Hmap. unfold requiredFlags. by destruct (mapGet required (sn_Name sn)).
Qed.

(** X5. Where the manifest lists a name more than once, the [seeding] map
    holds the last entry of that name: that is the one installed as core,
    kernel or gadget. *)
Theorem seeding_last_entry_wins (pre post : list SeedSnap) (sn : SeedSnap) :
  (∀ x, x ∈ post → sn_Name x ≠ sn_Name sn) →
  seedingOf (pre ++ sn :: post) !! sn_Name sn = Some sn.
Proof.
  intros Hpost. unfold seedingOf. rewrite foldl_app. simpl.
  rewrite seeding_fold_absent by done. apply lookup_insert_eq.
Qed.

Lemma seeding_last_entry_wins_witness :
  seedingOf ([Examples.mkSnap "core"] ++ Examples.devmodeCore :: [Examples.mkSnap "pc"])
    !! "core" = Some Examples.devmodeCore.
Proof.
  apply (seeding_last_entry_wins [Examples.mkSnap "core"] [Examples.mkSnap "pc"]
           Examples.devmodeCore).
  intros x Hx%list_elem_of_singleton. subst x. discriminate.
Defined.

(** ** Failures of the importer and what they leave behind *)

Lemma modelRefs_app refs1 refs2 : modelRefs (refs1 ++ refs2) = modelRefs refs1 ++ modelRefs refs2.
Proof. unfold modelRefs. apply filter_app. Qed.

Lemma scanFiles_unreadable env pre fi post msg u modelRef batch s :
  Forall (readable env) pre →
  (∀ m, modelRef = Some m → Unique m = u ∧ Type_ m = ModelType) →
  (∀ r, r ∈ modelRefs (seenRefs env pre) → Unique r = u) →
  assert_file env (assertSeedDir env ++ [fi]) = inl msg →
  scanFiles env (pre ++ fi :: post) modelRef batch s =
  (logged (readOf env <$> pre ++ [fi]) s,
   Err (Errorf "cannot read assertions: %s" [AErr (External msg)])).
Proof.
  intros Hpre. revert modelRef batch s.
  induction Hpre as [|f rest [refs Hf] _ IH]; intros modelRef batch s Hmr Hall Hfi.
  - pose proof Hfi as Hfi'. unfold assertSeedDir in Hfi'. simpl in Hfi'.
    simpl. unfold readAsserts. rewrite Hfi'. reflexivity.
  - rewrite (seenRefs_cons _ _ _ _ Hf), modelRefs_app in Hall.
    destruct (scanRefs_agree refs modelRef u s Hmr) as (modelRef' & Hrun & Hmr' & _).
    { intros r Hr. apply Hall, elem_of_app. by left. }
    destruct (scanRefs_pure refs modelRef) as (r & Hr & _).
    rewrite Hr in Hrun. injection Hrun as ->.
    pose proof Hf as Hf'. unfold assertSeedDir in Hf'. simpl in Hf'.
    simpl. unfold readAsserts. rewrite Hf'. go_simpl. rewrite Hr.
    rewrite IH; [| done | intros r0 Hr0; apply Hall, elem_of_app; by right | done].
    by rewrite logged_logged.
Qed.

(** X6. The scan of the trust directory stops at the first file that cannot
    be read: when the files before it are readable and hold no two model
    references of differing identity, the importer fails with the wrapped
    read error, the files after it are never opened, and all the run has done
    is read the device record, list the directory and read the files up to
    the broken one. *)
Theorem unreadable_file_aborts (env : Env) (pre post : list string) (fi msg u : string)
    (s : State) :
  deviceReadable s →
  assertions_dir env = DirEntries (pre ++ fi :: post) →
  Forall (readable env) pre →
  (∀ r, r ∈ modelRefs (seenRefs env pre) → Unique r = u) →
  assert_file env (assertSeedDir env ++ [fi]) = inl msg →
  importAssertionsFromSeed env s =
  (logged ([CallAuthDevice; CallReadDir (assertSeedDir env)] ++ (readOf env <$> pre ++ [fi])) s,
   Err (Errorf "cannot read assertions: %s" [AErr (External msg)])).
Proof.
  intros Hdev Hdir Hpre Hall Hfi.
  rewrite importAssertionsFromSeed_run. unfold collectAssertions. go_simpl. rewrite Hdir.
  destruct (st_device s) as [|d|m] eqn:Hd; [| | by destruct (Hdev m)].
  all: go_simpl; rewrite (scanFiles_unreadable env pre fi post msg u) by done.
  all: by rewrite !logged_logged.
Qed.

Lemma unreadable_file_aborts_witness :
  importAssertionsFromSeed Faults.brokenFileEnv Examples.freshState =
  (logged [CallAuthDevice;
           CallReadDir ["/var/lib/snapd/seed"; "assertions"];
           CallReadAsserts ["/var/lib/snapd/seed"; "assertions"; "model"];
           CallReadAsserts ["/var/lib/snapd/seed"; "assertions"; "broken"]]
          Examples.freshState,
   Err (Errorf "cannot read assertions: %s" [AErr (External "no such file")])).
Proof.
  apply (unreadable_file_aborts Faults.brokenFileEnv ["model"] ["later"] "broken"
           "no such file" (Unique Examples.modelRef) Examples.freshState).
  - intros msg. discriminate.
  - reflexivity.
  - constructor; [| constructor]. exists [Examples.accountRef; Examples.modelRef].
    vm_compute. reflexivity.
  - assert (modelRefs (seenRefs Faults.brokenFileEnv ["model"]) = [Examples.modelRef]) as ->
      by (vm_compute; reflexivity).
    intros r Hr%list_elem_of_singleton. by subst r.
  - vm_compute. reflexivity.
Defined.

(** X7. A failure after the commit does not undo it: when every file of the
    trust directory is read, the model references agree and the commit goes
    through, a run of the importer that still fails (the model cannot be
    resolved, disagrees with the build mode, or the device record cannot be
    written) leaves the whole batch in the trust store and the device record
    as it was. *)
Theorem failed_import_keeps_committed_batch (env : Env) (dc : list string) (m : Ref)
    (s s' : State) (e : error) :
  deviceReadable s →
  assertions_dir env = DirEntries dc →
  Forall (readable env) dc →
  m ∈ modelRefs (seenRefs env dc) →
  (∀ r, r ∈ modelRefs (seenRefs env dc) → Unique r = Unique m) →
  commit_error env (seenRefs env dc) = None →
  importAssertionsFromSeed env s = (s', Err e) →
  st_db s' = st_db s ++ seenRefs env dc ∧
  st_device s' = st_device s ∧
  CallCommit (seenRefs env dc) ∈ st_calls s'.
Proof.
  intros Hdev Hdir Hdc Hm Hall Hcommit.
  destruct (collectAssertions_readable env s dc Hdev Hdir Hdc) as (s1 & (cs & -> & _) & Hrun).
  destruct (scanRefs_agree (seenRefs env dc) None (Unique m) s) as (mr & Hscan & _ & Hnone);
    [done | done |].
  rewrite Hscan in Hrun. simpl in Hrun.
  destruct mr as [modelRef|].
  2: { destruct Hnone as [Hnone _]. destruct (Hnone eq_refl) as [_ Hnil].
       rewrite Hnil in Hm. by apply elem_of_nil in Hm. }
  rewrite importAssertionsFromSeed_run, Hrun, commitModel_run, Hcommit.
  cbn zeta. cbn [st_db logged].
  destruct (db_find env _ modelRef) as [msg|model].
  { intros [= <- _]. cbn. repeat split; [].
    rewrite !elem_of_app. left. right. by left. }
  destruct (decide _).
  { intros [= <- _]. cbn. repeat split; [].
    rewrite !elem_of_app. left. right. by left. }
  destruct (set_device_error env); [| done].
  intros [= <- _]. cbn. repeat split; [].
  rewrite !elem_of_app. left. left. right. by left.
Qed.

Lemma failed_import_keeps_committed_batch_witness :
  ∃ s', importAssertionsFromSeed Faults.mismatchEnv Examples.freshState
        = (s', Err (mismatchError false)) ∧
        st_db s' = [Examples.accountRef; Examples.modelRef] ∧
        st_device s' = NoEntry.
Proof.
  assert (∃ s', importAssertionsFromSeed Faults.mismatchEnv Examples.freshState
                = (s', Err (mismatchError false))) as (s' & Hrun)
    by (vm_compute; eexists; reflexivity).
  assert (seenRefs Faults.mismatchEnv ["model"] = [Examples.accountRef; Examples.modelRef])
    as Hseen by (vm_compute; reflexivity).
  destruct (failed_import_keeps_committed_batch Faults.mismatchEnv ["model"]
              Examples.modelRef Examples.freshState s' (mismatchError false))
    as (Hdb & Hdevice & _).
  - intros msg. discriminate.
  - reflexivity.
  - constructor; [| constructor]. exists [Examples.accountRef; Examples.modelRef].
    vm_compute. reflexivity.
  - rewrite Hseen. vm_compute. apply list_elem_of_here.
  - rewrite Hseen.
    assert (modelRefs [Examples.accountRef; Examples.modelRef] = [Examples.modelRef]) as ->
      by (vm_compute; reflexivity).
    intros r Hr%list_elem_of_singleton. by subst r.
  - reflexivity.
  - exact Hrun.
  - exists s'. rewrite Hseen in Hdb. by repeat split.
Defined.

#[global] Instance sameTrust_preorder : PreOrder sameTrust.
Proof.
  split.
  - by intros s.
  - intros s1 s2 s3 [H1 H2] [H3 H4]. split; congruence.
Qed.

Lemma manifest_preserves env (R : relation State) `{!PreOrder R} :
  (∀ cs s, R s (logged cs s)) →
  (∀ ts s, R s (set_tasks ts s)) →
  ∀ markSeeded model,
    preserves R
      (skip ← noSeedYamlOnClassic env;
       if (skip : bool) then markTs ← NewTaskSet markSeeded; mret [markTs]
       else snaps ← ReadSeedYaml env; orderSeed env markSeeded model snaps).
Proof.
  intros R_logged R_tasks markSeeded model.
  unfold noSeedYamlOnClassic, FileExists_seedYaml, ReadSeedYaml, NewTaskSet.
  pres; try (by apply call_preserves); by apply orderSeed_preserves.
Qed.

Lemma importAssertionsFromSeed_ok env s s' model :
  importAssertionsFromSeed env s = (s', Ok model) →
  st_device s' = Entry (deviceFor model (deviceOf s)) ∧ Classic model = OnClassic env.
Proof.
  rewrite importAssertionsFromSeed_run.
  destruct (collectAssertions env s) as [s1 [[[device modelRef] batch]|e|p]] eqn:Hcollect;
    [| done | done].
  apply collectAssertions_inv in Hcollect as [_ [-> _]].
  rewrite commitModel_run. cbn zeta.
  destruct (commit_error env batch); [done |].
  destruct (db_find env _ modelRef) as [msg|model']; [done |].
  destruct (decide _) as [|Heq]; [done |].
  destruct (set_device_error env); [done |].
  intros [= <- <-]. split; [done |]. apply dec_stable in Heq. done.
Qed.

(** X8. Once the import has succeeded, nothing the compiler does afterwards
    touches the device record or the trust store: whether the run then
    returns a graph, fails on the manifest or on an install, or panics, the
    state it leaves carries the brand and model of the resolved model, the
    serial it had, and the trust store as the import left it. *)
Theorem identity_outlives_manifest (env : Env) (s s2 s' : State) (model : Model)
    (r : Outcome (list TaskSet)) :
  notSeeded s →
  importAssertionsFromSeed env (afterGuard s) = (s2, Ok model) →
  populateStateFromSeedImpl env s = (s', r) →
  st_device s' = Entry (deviceFor model (deviceOf s)) ∧ st_db s' = st_db s2.
Proof.
  intros Hs Himp Hrun.
  rewrite populate_after_import in Hrun by done. cbn zeta in Hrun. rewrite Himp in Hrun.
  apply (manifest_preserves env sameTrust) in Hrun as [Hdevice Hdb];
    [| by intros | by intros].
  apply importAssertionsFromSeed_ok in Himp as [Himp _].
  split; [| done]. by rewrite Hdevice, Himp.
Qed.

Lemma identity_outlives_manifest_witness :
  ∃ s', populateStateFromSeedImpl Faults.noCoreEnv Examples.freshState
        = (s', Err (Errorf "cannot proceed without seeding core" [])) ∧
        st_device s' = Entry {| Brand := "canonical"; DModel := "pc"; Serial := "" |} ∧
        st_db s' = [Examples.modelRef].
Proof.
  assert (∃ s', populateStateFromSeedImpl Faults.noCoreEnv Examples.freshState
                = (s', Err (Errorf "cannot proceed without seeding core" [])))
    as (s' & Hrun) by (vm_compute; eexists; reflexivity).
  assert (∃ s2, importAssertionsFromSeed Faults.noCoreEnv (afterGuard Examples.freshState)
                = (s2, Ok Examples.pcModel) ∧ st_db s2 = [Examples.modelRef])
    as (s2 & Himp & Hdb) by (vm_compute; eexists; split; reflexivity).
  destruct (identity_outlives_manifest Faults.noCoreEnv Examples.freshState s2 s'
              Examples.pcModel _ (or_introl eq_refl) Himp Hrun) as [Hdevice Hdb'].
  exists s'. split; [exact Hrun |]. split; [exact Hdevice | by rewrite Hdb'].
Defined.

(** ** [installSeedSnap] *)

(** X9. What [installSeedSnap] does with the provenance of an entry.  An
    unasserted entry is handed to [snapstate.InstallPath] without its
    signatures being consulted, under its name alone (the privacy and contact
    of the entry are dropped); an asserted entry is handed over with the
    derived name and id and its own privacy and contact.  When the signatures
    are not found or cannot be derived, [snapstate.InstallPath] is never
    called.  A failure allocates no task, and no run panics. *)
Theorem seed_install_provenance (env : Env) (sn : SeedSnap) (flags : Flags)
    (s s' : State) (r : Outcome TaskSet) :
  installSeedSnap env sn flags s = (s', r) →
  let derive := CallDeriveSideInfo (seedPath env sn) in
  let install si := CallInstallPath si (seedPath env sn) (sn_Channel sn) (seedFlags sn flags) in
  match r with
  | Ok ts =>
      ts = [length (st_tasks s)] ∧
      if sn_Unasserted sn then
        st_tasks s' = st_tasks s ++ [installTask (unassertedSideInfo sn) env sn flags []] ∧
        st_calls s' = st_calls s ++ [install (unassertedSideInfo sn)]
      else
        ∃ si, derive_side_info env (seedPath env sn) = Derived si ∧
          st_tasks s' = st_tasks s ++ [installTask (assertedSideInfo sn si) env sn flags []] ∧
          st_calls s' = st_calls s ++ [derive; install (assertedSideInfo sn si)]
  | Err e =>
      st_tasks s' = st_tasks s ∧
      ((sn_Unasserted sn = false ∧ st_calls s' = st_calls s ++ [derive] ∧
        (derive_side_info env (seedPath env sn) = DeriveNotFound ∧
         e = Errorf "cannot find signatures with metadata for snap %q (%q)"
                    [AStr (sn_Name sn); APath (seedPath env sn)]
         ∨ ∃ msg, derive_side_info env (seedPath env sn) = DeriveError msg ∧
                  e = External msg))
       ∨ ∃ si msg,
           install_path_error env si (seedPath env sn) (sn_Channel sn) (seedFlags sn flags)
             = Some msg ∧
           e = External msg ∧ install si ∈ st_calls s')
  | Panic _ => False
  end.
Proof.
  unfold installSeedSnap, InstallPath. go_simpl. cbn zeta.
  fold (unassertedSideInfo sn).
  destruct (sn_Unasserted sn).
  - destruct (install_path_error env _ _ _ _) as [msg|] eqn:Hinst; intros [= <- <-].
    + split; [done |]. right. exists (unassertedSideInfo sn), msg.
      split; [done |]. split; [done |]. cbn. apply elem_of_app. right. by left.
    + done.
  - destruct (derive_side_info env _) as [| msg | si] eqn:Hderive.
    + intros [= <- <-]. split; [done |]. left. split; [done |]. split; [done |]. by left.
    + intros [= <- <-]. split; [done |]. left. split; [done |]. split; [done |].
      right. by exists msg.
    + go_simpl. fold (assertedSideInfo sn si).
      destruct (install_path_error env _ _ _ _) as [msg|] eqn:Hinst; intros [= <- <-].
      * split; [done |]. right. exists (assertedSideInfo sn si), msg.
        split; [done |]. split; [done |]. cbn. rewrite !elem_of_app. right. by left.
      * split; [done |]. exists si. split; [done |]. split; [done |].
        cbn. by rewrite <- app_assoc.
Qed.

Lemma seed_install_provenance_witness :
  ∃ s', installSeedSnap Examples.pcEnv Faults.assertedCore skipConfigureFlags
          Examples.freshState
        = (s', Err (Errorf "cannot find signatures with metadata for snap %q (%q)"
                      [AStr "core"; APath ["/var/lib/snapd/seed"; "snaps"; "core_1.snap"]]))
        ∧ st_tasks s' = []
        ∧ st_calls s' = [CallDeriveSideInfo ["/var/lib/snapd/seed"; "snaps"; "core_1.snap"]].
Proof.
  assert (∃ s', installSeedSnap Examples.pcEnv Faults.assertedCore skipConfigureFlags
                  Examples.freshState
                = (s', Err (Errorf "cannot find signatures with metadata for snap %q (%q)"
                      [AStr "core"; APath ["/var/lib/snapd/seed"; "snaps"; "core_1.snap"]])))
    as (s' & Hrun) by (vm_compute; eexists; reflexivity).
  pose proof (seed_install_provenance _ _ _ _ _ _ Hrun) as [Htasks Hcases].
  exists s'. split; [exact Hrun |]. split; [exact Htasks |].
  destruct Hcases as [(_ & Hcalls & _) | (si & msg & Hinst & _)]; [exact Hcalls |].
  vm_compute in Hinst. discriminate.
Defined.

(** ** The inventory of a compiled graph *)

Lemma installIds_S n k : installIds n (S k) = installIds n k ++ [n + 2 * k].
Proof. unfold installIds. by rewrite seq_S, fmap_app. Qed.

Lemma configureIds_S n k : configureIds n (S k) = configureIds n k ++ [n + 2 * k + 1].
Proof. unfold configureIds. by rewrite seq_S, fmap_app. Qed.

Lemma mapGet_insert (m : gmap string bool) name k :
  mapGet (<[name := true]> m) k = true ↔ mapGet m k = true ∨ k = name.
Proof.
  unfold mapGet. destruct (decide (name = k)) as [->|Hne].
  - rewrite lookup_insert_eq. simpl. tauto.
  - rewrite lookup_insert_ne by done. split; [by left | intros [?|?]; [done | by subst]].
Qed.

Lemma seedCore_seededAs env snaps s s' L :
  snaps ≠ [] →
  seedCore env snaps (seedingOf snaps) initLocals s = (s', Ok L) →
  seededAs env snaps (st_tasks s) (st_tasks s') L ["core"].
Proof.
  intros Hsnaps H. apply seedCore_inv in H.
  destruct H as [(-> & _) | (_ & coreSeed & si & Hseed & -> & Htasks)]; [done |].
  exists [installTask si env coreSeed skipConfigureFlags []; configureTask "core" []].
  split; [done |]. split; [done |].
  cbn [tsAll configTss last_ alreadySeeded initLocals app length].
  unfold installIds, configureIds, singles. cbn [seq fmap list_fmap].
  rewrite Nat.add_0_r.
  split; [done |]. split; [done |]. split; [done |]. split.
  { intros k. rewrite mapGet_insert, list_elem_of_singleton. unfold mapGet.
    rewrite lookup_empty. simpl. split; [by intros [?|?] | by right]. }
  intros [|i] name [=]. subst name. exists coreSeed. split; [done |].
  split; [by exists si | done].
Qed.

Lemma seedNamed_seededAs env format name snaps base L names s s' L' :
  seededAs env snaps base (st_tasks s) L names →
  seedNamed env format name (seedingOf snaps) L s = (s', Ok L') →
  seededAs env snaps base (st_tasks s') L' (names ++ optName name).
Proof.
  intros Hinv H. unfold optName. destruct (decide (name ≠ "")) as [Hname|Hname].
  2:{ apply dec_stable in Hname. subst name. rewrite seedNamed_skip in H.
      injection H as <- <-. by rewrite app_nil_r. }
  apply seedNamed_inv in H; [| done].
  destruct H as (namedSeed & si & prev & configPrev & Hseed & _ & _ & -> & Htasks).
  destruct Hinv as (new & Hbase & Hlen & HtsAll & Hconfig & Hlast & Halready & Hkinds).
  exists (new ++ [installTask si env namedSeed skipConfigureFlags prev;
                  configureTask name configPrev]).
  cbn [tsAll configTss last_ alreadySeeded].
  assert (length (st_tasks s) = length base + 2 * length names) as Hn
    by (rewrite Hbase, length_app; lia).
  replace (length (names ++ [name])) with (S (length names))
    by (rewrite length_app; simpl; lia).
  rewrite installIds_S, configureIds_S, !singles_app, HtsAll, Hconfig, Hn.
  split; [by rewrite Htasks, Hbase, <- app_assoc |].
  split; [rewrite length_app; simpl; lia |].
  split; [done |]. split; [done |]. split; [lia |]. split.
  { intros k. rewrite mapGet_insert, Halready, elem_of_app, list_elem_of_singleton. tauto. }
  intros i nm [[Hi Hnm] | [-> [= <-]]]%lookup_snoc_Some.
  - destruct (Hkinds i nm Hnm) as (seed & Hs & Hk1 & Hk2).
    exists seed. split; [done |]. by rewrite !lookup_app_l by lia.
  - exists namedSeed. split; [done |]. rewrite <- Hlen, !lookup_app_r by lia.
    replace (length new - length new) with 0 by lia.
    replace (length new + 1 - length new) with 1 by lia.
    split; [by exists si | done].
Qed.

Lemma seedFoundation_names env model snaps s s' L :
  seedFoundation env model snaps s = (s', Ok L) →
  let n := length (st_tasks s) in
  let names := foundationNames model in
  let f := length names in
  snaps ≠ [] ∧
  tsAll L = singles (installIds n f ++ configureIds n f) ∧
  last_ L + 1 = 2 * f ∧
  length (st_tasks s') = n + 2 * f ∧
  (∀ k, mapGet (alreadySeeded L) k = true ↔ k ∈ names) ∧
  (∀ i name, names !! i = Some name →
     ∃ seed, seedingOf snaps !! name = Some seed ∧
       installOf env seed skipConfigureFlags (t_kind <$> st_tasks s' !! (n + 2 * i)) ∧
       t_kind <$> st_tasks s' !! (n + 2 * i + 1) = Some (KConfigure name UseConfigDefaults)).
Proof.
  intros H. pose proof H as Hcore. apply seedFoundation_inv in Hcore.
  destruct Hcore as (_ & _ & coreSeed & _ & Hcore & _).
  assert (snaps ≠ []) as Hsnaps.
  { intros ->. unfold seedingOf in Hcore. simpl in Hcore. by rewrite lookup_empty in Hcore. }
  cbv zeta. split; [done |].
  unfold seedFoundation, seedKernel, seedGadget in H.
  apply bind_inv in H as [(s1 & L1 & H1 & H) | [(e & _ & [=]) | (p & _ & [=])]].
  apply bind_inv in H as [(s2 & L2 & H2 & H) | [(e & _ & [=]) | (p & _ & [=])]].
  apply bind_inv in H as [(s3 & L3 & H3 & H) | [(e & _ & [=]) | (p & _ & [=])]].
  apply seedCore_seededAs in H1; [| done].
  eapply seedNamed_seededAs in H2; [| exact H1].
  eapply seedNamed_seededAs in H3; [| exact H2].
  replace ((["core"] ++ optName (Kernel model)) ++ optName (Gadget model))
    with (foundationNames model) in H3 by (unfold foundationNames; by rewrite <- app_assoc).
  destruct H3 as (new & Hbase & Hlen & HtsAll & Hconfig & Hlast & Halready & Hkinds).
  apply spliceConfigure_inv in H as (config0 & prev & Hc0 & _ & Hwait & ->).
  cbn [tsAll configTss last_ alreadySeeded].
  assert (length (configureIds (length (st_tasks s)) (length (foundationNames model)))
          = length (foundationNames model)) as Hclen
    by (unfold configureIds; by rewrite length_fmap, length_seq).
  assert (∃ c0, config0 = [c0]) as [c0 ->].
  { rewrite Hconfig, singles_last in Hc0.
    destruct (configureIds _ _ !! 0) as [c0|]; [| done]. injection Hc0 as <-. by exists c0. }
  split; [by rewrite HtsAll, Hconfig, singles_app |].
  split; [rewrite Hconfig; unfold singles; rewrite length_fmap, Hclen; lia |].
  rewrite TaskSet_WaitAll_single in Hwait. injection Hwait as <-.
  cbn [st_tasks set_tasks]. rewrite length_alter.
  split; [rewrite Hbase, length_app; lia |].
  split; [done |].
  intros i name Hname. destruct (Hkinds i name Hname) as (seed & Hs & Hk1 & Hk2).
  exists seed. split; [done |].
  rewrite !alter_waitOn_kind, Hbase, <- Nat.add_assoc, !lookup_app_plus. done.
Qed.

(** X10. The inventory of a compiled graph.  A graph that the compiler returns
    is either the lone mark-seeded fragment, on classic systems only, or it is
    built from a non-empty manifest and holds, in this order: one install per
    foundation name (core, then the kernel and the gadget the model names),
    one configure per foundation name, one install per manifest entry of any
    other name in manifest order (an entry listed twice is installed twice),
    and mark-seeded.  Each foundation install is that of the entry the
    [seeding] map holds for the name, with the flags of a foundation install;
    each trailing install carries the flags its entry and the required list
    give it.  The ids are those of the allocation order: install and
    configure of a foundation name in pairs, then the trailing installs. *)
Theorem seed_graph_inventory (env : Env) (s s' : State) (graph : list TaskSet) :
  populateStateFromSeedImpl env s = (s', Ok graph) →
  let m := length (st_tasks s) in
  (OnClassic env = true ∧ graph = [[m]]) ∨
  ∃ s2 model snaps,
    importAssertionsFromSeed env (afterGuard s) = (s2, Ok model) ∧
    seed_yaml env = inr snaps ∧ snaps ≠ [] ∧
    let names := foundationNames model in
    let f := length names in
    let todo := trailing model snaps in
    graph = singles (installIds (m + 1) f ++ configureIds (m + 1) f
                     ++ seq (m + 1 + 2 * f) (length todo) ++ [m]) ∧
    length (st_tasks s') = m + 1 + 2 * f + length todo ∧
    (∀ i name, names !! i = Some name →
       ∃ seed, seed ∈ snaps ∧ sn_Name seed = name ∧
         seedingOf snaps !! name = Some seed ∧
         installOf env seed skipConfigureFlags (t_kind <$> st_tasks s' !! (m + 1 + 2 * i)) ∧
         t_kind <$> st_tasks s' !! (m + 1 + 2 * i + 1)
           = Some (KConfigure name UseConfigDefaults)) ∧
    (∀ j sn, todo !! j = Some sn →
       installOf env sn (requiredFlags (requiredOf (RequiredSnaps model)) sn)
         (t_kind <$> st_tasks s' !! (m + 1 + 2 * f + j))).
Proof.
  intros H m. apply populate_cases in H. fold m in H.
  destruct H as [[e [=]] | [Hs [(s2 & Hnothing & _ & [= ->]) |
    [(s2 & model & _ & Hclassic & _ & _ & [= ->]) |
     (s2 & model & snaps & Himp & [_ Hsnaps] & H)]]]].
  - left. by apply importAssertionsFromSeed_nothing in Hnothing as (_ & ? & _).
  - by left.
  - right. exists s2, model, snaps. split; [done |]. split; [done |].
    pose proof (atOrdering_tasks env s s2 model Himp) as Htasks0.
    assert (length (st_tasks (atOrdering env s2)) = m + 1) as Hlen0
      by (rewrite Htasks0, length_app; done).
    unfold orderSeed in H.
    apply bind_inv in H as [(sf & Lf & Hfound & H) | [(e & _ & [=]) | (p & _ & [=])]].
    apply bind_inv in H as [(sr & Lr & Hrest & H) | [(e & _ & [=]) | (p & _ & [=])]].
    apply seedFoundation_names in Hfound. cbv zeta in Hfound. rewrite Hlen0 in Hfound.
    destruct Hfound as (Hne & HtsAllf & Hlastf & Hlenf & Halready & Hkinds).
    apply seedRest_installs in Hrest. cbv zeta in Hrest.
    destruct Hrest as (new & Htasksr & HtsAllr & _ & _ & Hall).
    assert (filter (λ sn, mapGet (alreadySeeded Lf) (sn_Name sn) = false) snaps
            = trailing model snaps) as Htodo.
    { apply list_filter_iff. intros sn. rewrite <- Halready.
      by destruct (mapGet (alreadySeeded Lf) (sn_Name sn)). }
    rewrite Htodo, Hlenf in HtsAllr. rewrite Htodo in Hall.
    apply finishSeeding_inv in H as (ts & _ & -> & Htasks').
    split; [done |]. cbv zeta.
    split.
    { rewrite HtsAllr, HtsAllf, <- singles_app.
      replace [[m]] with (singles [m]) by done.
      by rewrite <- singles_app, <- !app_assoc. }
    split.
    { rewrite Htasks', length_alter, Htasksr, length_app, Hlenf.
      by rewrite (Forall2_length _ _ _ Hall). }
    split.
    + intros i name Hname. destruct (Hkinds i name Hname) as (seed & Hseed & Hk1 & Hk2).
      exists seed. destruct (seedingOf_lookup _ _ _ Hseed) as [Hin Hnm].
      split; [done |]. split; [done |]. split; [done |].
      assert (i < length (foundationNames model)) as Hi by (by eapply lookup_lt_Some).
      rewrite Htasks', !alter_waitOn_kind, Htasksr, !lookup_app_l by lia. done.
    + intros j sn Hj. destruct (Forall2_lookup_r _ _ _ _ _ Hall Hj) as (t & Ht & Hkind).
      rewrite Htasks', alter_waitOn_kind, Htasksr, <- Hlenf, lookup_app_plus, Ht. done.
Qed.

Lemma seed_graph_inventory_witness :
  (populateStateFromSeedImpl Examples.pcEnv Examples.freshState).2
  = Ok [[1]; [3]; [5]; [2]; [4]; [6]; [7]; [0]].
Proof.
  assert (∃ s' graph, populateStateFromSeedImpl Examples.pcEnv Examples.freshState
                      = (s', Ok graph)) as (s' & graph & Hrun)
    by (vm_compute; eexists _, _; reflexivity).
  assert (∀ s2 model, importAssertionsFromSeed Examples.pcEnv (afterGuard Examples.freshState)
                      = (s2, Ok model) → model = Examples.pcModel) as Hmodel
    by (intros s2 model; vm_compute; congruence).
  destruct (seed_graph_inventory Examples.pcEnv Examples.freshState s' graph Hrun)
    as [[Hclassic _] | (s2 & model & snaps & Himp & Hsnaps & _ & Hgraph & _)].
  - discriminate Hclassic.
  - apply Hmodel in Himp. subst model. injection Hsnaps as <-.
    rewrite Hrun. cbn [snd]. f_equal. rewrite Hgraph. vm_compute. reflexivity.
Defined.

(** ** The errors of the compiler *)

Section Fails.

Context (P : error → Prop).

Lemma fails_ret {A} (a : A) : fails P (mret a : GoM A).
Proof. by intros s s' e. Qed.

Lemma fails_fail {A} e : P e → fails P (fail e : GoM A).
Proof. by intros He s s' e' [= <- <-]. Qed.

Lemma fails_throw {A} p : fails P (throw p : GoM A).
Proof. by intros s s' e. Qed.

Lemma fails_get_state : fails P get_state.
Proof. by intros s s' e. Qed.

Lemma fails_call c : fails P (call c).
Proof. by intros s s' e. Qed.

Lemma fails_bind {A B} (m : GoM A) (f : A → GoM B) :
  fails P m → (∀ a, fails P (f a)) → fails P (m ≫= f).
Proof.
  intros Hm Hf s s' e. rewrite bind_run.
  destruct (m s) as [s1 [a|e1|p]] eqn:E; intros H.
  - by eapply Hf.
  - injection H as <- <-. by eapply Hm.
  - done.
Qed.

Lemma fails_wrap_error {A} f (m : GoM A) : (∀ e, P (f e)) → fails P (wrap_error f m).
Proof.
  intros Hf s s' e. unfold wrap_error.
  destruct (m s) as [s1 [a|e1|p]]; intros [= <- <-]. apply Hf.
Qed.

Lemma fails_index {A} (l : list A) i : fails P (index l i).
Proof. unfold index. destruct (l !! i); [apply fails_ret | apply fails_throw]. Qed.

Lemma fails_TaskSet_WaitAll ts another : fails P (TaskSet_WaitAll ts another).
Proof. intros s s' e H. destruct (TaskSet_WaitAll_ok ts another s) as [s1 H1]. congruence. Qed.

Lemma fails_Task_WaitAll t ts : fails P (Task_WaitAll t ts).
Proof. intros s s' e. by rewrite Task_WaitAll_run. Qed.

End Fails.

Ltac fails_step :=
  match goal with
  | |- fails _ (mret _) => apply fails_ret
  | |- fails _ (fail _) => apply fails_fail
  | |- fails _ (throw _) => apply fails_throw
  | |- fails _ get_state => apply fails_get_state
  | |- fails _ (call _) => apply fails_call
  | |- fails _ (index _ _) => apply fails_index
  | |- fails _ (TaskSet_WaitAll _ _) => apply fails_TaskSet_WaitAll
  | |- fails _ (Task_WaitAll _ _) => apply fails_Task_WaitAll
  | |- fails _ (wrap_error _ _) => apply fails_wrap_error; intros ?
  | |- fails _ (_ ≫= _) => apply fails_bind; [| intros ?]
  | |- fails _ (match ?x with _ => _ end) => destruct x
  | |- fails _ (λ s, (_, Ok _)) => by intros ? ? ?
  end.

Ltac fails_auto :=
  repeat (first [ assumption | fails_step ]);
  try (unfold noSnapsError; discriminate).

Lemma scanRefs_errors refs modelRef :
  fails (λ e, e ≠ noSnapsError) (scanRefs refs modelRef).
Proof.
  intros s s' e H. destruct (scanRefs_pure refs modelRef) as (r & Hr & [-> | [m ->]]);
    rewrite Hr in H; [| done].
  by injection H as <- <-.
Qed.

Lemma scanFiles_not_noSnaps env dc modelRef batch :
  fails (λ e, e ≠ noSnapsError) (scanFiles env dc modelRef batch).
Proof.
  revert modelRef batch. induction dc as [|fi rest IH]; intros modelRef batch; simpl.
  - fails_auto.
  - fails_auto; [apply scanRefs_errors | apply IH].
Qed.

Lemma importAssertionsFromSeed_errors env :
  fails (λ e, e ≠ noSnapsError) (importAssertionsFromSeed env).
Proof.
  unfold importAssertionsFromSeed, collectAssertions, commitModel, batch_Commit,
    auth_SetDevice, auth_Device.
  fails_auto; try apply scanFiles_not_noSnaps.
  cbn zeta. unfold noSnapsError. by destruct (Classic _).
Qed.

Lemma installSeedSnap_errors env sn flags :
  fails (λ e, e ≠ noSnapsError) (installSeedSnap env sn flags).
Proof. unfold installSeedSnap, InstallPath, alloc. fails_auto. Qed.

Lemma seedFoundation_errors env model snaps :
  fails (λ e, e ≠ noSnapsError) (seedFoundation env model snaps).
Proof.
  unfold seedFoundation, seedKernel, seedGadget, seedCore, seedNamed, spliceConfigure,
    ConfigureSnap, alloc.
  fails_auto; apply installSeedSnap_errors.
Qed.

Lemma seedRest_errors env required snaps L :
  fails (λ e, e ≠ noSnapsError) (seedRest env required snaps L).
Proof.
  revert L. induction snaps as [|sn rest IH]; intros L; simpl; fails_auto;
    first [apply IH | apply installSeedSnap_errors].
Qed.

(** X11. The check of line 202 is dead code: no run of the compiler, in any
    state and with any seed, returns the error "cannot proceed, no snaps to
    seed".  Whenever the trailing loop has been reached the foundation has
    put the fragments of core into [tsAll], and with an empty manifest and a
    model that names neither kernel nor gadget the run has panicked at line
    178 before the check. *)
Theorem no_snaps_error_unreachable (env : Env) (s s' : State) :
  populateStateFromSeedImpl env s ≠ (s', Err noSnapsError).
Proof.
  intros H.
  assert (notSeeded s) as Hs.
  { revert H. unfold populateStateFromSeedImpl, notSeeded. go_simpl.
    destruct (st_seeded s) as [|[]|msg]; try done; tauto. }
  rewrite populate_after_import in H by done. cbn zeta in H.
  destruct (importAssertionsFromSeed env (afterGuard s)) as [s2 [model|e|p]] eqn:Himp;
    [| | done].
  2:{ apply importAssertionsFromSeed_errors in Himp.
      destruct e; try done; congruence. }
  revert H. unfold noSeedYamlOnClassic, FileExists_seedYaml, ReadSeedYaml, NewTaskSet.
  intros H.
  assert (∃ s3 snaps, orderSeed env (length (st_tasks s)) model snaps s3
                      = (s', Err noSnapsError)) as (s3 & snaps & Horder).
  { revert H. go_simpl.
    destruct (OnClassic env), (seed_yaml_exists env), (seed_yaml env) as [msg|snaps];
      go_simpl; cbn [negb]; try done; eauto. }
  clear H. unfold orderSeed in Horder.
  apply bind_inv in Horder as [(sf & Lf & Hfound & H) | [(e & Hfound & [= <-]) | (p & _ & [=])]];
    [| by apply seedFoundation_errors in Hfound].
  apply bind_inv in H as [(sr & Lr & Hrest & H) | [(e & Hrest & [= <-]) | (p & _ & [=])]];
    [| by apply seedRest_errors in Hrest].
  apply finishSeeding_inv in H as (Hnil & _).
  apply seedFoundation_names in Hfound as (_ & HtsAll & _).
  apply seedRest_inv in Hrest as (extra & new & HtsAll' & _).
  rewrite HtsAll', HtsAll in Hnil. unfold foundationNames in Hnil. cbn in Hnil. done.
Qed.

Lemma seedNamed_failure env format name snaps L s s' e :
  seedNamed env format name (seedingOf snaps) L s = (s', Err e) →
  name ≠ "" ∧
  ((¬ listed snaps name ∧ e = Errorf format [AStr name]) ∨
   (∃ sn s0 s1, sn ∈ snaps ∧ installSeedSnap env sn skipConfigureFlags s0 = (s1, Err e))).
Proof.
  intros H. destruct (decide (name = "")) as [->|Hname].
  { by rewrite seedNamed_skip in H. }
  split; [done |].
  apply seedNamed_inv in H; [| done].
  destruct H as [(Hnone & _ & ->) | (namedSeed & Hsome & Hinst)].
  - left. split; [by apply seedingOf_not_listed | done].
  - right. apply seedingOf_lookup in Hsome as [Hin _]. eauto.
Qed.

Lemma seedNamed_listed env format name snaps L s s' L' :
  seedNamed env format name (seedingOf snaps) L s = (s', Ok L') →
  name = "" ∨ listed snaps name.
Proof.
  intros H. destruct (decide (name = "")) as [->|Hname]; [by left |]. right.
  apply seedNamed_inv in H; [| done].
  destruct H as (namedSeed & _ & _ & _ & Hsome & _).
  apply seedingOf_lookup in Hsome as [Hin Hnm]. by exists namedSeed.
Qed.

(** X12. The errors of the ordering algorithm, and their order.  When the
    compiler has read the manifest and fails, then either core is not listed
    in a non-empty manifest, or the kernel the model names is not listed
    (core having been dealt with: an empty manifest with a model that names a
    kernel fails here, not at the check for core), or the gadget the model
    names is not listed (the kernel having been dealt with), each with its own
    message, or the error is that of the install of a listed entry. *)
Theorem manifest_errors (env : Env) (s s2 s' : State) (model : Model)
    (snaps : list SeedSnap) (e : error) :
  notSeeded s →
  importAssertionsFromSeed env (afterGuard s) = (s2, Ok model) →
  readsManifest env snaps →
  populateStateFromSeedImpl env s = (s', Err e) →
  (snaps ≠ [] ∧ ¬ listed snaps "core" ∧
   e = Errorf "cannot proceed without seeding core" []) ∨
  (Kernel model ≠ "" ∧ ¬ listed snaps (Kernel model) ∧
   (snaps = [] ∨ listed snaps "core") ∧
   e = Errorf "cannot find seed information for kernel snap %q" [AStr (Kernel model)]) ∨
  (Gadget model ≠ "" ∧ ¬ listed snaps (Gadget model) ∧
   (snaps = [] ∨ listed snaps "core") ∧
   (Kernel model = "" ∨ listed snaps (Kernel model)) ∧
   e = Errorf "cannot find seed information for gadget snap %q" [AStr (Gadget model)]) ∨
  (∃ sn flags s0 s1, sn ∈ snaps ∧ installSeedSnap env sn flags s0 = (s1, Err e)).
Proof.
  intros Hs Himp Hread H.
  rewrite (populate_reaches_ordering env s s2 model snaps) in H by done.
  unfold orderSeed in H.
  apply bind_inv in H as [(sf & Lf & Hfound & H) | [(e' & Hfound & [= <-]) | (p & _ & [=])]].
  - (* the foundation went through *)
    apply bind_inv in H as [(sr & Lr & Hrest & H) | [(e' & Hrest & [= <-]) | (p & _ & [=])]].
    + apply finishSeeding_inv in H as (Hnil & _).
      apply seedFoundation_names in Hfound as (_ & HtsAll & _).
      apply seedRest_inv in Hrest as (extra & new & HtsAll' & _).
      rewrite HtsAll', HtsAll in Hnil. unfold foundationNames in Hnil. cbn in Hnil. done.
    + apply seedRest_inv in Hrest as (sn & s0 & s1 & Hin & Hinst).
      right; right; right. eauto 10.
  - (* the foundation failed *)
    unfold seedFoundation, seedKernel, seedGadget in Hfound.
    apply bind_inv in Hfound
      as [(s1 & L1 & Hcore & H) | [(e' & Hcore & [= <-]) | (p & _ & [=])]].
    2:{ apply seedCore_inv in Hcore as [Hne [(Hnone & _ & ->) | (coreSeed & Hsome & Hinst)]].
        - left. split; [done |]. split; [by apply seedingOf_not_listed | done].
        - right; right; right. apply seedingOf_lookup in Hsome as [Hin _]. eauto 10. }
    assert (snaps = [] ∨ listed snaps "core") as Hcore'.
    { apply seedCore_inv in Hcore as [(-> & _) | (_ & coreSeed & _ & Hsome & _)]; [by left |].
      right. apply seedingOf_lookup in Hsome as [Hin Hnm]. by exists coreSeed. }
    apply bind_inv in H as [(s3 & L2 & Hkernel & H) | [(e' & Hkernel & [= <-]) | (p & _ & [=])]].
    2:{ apply seedNamed_failure in Hkernel as [Hk [[Hnot' ->] | Hinst]].
        - right; left. done.
        - right; right; right. destruct Hinst as (sn & s0 & s4 & Hin & Hinst). eauto 10. }
    apply seedNamed_listed in Hkernel.
    apply bind_inv in H as [(s4 & L3 & Hgadget & H) | [(e' & Hgadget & [= <-]) | (p & _ & [=])]].
    2:{ apply seedNamed_failure in Hgadget as [Hg [[Hnot' ->] | Hinst]].
        - right; right; left. done.
        - right; right; right. destruct Hinst as (sn & s0 & s5 & Hin & Hinst). eauto 10. }
    by apply spliceConfigure_inv in H.
Qed.

Lemma manifest_errors_witness :
  ¬ listed [Examples.mkSnap "hello-world"] "core".
Proof.
  assert (∃ s', populateStateFromSeedImpl Faults.noCoreEnv Examples.freshState
                = (s', Err (Errorf "cannot proceed without seeding core" [])))
    as (s' & Hrun) by (vm_compute; eexists; reflexivity).
  assert (∃ s2, importAssertionsFromSeed Faults.noCoreEnv (afterGuard Examples.freshState)
                = (s2, Ok Examples.pcModel)) as (s2 & Himp)
    by (vm_compute; eexists; reflexivity).
  destruct (manifest_errors Faults.noCoreEnv Examples.freshState s2 s' Examples.pcModel
              [Examples.mkSnap "hello-world"] _ (or_introl eq_refl) Himp
              (conj (or_introl eq_refl) eq_refl) Hrun)
    as [(_ & Hcore & _) | [(_ & _ & _ & [=]) | [(_ & _ & _ & _ & [=]) |
        (sn & flags & s0 & s1 & Hin & Hinst)]]]; [done |].
  exfalso. apply list_elem_of_singleton in Hin. subst sn.
  revert Hinst. unfold installSeedSnap, InstallPath. go_simpl. cbn. discriminate.
Defined.

(** * Properties of the snap context cookie *)

Lemma cstring_prefix buf : prefix (ContextSupport.cstring buf) buf.
Proof.
  induction buf as [|b rest IH]; simpl; [done |].
  destruct (Byte.eqb b Byte.x00); [apply prefix_nil | by apply prefix_cons].
Qed.

Lemma cstring_no_nul buf : Byte.x00 ∉ ContextSupport.cstring buf.
Proof.
  induction buf as [|b rest IH]; simpl; [apply not_elem_of_nil |].
  destruct (Byte.eqb b Byte.x00) eqn:Hb; [apply not_elem_of_nil |].
  apply not_elem_of_cons. split; [| done].
  intros <-. by rewrite (Byte.byte_dec_lb eq_refl) in Hb.
Qed.

Lemma cstring_app_nul l rest :
  ContextSupport.cstring (l ++ Byte.x00 :: rest) = ContextSupport.cstring l.
Proof.
  induction l as [|b l IH]; simpl; [done |].
  destruct (Byte.eqb b Byte.x00); [done | by rewrite IH].
Qed.

(** A read of at most [count] bytes into a zeroed buffer of [count + 1]. *)
Lemma read_into_calloc count data :
  let got := take count data in
  let buf := ContextSupport.read_into (ContextSupport.calloc (S count)) count data in
  buf = got ++ replicate (S count - length got) Byte.x00 ∧
  length buf = S count ∧
  buf !! count = Some Byte.x00 ∧
  ContextSupport.cstring buf = ContextSupport.cstring got.
Proof.
  intros got buf. unfold buf, ContextSupport.read_into, ContextSupport.calloc.
  fold got. rewrite drop_replicate.
  assert (length got ≤ count)%nat as Hgot by (unfold got; rewrite length_take; lia).
  assert (∃ k, S count - length got = S k ∧ length got + k = count) as (k & Hk & Hsum)
    by (exists (count - length got); lia).
  split; [done |].
  split; [rewrite length_app, length_replicate; lia |].
  rewrite Hk. split; [| cbn [replicate]; apply cstring_app_nul].
  rewrite <- Hsum at 1. rewrite lookup_app_r by lia.
  replace (length got + k - length got) with k by lia.
  apply lookup_replicate_2. lia.
Qed.

Lemma sc_context_get_from_snapd_value w snap_name buf err :
  ContextSupport.sc_context_get_from_snapd w snap_name
    = ContextSupport.Returned (Some buf) err →
  err = None ∧
  ∃ data,
    ContextSupport.sys_read w (ContextSupport.context_path snap_name) 44 = Some data ∧
    buf = ContextSupport.read_into (ContextSupport.calloc 45) 44 data.
Proof.
  unfold ContextSupport.sc_context_get_from_snapd.
  destruct (ContextSupport.path_fits w _); [| done].
  destruct (ContextSupport.open_ok w _); [| done].
  destruct (ContextSupport.calloc_ok w); [| done].
  cbn [negb ContextSupport.sizeof_sc_context_cookie Nat.sub].
  destruct (ContextSupport.sys_read w _ 44) as [data|] eqn:Hread; [| done].
  intros [= <- <-]. split; [done |]. by exists data.
Qed.

Lemma sc_context_get_from_snapd_null w snap_name err :
  ContextSupport.sc_context_get_from_snapd w snap_name = ContextSupport.Returned None err →
  is_Some err.
Proof.
  unfold ContextSupport.sc_context_get_from_snapd.
  destruct (ContextSupport.path_fits w _); [| done].
  destruct (ContextSupport.open_ok w _); [| intros [= <-]; by eexists].
  destruct (ContextSupport.calloc_ok w); [| done].
  cbn [negb]. destruct (ContextSupport.sys_read w _ _); [done |].
  intros [= <-]. by eexists.
Qed.

(** X13. The cookie [sc_context_get_from_snapd] returns is a C string that
    ends inside its buffer.  Whenever a value is returned no error is: the
    buffer has 45 bytes, its last byte is NUL, it holds the bytes [read]
    transferred (at most 44) followed by zeros, and the string it holds has
    at most 44 bytes, has no NUL and is a prefix of what was read. *)
Theorem cookie_is_terminated (w : ContextSupport.World) (snap_name : string)
    (buf : list Byte.byte) (err : option ContextSupport.sc_error) :
  ContextSupport.sc_context_get_from_snapd w snap_name
    = ContextSupport.Returned (Some buf) err →
  err = None ∧
  length buf = 45 ∧
  buf !! 44 = Some Byte.x00 ∧
  ∃ data,
    ContextSupport.sys_read w (ContextSupport.context_path snap_name) 44 = Some data ∧
    buf = take 44 data ++ replicate (45 - length (take 44 data)) Byte.x00 ∧
    (length (ContextSupport.cstring buf) ≤ 44)%nat ∧
    (Byte.x00 ∉ ContextSupport.cstring buf) ∧
    prefix (ContextSupport.cstring buf) data.
Proof.
  intros (-> & data & Hread & ->)%sc_context_get_from_snapd_value.
  destruct (read_into_calloc 44 data) as (Hbuf & Hlen & Hnul & Hstr).
  split; [done |]. split; [done |]. split; [done |].
  exists data. split; [done |]. split; [done |].
  rewrite Hstr.
  pose proof (cstring_prefix (take 44 data)) as Hprefix.
  split.
  { apply prefix_length in Hprefix. rewrite length_take in Hprefix. lia. }
  split; [apply cstring_no_nul |].
  etransitivity; [exact Hprefix | apply prefix_take].
Qed.

Lemma cookie_is_terminated_witness :
  prefix (ContextSupport.cstring (replicate 44 Byte.x61 ++ [Byte.x00]))
         (replicate 50 Byte.x61).
Proof.
  destruct (cookie_is_terminated (ContextSupport.cookieWorld (replicate 50 Byte.x61))
              "hello" (replicate 44 Byte.x61 ++ [Byte.x00]) None)
    as (_ & _ & _ & data & Hread & _ & _ & _ & Hprefix).
  - vm_compute. reflexivity.
  - injection Hread as <-. etransitivity; [exact Hprefix |].
    by exists (replicate 6 Byte.x61).
Defined.

(** X14. What the two functions do to the environment when the value the
    first returns is handed to the second: no variable but SNAP_CONTEXT is
    ever touched; when the first reports an error it returns no value and the
    environment is left as it was, an inherited SNAP_CONTEXT included; when
    it reports none and [setenv] succeeds, SNAP_CONTEXT is a string of at
    most 44 bytes, whatever it was before. *)
Theorem context_environment (w : ContextSupport.World) (snap_name : string)
    (context : option (list Byte.byte)) (err : option ContextSupport.sc_error)
    (environ : gmap string (list Byte.byte)) :
  ContextSupport.sc_context_get_from_snapd w snap_name
    = ContextSupport.Returned context err →
  let environ' := ContextSupport.sc_maybe_set_context_environment w context environ in
  (∀ name, name ≠ "SNAP_CONTEXT" → environ' !! name = environ !! name) ∧
  (is_Some err → context = None ∧ environ' = environ) ∧
  (err = None → ContextSupport.setenv_ok w = true →
   ∃ value, environ' !! "SNAP_CONTEXT" = Some value ∧
            (length value ≤ 44)%nat ∧ Byte.x00 ∉ value).
Proof.
  intros Hrun environ'. split; [| split].
  - intros name Hname. unfold environ', ContextSupport.sc_maybe_set_context_environment,
      ContextSupport.setenv.
    destruct context; [| done]. destruct (ContextSupport.setenv_ok w); [| done].
    by rewrite lookup_insert_ne.
  - intros [e ->]. destruct context as [buf|]; [| done].
    by apply sc_context_get_from_snapd_value in Hrun as [? _].
  - intros -> Hsetenv. destruct context as [buf|].
    + exists (ContextSupport.cstring buf).
      unfold environ', ContextSupport.sc_maybe_set_context_environment,
        ContextSupport.setenv.
      rewrite Hsetenv, lookup_insert_eq. split; [done |].
      apply sc_context_get_from_snapd_value in Hrun as (_ & data & _ & ->).
      destruct (read_into_calloc 44 data) as (_ & _ & _ & ->).
      split; [| apply cstring_no_nul].
      pose proof (prefix_length _ _ (cstring_prefix (take 44 data))) as Hlen.
      rewrite length_take in Hlen. lia.
    + by apply sc_context_get_from_snapd_null in Hrun as [e [=]].
Qed.

Lemma context_environment_witness :
  ContextSupport.sc_maybe_set_context_environment
    (ContextSupport.cookieWorld (replicate 50 Byte.x61))
    (Some (replicate 44 Byte.x61 ++ [Byte.x00]))
    {["HOME" := [Byte.x2f]; "SNAP_CONTEXT" := [Byte.x62]]} !! "HOME" = Some [Byte.x2f].
Proof.
  destruct (context_environment (ContextSupport.cookieWorld (replicate 50 Byte.x61))
              "hello" (Some (replicate 44 Byte.x61 ++ [Byte.x00])) None
              {["HOME" := [Byte.x2f]; "SNAP_CONTEXT" := [Byte.x62]]})
    as (Hother & _ & _).
  - vm_compute. reflexivity.
  - rewrite Hother by discriminate. reflexivity.
Defined.
